(** * go-redis: connection pools (pool.go) and cluster slot routing

    A shallow embedding of [pool.go] (the generic pool [connPool] with its
    registry [connList] and free list [connStack], the [singleConnPool] and
    the [stickyConnPool]) and of the cluster routing table, with the
    properties of the specification stated and proved over it.

    Go values are modelled as follows.
    - [*conn] is an address ([N]); [0] is the nil pointer.
    - [error] is the text of a non-nil error; a nil error is [None].
    - [int32] and [uint32] counters are [Z] with the wrap-around written out.
    - [map[*conn]struct{}] is a [gset conn]; the nil map is [None].
    - A method is a function from the state of its receiver to an [outcome]:
      it returns a value and a new state, panics, blocks for ever, or (for the
      loops, which are run with a bound) runs out of steps.

    The model is sequential: one goroutine calls the pool, so a send on a full
    channel blocks for ever and a timed receive on an empty channel times
    out. *)

From stdpp Require Import base gmap sets list strings numbers sorting.
From Stdlib Require Import ZArith Lia OrderedTypeEx.

Open Scope Z_scope.

#[local] Set Warnings "-clear-no-such-hyp".

(** ** Outcomes and the state monad of methods *)

Inductive outcome (S A : Type) : Type :=
| Ret (a : A) (s : S)      (* normal return *)
| Panic (msg : string)     (* panic(msg), or a run-time panic *)
| Block                    (* the goroutine blocks for ever *)
| OutOfFuel.               (* the bound given to a loop was too small *)

Arguments Ret {S A} a s.
Arguments Panic {S A} msg.
Arguments Block {S A}.
Arguments OutOfFuel {S A}.

Definition M (S A : Type) : Type := S → outcome S A.

#[global] Instance M_ret {S} : MRet (M S) := λ A a s, Ret a s.

#[global] Instance M_bind {S} : MBind (M S) := λ A B f m s,
  match m s with
  | Ret a s' => f a s'
  | Panic msg => Panic msg
  | Block => Block
  | OutOfFuel => OutOfFuel
  end.

Definition gets {S A} (f : S → A) : M S A := λ s, Ret (f s) s.
Definition modify {S} (f : S → S) : M S unit := λ s, Ret tt (f s).
Definition panic {S A} (msg : string) : M S A := λ _, Panic msg.

(** ** Values *)

Definition conn : Type := N.
Definition nil_conn : conn := 0%N.

Definition error : Type := string.

Definition errClosed : error := "redis: client is closed".
Definition errPoolTimeout : error := "redis: connection pool timeout".

Definition int32 (z : Z) : Z := (z + 2 ^ 31) mod 2 ^ 32 - 2 ^ 31.
Definition uint32 (z : Z) : Z := z mod 2 ^ 32.

(** atomic.AddInt32 and atomic.AddUint32 *)
Definition AddInt32 (x delta : Z) : Z := int32 (x + delta).
Definition AddUint32 (x delta : Z) : Z := uint32 (x + delta).

Record PoolStats := {
  Requests : Z;
  Hits : Z;
  Waits : Z;
  Timeouts : Z;
  TotalConns : Z;
  FreeConns : Z
}.

(** connStack: [s_free] is the number of tokens queued in the channel
    [free], [s_free_cap] its capacity. *)
Record connStack := {
  s_cns : list conn;
  s_free : nat;
  s_free_cap : Z
}.

(** connList *)
Record connList := {
  l_cns : option (gset conn);
  l_size : Z;
  l_max : Z
}.

(** The accessors of [Options] that the pool reads. *)
Record Options := {
  getPoolSize : Z;
  getIdleTimeout : Z;
  getPoolTimeout : Z
}.

(** What the pool consumes from its collaborators; none of it is written by
    the pool.  [dialer k] is the result of the k-th call of [p.dialer()],
    [rl_Limit k] the answer of the k-th call of [p.rl.Limit()],
    [rd_unread cn] the bytes buffered and unread in [cn.rd], [conn_Close cn]
    what [cn.Close()] returns, [range_cns m] the order in which a [range] over
    the map [m] visits its keys, [fmt_q] the verb [%q] of package fmt and
    [now] the reading of the clock. *)
Record Env := {
  dialer : nat → conn * option error;
  rl_Limit : nat → bool;
  rd_unread : conn → string;
  UsedAt : conn → Z;
  now : Z;
  conn_Close : conn → option error;
  range_cns : gset conn → list conn;
  fmt_q : string → string
}.

(** connPool, with the effects it has on its collaborators: the number of
    calls made to the dialer and to the rate limiter, the connections closed
    (in the order of the calls of [cn.Close()]) and the lines given to
    [Logger]. *)
Record connPool := {
  env : Env;
  opt : Options;
  conns : connList;
  freeConns : connStack;
  stats : PoolStats;
  _closed : Z;
  lastErr : option string;
  dials : nat;
  rl_calls : nat;
  closedConns : list conn;
  Logger : list string
}.

Definition set_conns (f : connList → connList) (p : connPool) : connPool :=
  {| env := env p; opt := opt p; conns := f (conns p);
     freeConns := freeConns p; stats := stats p; _closed := _closed p;
     lastErr := lastErr p; dials := dials p; rl_calls := rl_calls p;
     closedConns := closedConns p; Logger := Logger p |}.

Definition set_freeConns (f : connStack → connStack) (p : connPool) : connPool :=
  {| env := env p; opt := opt p; conns := conns p;
     freeConns := f (freeConns p); stats := stats p; _closed := _closed p;
     lastErr := lastErr p; dials := dials p; rl_calls := rl_calls p;
     closedConns := closedConns p; Logger := Logger p |}.

Definition set_stats (f : PoolStats → PoolStats) (p : connPool) : connPool :=
  {| env := env p; opt := opt p; conns := conns p;
     freeConns := freeConns p; stats := f (stats p); _closed := _closed p;
     lastErr := lastErr p; dials := dials p; rl_calls := rl_calls p;
     closedConns := closedConns p; Logger := Logger p |}.

Definition set_closed (c : Z) (p : connPool) : connPool :=
  {| env := env p; opt := opt p; conns := conns p;
     freeConns := freeConns p; stats := stats p; _closed := c;
     lastErr := lastErr p; dials := dials p; rl_calls := rl_calls p;
     closedConns := closedConns p; Logger := Logger p |}.

Definition set_lastErr (e : option string) (p : connPool) : connPool :=
  {| env := env p; opt := opt p; conns := conns p;
     freeConns := freeConns p; stats := stats p; _closed := _closed p;
     lastErr := e; dials := dials p; rl_calls := rl_calls p;
     closedConns := closedConns p; Logger := Logger p |}.

Definition set_dials (n : nat) (p : connPool) : connPool :=
  {| env := env p; opt := opt p; conns := conns p;
     freeConns := freeConns p; stats := stats p; _closed := _closed p;
     lastErr := lastErr p; dials := n; rl_calls := rl_calls p;
     closedConns := closedConns p; Logger := Logger p |}.

Definition set_rl_calls (n : nat) (p : connPool) : connPool :=
  {| env := env p; opt := opt p; conns := conns p;
     freeConns := freeConns p; stats := stats p; _closed := _closed p;
     lastErr := lastErr p; dials := dials p; rl_calls := n;
     closedConns := closedConns p; Logger := Logger p |}.

Definition set_closedConns (l : list conn) (p : connPool) : connPool :=
  {| env := env p; opt := opt p; conns := conns p;
     freeConns := freeConns p; stats := stats p; _closed := _closed p;
     lastErr := lastErr p; dials := dials p; rl_calls := rl_calls p;
     closedConns := l; Logger := Logger p |}.

Definition set_env (e : Env) (p : connPool) : connPool :=
  {| env := e; opt := opt p; conns := conns p;
     freeConns := freeConns p; stats := stats p; _closed := _closed p;
     lastErr := lastErr p; dials := dials p; rl_calls := rl_calls p;
     closedConns := closedConns p; Logger := Logger p |}.

Definition set_Logger (l : list string) (p : connPool) : connPool :=
  {| env := env p; opt := opt p; conns := conns p;
     freeConns := freeConns p; stats := stats p; _closed := _closed p;
     lastErr := lastErr p; dials := dials p; rl_calls := rl_calls p;
     closedConns := closedConns p; Logger := l |}.

(** ** The collaborators *)

(** [cn.Close()]: a call through the nil pointer panics; otherwise the call
    is recorded and the connection's answer returned. *)
Definition cn_Close (cn : conn) : M connPool (option error) := λ p,
  if decide (cn = nil_conn)
  then Panic "invalid memory address or nil pointer dereference"
  else Ret (conn_Close (env p) cn) (set_closedConns (closedConns p ++ [cn]) p).

(** [Logger.Print] and [Logger.Printf] *)
Definition Logger_Print (line : string) : M connPool unit :=
  modify (λ p, set_Logger (Logger p ++ [line]) p).

(** ** connStack: the receiver [s] is [p.freeConns] *)

Module connStack.

Definition Len : M connPool Z :=
  gets (λ p, Z.of_nat (s_free (freeConns p))).

(** The append is done under the mutex; the send on [s.free] that follows
    blocks when the channel is full, and with nobody to receive it blocks
    for ever. *)
Definition Push (cn : conn) : M connPool unit := λ p,
  let s := freeConns p in
  if decide (Z.of_nat (s_free s) < s_free_cap s)
  then Ret tt (set_freeConns (λ _,
         {| s_cns := s_cns s ++ [cn]; s_free := S (s_free s);
            s_free_cap := s_free_cap s |}) p)
  else Block.

(** [ci := len(s.cns) - 1; cn, s.cns = s.cns[ci], s.cns[:ci]] *)
Definition pop : M connPool conn := λ p,
  let s := freeConns p in
  match last (s_cns s) with
  | Some cn =>
      Ret cn (set_freeConns (λ _,
        {| s_cns := take (pred (length (s_cns s))) (s_cns s);
           s_free := s_free s; s_free_cap := s_free_cap s |}) p)
  | None => Panic "index out of range [-1]"
  end.

(** [<-s.free] when the channel holds [S n] tokens. *)
Definition receive_free (n : nat) : M connPool unit :=
  modify (set_freeConns (λ s,
    {| s_cns := s_cns s; s_free := n; s_free_cap := s_free_cap s |})).

Definition Pop : M connPool conn := λ p,
  match s_free (freeConns p) with
  | S n => (receive_free n ;; pop) p
  | O => Ret nil_conn p
  end.

(** With nobody to send on [s.free], the timer fires whenever the channel
    is empty. *)
Definition PopWithTimeout (d : Z) : M connPool conn := λ p,
  match s_free (freeConns p) with
  | S n => (receive_free n ;; pop) p
  | O => Ret nil_conn p
  end.

End connStack.

Definition newConnStack (max : Z) : connStack :=
  {| s_cns := []; s_free := 0; s_free_cap := max |}.

(** ** connList: the receiver [l] is [p.conns] *)

Module connList.

Definition Len : M connPool Z := gets (λ p, l_size (conns p)).

(** [atomic.AddInt32(&l.size, delta)] *)
Definition add_size (delta : Z) : M connPool Z := λ p,
  let size := AddInt32 (l_size (conns p)) delta in
  Ret size (set_conns (λ l,
    {| l_cns := l_cns l; l_size := size; l_max := l_max l |}) p).

(** The assignment of a new value to the map [l.cns]. *)
Definition set_cns (m : option (gset conn)) : M connPool unit :=
  modify (set_conns (λ l,
    {| l_cns := m; l_size := l_size l; l_max := l_max l |})).

Definition Reserve : M connPool bool :=
  size ← add_size 1;
  max ← gets (λ p, l_max (conns p));
  let reserved := bool_decide (size ≤ max) in
  (if reserved then mret 0 else add_size (-1)) ;;
  mret reserved.

Definition Add (cn : conn) : M connPool unit :=
  cns ← gets (λ p, l_cns (conns p));
  match cns with
  | Some m => set_cns (Some ({[cn]} ∪ m))
  | None => panic "assignment to entry in nil map"
  end.

(** [l.closed()] *)
Definition closed : M connPool bool :=
  gets (λ p, bool_decide (l_cns (conns p) = None)).

(** [_, ok := l.cns[cn]]; a nil map has no entries. *)
Definition has (cn : conn) : M connPool bool :=
  gets (λ p, match l_cns (conns p) with
             | Some m => bool_decide (cn ∈ m)
             | None => false
             end).

(** [delete(l.cns, cn)]; deleting from a nil map does nothing. *)
Definition delete (cn : conn) : M connPool unit :=
  cns ← gets (λ p, l_cns (conns p));
  match cns with
  | Some m => set_cns (Some (m ∖ {[cn]}))
  | None => mret tt
  end.

Definition Remove (cn : conn) : M connPool (option error) :=
  if decide (cn = nil_conn) then
    add_size (-1) ;; mret None
  else
    ok ← has cn;
    if ok : bool then
      delete cn ;;
      add_size (-1) ;;
      cn_Close cn
    else
      c ← closed;
      if c : bool then mret None
      else panic "conn not found in the list".

Definition Replace (cn newcn : conn) : M connPool (option error) :=
  ok ← has cn;
  if ok : bool then
    delete cn ;;
    Add newcn ;;
    cn_Close cn
  else
    c ← closed;
    if c : bool then cn_Close newcn
    else panic "conn not found in the list".

(** The body of [for cn := range l.cns], over the keys in the order the
    range visits them. *)
Fixpoint Close_range (order : list conn) (retErr : option error)
  : M connPool (option error) :=
  match order with
  | [] => mret retErr
  | cn :: order =>
      err ← cn_Close cn;
      let retErr := match err with Some e => Some e | None => retErr end in
      delete cn ;;
      Close_range order retErr
  end.

Definition Close : M connPool (option error) :=
  cns ← gets (λ p, l_cns (conns p));
  order ← gets (λ p, match cns with
                     | Some m => range_cns (env p) m
                     | None => []
                     end);
  retErr ← Close_range order None;
  set_cns None ;;
  modify (set_conns (λ l,
    {| l_cns := l_cns l; l_size := 0; l_max := l_max l |})) ;;
  mret retErr.

End connList.

Definition newConnList (max : Z) : connList :=
  {| l_cns := Some ∅; l_size := 0; l_max := int32 max |}.

(** ** connPool *)

Module connPool.

Definition closed : M connPool bool :=
  gets (λ p, bool_decide (_closed p = 1)).

(** [p.opt.getIdleTimeout() > 0 && time.Since(cn.UsedAt) > p.opt.getIdleTimeout()];
    the right operand reads a field of [cn]. *)
Definition isIdle (cn : conn) : M connPool bool := λ p,
  if decide (0 < getIdleTimeout (opt p)) then
    if decide (cn = nil_conn)
    then Panic "invalid memory address or nil pointer dereference"
    else Ret (bool_decide
                (getIdleTimeout (opt p) < now (env p) - UsedAt (env p) cn)) p
  else Ret false p.

Definition storeLastErr (err : string) : M connPool unit :=
  modify (set_lastErr (Some err)).

Definition loadLastErr : M connPool string :=
  gets (λ p, match lastErr p with Some v => v | None => "" end).

(** [p.rl.Limit()] *)
Definition rl_Limit_call : M connPool bool := λ p,
  Ret (rl_Limit (env p) (rl_calls p)) (set_rl_calls (S (rl_calls p)) p).

(** [p.dialer()] *)
Definition dialer_call : M connPool (conn * option error) := λ p,
  Ret (dialer (env p) (dials p)) (set_dials (S (dials p)) p).

Definition errTooFast (q : string → string) (last : string) : error :=
  "redis: you open connections too fast (last_error=" +:+ q last +:+ ")".

Definition new : M connPool (conn * option error) :=
  limited ← rl_Limit_call;
  if limited : bool then
    last ← loadLastErr;
    q ← gets (λ p, fmt_q (env p));
    mret (nil_conn, Some (errTooFast q last))
  else
    r ← dialer_call;
    match r with
    | (_, Some err) => storeLastErr err ;; mret (nil_conn, Some err)
    | (cn, None) => mret (cn, None)
    end.

Definition replace (cn : conn) : M connPool (conn * option error) :=
  r ← new;
  match r with
  | (_, Some err) => connList.Remove cn ;; mret (nil_conn, Some err)
  | (newcn, None) => connList.Replace cn newcn ;; mret (newcn, None)
  end.

(** The loops of [First] and [wait]: every turn that goes round again has
    received one token from [s.free], so the number of tokens plus one
    bounds the turns. *)
Fixpoint First_loop (fuel : nat) : M connPool conn :=
  match fuel with
  | O => λ _, OutOfFuel
  | S fuel =>
      cn ← connStack.Pop;
      idle ← (if decide (cn = nil_conn) then mret false else isIdle cn);
      if idle : bool then
        r ← replace cn;
        match r with
        | (_, Some err) =>
            Logger_Print ("pool.replace failed: " +:+ err) ;;
            First_loop fuel
        | (newcn, None) => mret newcn
        end
      else mret cn
  end.

Definition First : M connPool conn := λ p,
  First_loop (S (s_free (freeConns p))) p.

Fixpoint wait_loop (fuel : nat) : M connPool conn :=
  match fuel with
  | O => λ _, OutOfFuel
  | S fuel =>
      d ← gets (λ p, getPoolTimeout (opt p));
      cn ← connStack.PopWithTimeout d;
      idle ← (if decide (cn = nil_conn) then mret false else isIdle cn);
      if idle : bool then
        r ← replace cn;
        match r with
        | (_, Some err) =>
            Logger_Print ("pool.replace failed: " +:+ err) ;;
            wait_loop fuel
        | (newcn, None) => mret newcn
        end
      else mret cn
  end.

Definition wait : M connPool conn := λ p,
  wait_loop (S (s_free (freeConns p))) p.

Definition add_Requests : M connPool unit :=
  modify (set_stats (λ st,
    {| Requests := AddUint32 (Requests st) 1; Hits := Hits st;
       Waits := Waits st; Timeouts := Timeouts st;
       TotalConns := TotalConns st; FreeConns := FreeConns st |})).

Definition add_Hits : M connPool unit :=
  modify (set_stats (λ st,
    {| Requests := Requests st; Hits := AddUint32 (Hits st) 1;
       Waits := Waits st; Timeouts := Timeouts st;
       TotalConns := TotalConns st; FreeConns := FreeConns st |})).

Definition add_Waits : M connPool unit :=
  modify (set_stats (λ st,
    {| Requests := Requests st; Hits := Hits st;
       Waits := AddUint32 (Waits st) 1; Timeouts := Timeouts st;
       TotalConns := TotalConns st; FreeConns := FreeConns st |})).

Definition add_Timeouts : M connPool unit :=
  modify (set_stats (λ st,
    {| Requests := Requests st; Hits := Hits st;
       Waits := Waits st; Timeouts := AddUint32 (Timeouts st) 1;
       TotalConns := TotalConns st; FreeConns := FreeConns st |})).

(** The results are the named results [(cn, isNew, err)]. *)
Definition Get : M connPool (conn * bool * option error) :=
  c ← closed;
  if c : bool then mret (nil_conn, false, Some errClosed)
  else
    add_Requests ;;
    cn ← First;
    if decide (cn ≠ nil_conn) then
      add_Hits ;;
      mret (cn, false, None)
    else
      reserved ← connList.Reserve;
      if reserved : bool then
        r ← new;
        match r with
        | (cn, Some err) =>
            connList.Remove nil_conn ;;
            mret (cn, true, Some err)
        | (cn, None) =>
            connList.Add cn ;;
            mret (cn, true, None)
        end
      else
        add_Waits ;;
        cn ← wait;
        if decide (cn ≠ nil_conn) then mret (cn, false, None)
        else
          add_Timeouts ;;
          mret (nil_conn, false, Some errPoolTimeout).

(** [reason.Error()] on a nil [reason] panics. *)
Definition Remove (cn : conn) (reason : option error)
  : M connPool (option error) :=
  match reason with
  | None => panic "invalid memory address or nil pointer dereference"
  | Some msg =>
      storeLastErr msg ;;
      r ← replace cn;
      match r with
      | (_, Some err) => mret (Some err)
      | (newcn, None) => connStack.Push newcn ;; mret None
      end
  end.

Definition errUnread (q : string → string) (b : string) : error :=
  "connection has unread data: " +:+ q b.

Definition Put (cn : conn) : M connPool (option error) :=
  if decide (cn = nil_conn)
  then panic "invalid memory address or nil pointer dereference"
  else
    b ← gets (λ p, rd_unread (env p) cn);
    if decide (String.length b ≠ 0%nat) then
      q ← gets (λ p, fmt_q (env p));
      let err := errUnread q b in
      Logger_Print err ;;
      Remove cn (Some err)
    else
      connStack.Push cn ;;
      mret None.

Definition Len : M connPool Z := connList.Len.

Definition FreeLen : M connPool Z := connStack.Len.

Definition Stats : M connPool PoolStats :=
  st ← gets stats;
  n ← Len;
  f ← FreeLen;
  mret {| Requests := Requests st; Hits := Hits st; Waits := Waits st;
          Timeouts := Timeouts st;
          TotalConns := uint32 n; FreeConns := uint32 f |}.

(** [for i := 0; i < p.Len(); i++ { if cn := p.wait(); cn == nil { break } }]:
    a turn that goes round again has received a token in [wait], so the
    number of tokens plus one bounds the turns here too. *)
Fixpoint Close_drain (fuel : nat) (i : Z) : M connPool unit :=
  match fuel with
  | O => λ _, OutOfFuel
  | S fuel =>
      n ← Len;
      if decide (i < n) then
        cn ← wait;
        if decide (cn = nil_conn) then mret tt
        else Close_drain fuel (i + 1)
      else mret tt
  end.

Definition Close : M connPool (option error) :=
  c ← gets _closed;
  if decide (c = 0) then
    modify (set_closed 1) ;;
    (λ p, Close_drain (S (s_free (freeConns p))) 0 p) ;;
    connList.Close
  else mret (Some errClosed).

(** One turn of the loop of [reaper], at a tick; [false] is the [break]. *)
Definition reaper_tick : M connPool bool :=
  c ← closed;
  if c : bool then mret false
  else
    cn ← First;
    (if decide (cn ≠ nil_conn) then Put cn ;; mret tt else mret tt) ;;
    mret true.

End connPool.

Definition newConnPool (e : Env) (o : Options) : connPool :=
  {| env := e; opt := o;
     conns := newConnList (getPoolSize o);
     freeConns := newConnStack (getPoolSize o);
     stats := {| Requests := 0; Hits := 0; Waits := 0; Timeouts := 0;
                 TotalConns := 0; FreeConns := 0 |};
     _closed := 0; lastErr := None; dials := 0; rl_calls := 0;
     closedConns := []; Logger := [] |}.

(** ** The interface [pool] *)

Class pool (P : Type) := {
  First : M P conn;
  Get : M P (conn * bool * option error);
  Put : conn → M P (option error);
  Remove : conn → option error → M P (option error);
  Len : M P Z;
  FreeLen : M P Z;
  Close : M P (option error);
  Stats : M P (option PoolStats)
}.

#[global] Instance connPool_pool : pool connPool := {|
  First := connPool.First;
  Get := connPool.Get;
  Put := connPool.Put;
  Remove := connPool.Remove;
  Len := connPool.Len;
  FreeLen := connPool.FreeLen;
  Close := connPool.Close;
  Stats := st ← connPool.Stats; mret (Some st)
|}.

(** ** singleConnPool *)

Record singleConnPool := { single_cn : conn }.

Module singleConnPool.

Definition First : M singleConnPool conn := gets single_cn.

Definition Get : M singleConnPool (conn * bool * option error) :=
  cn ← gets single_cn; mret (cn, false, None).

Definition Put (cn : conn) : M singleConnPool (option error) :=
  pcn ← gets single_cn;
  if decide (pcn ≠ cn) then panic "p.cn != cn" else mret None.

Definition Remove (cn : conn) (_ : option error)
  : M singleConnPool (option error) :=
  pcn ← gets single_cn;
  if decide (pcn ≠ cn) then panic "p.cn != cn" else mret None.

Definition Len : M singleConnPool Z := mret 1.
Definition FreeLen : M singleConnPool Z := mret 0.
Definition Stats : M singleConnPool (option PoolStats) := mret None.
Definition Close : M singleConnPool (option error) := mret None.

End singleConnPool.

#[global] Instance singleConnPool_pool : pool singleConnPool := {|
  First := singleConnPool.First;
  Get := singleConnPool.Get;
  Put := singleConnPool.Put;
  Remove := singleConnPool.Remove;
  Len := singleConnPool.Len;
  FreeLen := singleConnPool.FreeLen;
  Close := singleConnPool.Close;
  Stats := singleConnPool.Stats
|}.

(** ** stickyConnPool over any backing [pool] *)

Record stickyConnPool (P : Type) := {
  sticky_pool : P;
  reusable : bool;
  sticky_cn : conn;
  sticky_closed : bool
}.

Arguments sticky_pool {P} _.
Arguments reusable {P} _.
Arguments sticky_cn {P} _.
Arguments sticky_closed {P} _.

Definition newStickyConnPool {P} (backing : P) (reusable : bool)
  : stickyConnPool P :=
  {| sticky_pool := backing; reusable := reusable;
     sticky_cn := nil_conn; sticky_closed := false |}.

Definition errStickyNotReusable : error :=
  "redis: sticky not reusable connection".

Module stickyConnPool.
Section methods.
Context {P : Type} `{pool P}.

(** A call of a method of [p.pool]. *)
Definition call {A} (m : M P A) : M (stickyConnPool P) A := λ p,
  match m (sticky_pool p) with
  | Ret a backing =>
      Ret a {| sticky_pool := backing; reusable := reusable p;
               sticky_cn := sticky_cn p; sticky_closed := sticky_closed p |}
  | Panic msg => Panic msg
  | Block => Block
  | OutOfFuel => OutOfFuel
  end.

Definition set_cn (cn : conn) : M (stickyConnPool P) unit :=
  modify (λ p, {| sticky_pool := sticky_pool p; reusable := reusable p;
                  sticky_cn := cn; sticky_closed := sticky_closed p |}).

Definition set_closed (c : bool) : M (stickyConnPool P) unit :=
  modify (λ p, {| sticky_pool := sticky_pool p; reusable := reusable p;
                  sticky_cn := sticky_cn p; sticky_closed := c |}).

Definition First : M (stickyConnPool P) conn := gets sticky_cn.

Definition Get : M (stickyConnPool P) (conn * bool * option error) :=
  c ← gets sticky_closed;
  if c : bool then mret (nil_conn, false, Some errClosed)
  else
    pcn ← gets sticky_cn;
    if decide (pcn ≠ nil_conn) then mret (pcn, false, None)
    else
      r ← call Get;
      match r with
      | (cn, isNew, Some err) => mret (cn, isNew, Some err)
      | (cn, isNew, None) => set_cn cn ;; mret (cn, isNew, None)
      end.

Definition put : M (stickyConnPool P) (option error) :=
  pcn ← gets sticky_cn;
  err ← call (Put pcn);
  set_cn nil_conn ;;
  mret err.

Definition Put (cn : conn) : M (stickyConnPool P) (option error) :=
  c ← gets sticky_closed;
  if c : bool then mret (Some errClosed)
  else
    pcn ← gets sticky_cn;
    if decide (pcn ≠ cn) then panic "p.cn != cn" else mret None.

Definition remove (reason : option error)
  : M (stickyConnPool P) (option error) :=
  pcn ← gets sticky_cn;
  err ← call (Remove pcn reason);
  set_cn nil_conn ;;
  mret err.

Definition Remove (cn : conn) (reason : option error)
  : M (stickyConnPool P) (option error) :=
  c ← gets sticky_closed;
  if c : bool then mret (Some errClosed)
  else
    pcn ← gets sticky_cn;
    if decide (pcn = nil_conn) then panic "p.cn == nil"
    else if decide (cn ≠ nil_conn ∧ pcn ≠ cn) then panic "p.cn != cn"
    else remove reason.

Definition Len : M (stickyConnPool P) Z :=
  pcn ← gets sticky_cn;
  if decide (pcn = nil_conn) then mret 0 else mret 1.

Definition FreeLen : M (stickyConnPool P) Z :=
  pcn ← gets sticky_cn;
  if decide (pcn = nil_conn) then mret 1 else mret 0.

Definition Stats : M (stickyConnPool P) (option PoolStats) := mret None.

Definition Close : M (stickyConnPool P) (option error) :=
  c ← gets sticky_closed;
  if c : bool then mret (Some errClosed)
  else
    set_closed true ;;
    pcn ← gets sticky_cn;
    if decide (pcn ≠ nil_conn) then
      r ← gets reusable;
      if r : bool then put
      else remove (Some errStickyNotReusable)
    else mret None.

End methods.
End stickyConnPool.

(** ** The cluster routing table

    The file that declares [ClusterClient] is not among the sources; its test
    is, and shows the fields [addrs], [slots] and [_reload], the descriptor
    [ClusterSlotInfo] and the calls of [reset], [update],
    [GetMasterAddrBySlot], [next] and [forceReload].  The definitions below
    follow the specification. *)

(** Modelled from the spec: the constant [HashSlots], declared in the missing
    file: the number of hash slots, 16384. *)
Definition HashSlots : N := 16384%N.

(** Modelled from the spec: the descriptor [ClusterSlotInfo{Start, End,
    Addrs}] of a range of slots, declared in the missing file: an inclusive
    range and its addresses, master first. *)
Record ClusterSlotInfo := {
  slot_Start : N;
  slot_End : N;
  slot_Addrs : list string
}.

(** Modelled from the spec: the type [ClusterClient], declared in the missing
    file.  SlotMap ([slots]) is an array of [HashSlots] entries, each the
    addresses of the slot, master first, or empty; AddressSet ([addrs]) is a
    deduplicated set of addresses; ReloadFlag is [_reload]; the seed
    addresses are those supplied at construction. *)
Record ClusterClient := {
  seed_addrs : list string;
  addrs : gset string;
  slots : list (list string);
  _reload : Z
}.

(** Modelled from the spec: the order in which AddressSet is sorted, that of
    [sort.Strings] in the test. *)
Definition string_le (a b : string) : Prop := String.leb a b = true.

#[global] Instance string_le_dec a b : Decision (string_le a b).
Proof. unfold string_le. apply _. Defined.

Module ClusterClient.

(** Modelled from the spec: the constructor of [ClusterClient], which is not
    among the sources.  AddressSet starts as the seed addresses, SlotMap as
    all-unassigned, and (as the test of initialisation has it) the reload
    flag as set. *)
Definition NewClusterClient (seeds : list string) : ClusterClient :=
  {| seed_addrs := seeds; addrs := list_to_set seeds;
     slots := replicate (N.to_nat HashSlots) []; _reload := 1 |}.

(** Modelled from the spec: [reset], which is not among the sources.  It
    clears SlotMap to all-unassigned and AddressSet back to seed-only. *)
Definition reset (c : ClusterClient) : ClusterClient :=
  {| seed_addrs := seed_addrs c; addrs := list_to_set (seed_addrs c);
     slots := replicate (N.to_nat HashSlots) []; _reload := _reload c |}.

(** Modelled from the spec: the loop of [update] over one descriptor, which
    is not among the sources: the assignment, for every slot index within
    the inclusive range, of the address list of the descriptor into SlotMap.
    The specification says nothing of an index that the array does not have;
    here it is left out. *)
Definition assign_range (info : ClusterSlotInfo) (sl : list (list string))
  : list (list string) :=
  foldl (λ sl i, <[i := slot_Addrs info]> sl) sl
        (seq (N.to_nat (slot_Start info))
             (S (N.to_nat (slot_End info)) - N.to_nat (slot_Start info))).

(** Modelled from the spec: [update], which is not among the sources.  For
    each descriptor in order, it assigns the range and adds every address
    to AddressSet. *)
Definition update (infos : list ClusterSlotInfo) (c : ClusterClient)
  : ClusterClient :=
  foldl (λ c info,
           {| seed_addrs := seed_addrs c;
              addrs := list_to_set (slot_Addrs info) ∪ addrs c;
              slots := assign_range info (slots c);
              _reload := _reload c |}) c infos.

(** Modelled from the spec: [GetMasterAddrBySlot], which is not among the
    sources.  It returns the first address of the slot's entry, or the empty
    string if the slot is unassigned.  The specification says nothing of a
    slot outside the slot space; here it reads as unassigned. *)
Definition GetMasterAddrBySlot (c : ClusterClient) (slot : N) : string :=
  match slots c !! N.to_nat slot with
  | Some (addr :: _) => addr
  | _ => ""
  end.

(** Modelled from the spec: AddressSet in sorted order, as [next], which is
    not among the sources, scans it. *)
Definition sorted_addrs (c : ClusterClient) : list string :=
  merge_sort string_le (elements (addrs c)).

(** Modelled from the spec: the scan of [next], which is not among the
    sources: the first address not present in [seen], or the empty string. *)
Fixpoint first_unseen (l : list string) (seen : gset string) : string :=
  match l with
  | [] => ""
  | addr :: l => if decide (addr ∈ seen) then first_unseen l seen else addr
  end.

(** Modelled from the spec: [next], which is not among the sources.  It scans
    AddressSet in sorted order and returns the first address not present in
    [seen], or the empty string once all addresses are exhausted. *)
Definition next (c : ClusterClient) (seen : gset string) : string :=
  first_unseen (sorted_addrs c) seen.

(** Modelled from the spec: [forceReload], which is not among the sources.
    It sets the reload flag. *)
Definition forceReload (c : ClusterClient) : ClusterClient :=
  {| seed_addrs := seed_addrs c; addrs := addrs c; slots := slots c;
     _reload := 1 |}.

(** Modelled from the spec: the retry loop of a caller of [next], which is
    not among the sources: [n] calls of [next], each returned value added to
    [seen] before the following call.  The result is the values returned, in
    order, and the final [seen]. *)
Fixpoint retry (c : ClusterClient) (n : nat) (seen : gset string)
  : list string * gset string :=
  match n with
  | O => ([], seen)
  | S n =>
      let addr := next c seen in
      let '(rest, seen') := retry c n ({[addr]} ∪ seen) in
      (addr :: rest, seen')
  end.

(** Modelled from the spec: the same loop, left as a caller leaves it, at the
    first empty answer; [None] if it is still running after [fuel] calls. *)
Fixpoint retry_until_empty (c : ClusterClient) (fuel : nat) (seen : gset string)
  : option (list string) :=
  match fuel with
  | O => None
  | S fuel =>
      let addr := next c seen in
      if decide (addr = "") then Some []
      else cons addr <$> retry_until_empty c fuel ({[addr]} ∪ seen)
  end.

End ClusterClient.

(** * Definitions for the statements *)

(** ** Outcomes *)

(** [wp m s Q]: run from [s], the method [m] returns, with a value and a
    state that satisfy [Q]. *)
Definition wp {S A} (m : M S A) (s : S) (Q : A → S → Prop) : Prop :=
  match m s with
  | Ret a s' => Q a s'
  | _ => False
  end.

(** [wlp m s Q]: run from [s], the method [m] does not run out of steps,
    and if it returns, its value and state satisfy [Q]. *)
Definition wlp {S A} (m : M S A) (s : S) (Q : A → S → Prop) : Prop :=
  match m s with
  | Ret a s' => Q a s'
  | OutOfFuel => False
  | _ => True
  end.

(** The state in which a method leaves [p], or [p] if it does not return. *)
Definition after {S A} (m : M S A) (p : S) : S :=
  match m p with
  | Ret _ p' => p'
  | _ => p
  end.

(** ** The dial and the close of connections *)

(** The error with which [p.new()] fails in the state [p], if it fails. *)
Definition new_err (p : connPool) : option error :=
  match connPool.new p with
  | Ret (_, err) _ => err
  | _ => None
  end.

(** The connection that [p.new()] yields in the state [p], if it succeeds. *)
Definition new_conn (p : connPool) : option conn :=
  match connPool.new p with
  | Ret (cn, None) _ => Some cn
  | _ => None
  end.

(** The errors that the calls of [cn.Close()] on the connections [order]
    return, in the order of the calls. *)
Definition close_errors (e : Env) (order : list conn) : list error :=
  omap (conn_Close e) order.

(** The state of a pool after [l.Close()] has closed the connections
    [order]. *)
Definition registry_closed (order : list conn) (p : connPool) : connPool :=
  set_closedConns (closedConns p ++ order)
    (set_conns (λ l, {| l_cns := None; l_size := 0; l_max := l_max l |}) p).

(** ** The invariant of a pool in use *)

(** [future p cn]: some call of the dialer from now on yields [cn]. *)
Definition future (p : connPool) (cn : conn) : Prop :=
  ∃ k, (dials p ≤ k)%nat ∧ dialer (env p) k = (cn, None).

(** [pool_ok p m]: the registry of [p] is open and holds exactly the
    connections [m], none of them nil; its size is their number and is within
    the capacity, which is below the largest int32; the free list holds
    registered connections, each once, and its channel one token for each and
    room for as many as the capacity.  The collaborators behave: the dialer
    yields connections that are not nil, not registered and not yielded twice,
    and a [range] over a map visits each key once. *)
Record pool_ok (p : connPool) (m : gset conn) : Prop := {
  ok_cns : l_cns (conns p) = Some m;
  ok_size : l_size (conns p) = Z.of_nat (size m);
  ok_max : l_size (conns p) ≤ l_max (conns p);
  ok_max32 : l_max (conns p) < 2 ^ 31 - 1;
  ok_nil : nil_conn ∉ m;
  ok_free : s_free (freeConns p) = length (s_cns (freeConns p));
  ok_nodup : NoDup (s_cns (freeConns p));
  ok_sub : ∀ cn, cn ∈ s_cns (freeConns p) → cn ∈ m;
  ok_cap : l_max (conns p) ≤ s_free_cap (freeConns p);
  ok_fresh : ∀ cn, future p cn → cn ≠ nil_conn ∧ cn ∉ m;
  ok_inj : ∀ k k' cn, (dials p ≤ k)%nat → (dials p ≤ k')%nat →
             dialer (env p) k = (cn, None) → dialer (env p) k' = (cn, None) →
             k = k';
  ok_range : ∀ m', range_cns (env p) m' ≡ₚ elements m'
}.

(** [cn] is held by a caller: registered and not in the free list. *)
Definition checked_out (p : connPool) (cn : conn) : Prop :=
  (∃ m, l_cns (conns p) = Some m ∧ cn ∈ m) ∧ cn ∉ s_cns (freeConns p).

(** Registered connections that are not in the free list, counted. *)
Definition outstanding (p : connPool) : Z :=
  l_size (conns p) - Z.of_nat (length (s_cns (freeConns p))).

(** What no method of the pool changes. *)
Definition same_config (p p' : connPool) : Prop :=
  env p' = env p ∧ opt p' = opt p
  ∧ l_max (conns p') = l_max (conns p)
  ∧ s_free_cap (freeConns p') = s_free_cap (freeConns p).

(** The two inequalities of the specification: [Len() <= max] and
    [FreeLen() <= Len()]. *)
Definition bounded (p : connPool) : Prop :=
  ∃ n f, connPool.Len p = Ret n p ∧ connPool.FreeLen p = Ret f p
    ∧ n ≤ l_max (conns p) ∧ f ≤ n.

(** A step in the life of a pool that is open: an operation of a caller that
    keeps the contract ([Put] and [Remove] are given connections that are
    checked out), a tick of the reaper, or, between two operations, a change
    of what the pool reads from its collaborators (time passes, replies
    arrive, the rate limiter refills), the results of the dials to come and
    the order of ranges apart. *)
Inductive pool_step : connPool → connPool → Prop :=
| step_Get p r p' :
    connPool.Get p = Ret r p' → pool_step p p'
| step_Put p cn r p' :
    checked_out p cn → connPool.Put cn p = Ret r p' → pool_step p p'
| step_Remove p cn reason r p' :
    checked_out p cn → connPool.Remove cn (Some reason) p = Ret r p' →
    pool_step p p'
| step_reaper p r p' :
    connPool.reaper_tick p = Ret r p' → pool_step p p'
| step_env p e :
    (∀ k, dialer e k = dialer (env p) k) →
    (∀ m, range_cns e m = range_cns (env p) m) →
    pool_step p (set_env e p).

(** ** The cluster routing table *)

(** [slot] lies within the inclusive range of the descriptor. *)
Definition in_range (info : ClusterSlotInfo) (slot : N) : Prop :=
  (slot_Start info ≤ slot ≤ slot_End info)%N.

(** No slot lies within two of the descriptors. *)
Definition non_overlapping (infos : list ClusterSlotInfo) : Prop :=
  ∀ i j a b slot, infos !! i = Some a → infos !! j = Some b →
    in_range a slot → in_range b slot → i = j.

(** Every slot of the slot space lies within one of the descriptors. *)
Definition covers (infos : list ClusterSlotInfo) : Prop :=
  ∀ slot, (slot < HashSlots)%N → ∃ info, info ∈ infos ∧ in_range info slot.

(** ** Example environments and states *)

(** A dialer that yields the connections 1, 2, 3, ... and a rate limiter that
    never limits; connections have no unread data and close without error. *)
Definition env_up : Env :=
  {| dialer := λ k, (N.of_nat (S k), None);
     rl_Limit := λ _, false;
     rd_unread := λ _, "";
     UsedAt := λ _, 0;
     now := 0;
     conn_Close := λ _, None;
     range_cns := elements;
     fmt_q := λ s, s |}.

(** The same, with a server that refuses every dial. *)
Definition env_down : Env :=
  {| dialer := λ _, (nil_conn, Some "dial tcp: connection refused");
     rl_Limit := λ _, false;
     rd_unread := λ _, "";
     UsedAt := λ _, 0;
     now := 0;
     conn_Close := λ _, None;
     range_cns := elements;
     fmt_q := λ s, s |}.

Definition opt_size (n : Z) : Options :=
  {| getPoolSize := n; getIdleTimeout := 0; getPoolTimeout := 1 |}.

(** A server that is up, and a connection 1 with an unread reply. *)
Definition env_desync : Env :=
  {| dialer := λ k, (N.of_nat (S k), None);
     rl_Limit := λ _, false;
     rd_unread := λ cn, if decide (cn = 1%N) then "+OK" else "";
     UsedAt := λ _, 0;
     now := 0;
     conn_Close := λ _, None;
     range_cns := elements;
     fmt_q := λ s, s |}.

(** Two connections that fail to close, each with its own error; a range
    over the registry visits 1 before 2. *)
Definition env_close_fails : Env :=
  {| dialer := λ k, (N.of_nat (S k), None);
     rl_Limit := λ _, false;
     rd_unread := λ _, "";
     UsedAt := λ _, 0;
     now := 0;
     conn_Close := λ cn, if decide (cn = 1%N) then Some "close 1: broken pipe"
                         else Some "close 2: broken pipe";
     range_cns := λ m, filter (λ cn, cn ∈ m) [1%N; 2%N];
     fmt_q := λ s, s |}.

(** A server that is up, seen when the clock reads 100; the connections
    were last used at 0. *)
Definition env_later : Env :=
  {| dialer := λ k, (N.of_nat (S k), None);
     rl_Limit := λ _, false;
     rd_unread := λ _, "";
     UsedAt := λ _, 0;
     now := 100;
     conn_Close := λ _, None;
     range_cns := elements;
     fmt_q := λ s, s |}.

(** The same clock, with a server that refuses every dial. *)
Definition env_later_down : Env :=
  {| dialer := λ _, (nil_conn, Some "dial tcp: connection refused");
     rl_Limit := λ _, false;
     rd_unread := λ _, "";
     UsedAt := λ _, 0;
     now := 100;
     conn_Close := λ _, None;
     range_cns := elements;
     fmt_q := λ s, s |}.

(** A server that refuses every dial, and a rate limiter that lets the
    first dial through and refuses those that follow. *)
Definition env_limited : Env :=
  {| dialer := λ _, (nil_conn, Some "dial tcp: connection refused");
     rl_Limit := λ k, bool_decide (1 ≤ k)%nat;
     rd_unread := λ _, "";
     UsedAt := λ _, 0;
     now := 0;
     conn_Close := λ _, None;
     range_cns := elements;
     fmt_q := λ s, s |}.

(** A pool of capacity [n] with the idle timeout [t]. *)
Definition opt_idle (n t : Z) : Options :=
  {| getPoolSize := n; getIdleTimeout := t; getPoolTimeout := 1 |}.

(** The seed addresses and the descriptors of the test of the cluster
    client. *)
Definition test_seeds : list string :=
  ["127.0.0.1:6379"; "127.0.0.1:7003"; "127.0.0.1:7006"].

Definition test_infos : list ClusterSlotInfo :=
  [ {| slot_Start := 0; slot_End := 4095;
       slot_Addrs := ["127.0.0.1:7000"; "127.0.0.1:7004"] |};
    {| slot_Start := 12288; slot_End := 16383;
       slot_Addrs := ["127.0.0.1:7003"; "127.0.0.1:7007"] |};
    {| slot_Start := 4096; slot_End := 8191;
       slot_Addrs := ["127.0.0.1:7001"; "127.0.0.1:7005"] |};
    {| slot_Start := 8192; slot_End := 12287;
       slot_Addrs := ["127.0.0.1:7002"; "127.0.0.1:7006"] |} ].

(** [populate] of the test. *)
Definition test_populated : ClusterClient :=
  ClusterClient.update test_infos
    (ClusterClient.reset (ClusterClient.NewClusterClient test_seeds)).

(** ** States and tests for the paths through the pool *)

(** The test of [isIdle] on a connection that is not nil. *)
Definition idle (p : connPool) (cn : conn) : Prop :=
  0 < getIdleTimeout (opt p)
  ∧ getIdleTimeout (opt p) < now (env p) - UsedAt (env p) cn.

#[global] Instance idle_dec p cn : Decision (idle p cn).
Proof. unfold idle. apply _. Defined.

(** [cn] is a key of the map of the registry. *)
Definition registered (p : connPool) (cn : conn) : Prop :=
  ∃ m, l_cns (conns p) = Some m ∧ cn ∈ m.

(** The pool [p] with the free list [l] and [n] tokens in its channel. *)
Definition with_free (l : list conn) (n : nat) (p : connPool) : connPool :=
  set_freeConns (λ s,
    {| s_cns := l; s_free := n; s_free_cap := s_free_cap s |}) p.

(** The pool [p] with the map [m] and the size [size] in its registry. *)
Definition with_conns (m : option (gset conn)) (size : Z) (p : connPool)
  : connPool :=
  set_conns (λ l, {| l_cns := m; l_size := size; l_max := l_max l |}) p.

(** A counter after [atomic.AddUint32(&c, 1)], if [b]. *)
Definition bump (b : bool) (c : Z) : Z := if b then AddUint32 c 1 else c.

(** The pool [p] with those of the counters [Requests], [Hits], [Waits] and
    [Timeouts] incremented that are marked. *)
Definition counted (req hit wt tmo : bool) (p : connPool) : connPool :=
  set_stats (λ st,
    {| Requests := bump req (Requests st); Hits := bump hit (Hits st);
       Waits := bump wt (Waits st); Timeouts := bump tmo (Timeouts st);
       TotalConns := TotalConns st; FreeConns := FreeConns st |}) p.

(** The pool [p] after a call of the rate limiter and, if [dialed], one of
    the dialer. *)
Definition called (dialed : bool) (p : connPool) : connPool :=
  set_dials (if dialed then S (dials p) else dials p)
    (set_rl_calls (S (rl_calls p)) p).

(** The pool [p] after the calls of [cn.Close()] on the connections
    [order]. *)
Definition closing (order : list conn) (p : connPool) : connPool :=
  set_closedConns (closedConns p ++ order) p.

(** ** Tactics *)

Arguments wp : simpl never.
Arguments wlp : simpl never.
Arguments connStack.Push : simpl never.
Arguments connStack.pop : simpl never.
Arguments connStack.Pop : simpl never.
Arguments connStack.PopWithTimeout : simpl never.
Arguments connList.Reserve : simpl never.
Arguments connList.Add : simpl never.
Arguments connList.Remove : simpl never.
Arguments connList.Replace : simpl never.
Arguments connList.Close_range : simpl never.
Arguments connList.Close : simpl never.
Arguments connPool.isIdle : simpl never.
Arguments connPool.new : simpl never.
Arguments connPool.replace : simpl never.
Arguments connPool.First_loop : simpl never.
Arguments connPool.First : simpl never.
Arguments connPool.wait_loop : simpl never.
Arguments connPool.wait : simpl never.
Arguments connPool.Get : simpl never.
Arguments connPool.Remove : simpl never.
Arguments connPool.Put : simpl never.
Arguments connPool.Close_drain : simpl never.
Arguments connPool.Close : simpl never.
Arguments connPool.reaper_tick : simpl never.
Arguments cn_Close : simpl never.
Arguments Logger_Print : simpl never.

Ltac unfold_M :=
  unfold mbind, M_bind, mret, M_ret, gets, modify, panic,
    set_conns, set_freeConns, set_stats, set_closed, set_lastErr, set_dials,
    set_rl_calls, set_closedConns, set_Logger in *.

Ltac triv := solve [ done | intros ?; done | congruence | lia ].

(** The same in the goal only. *)
Ltac sim :=
  unfold mbind, M_bind, mret, M_ret, gets, modify, panic,
    set_conns, set_freeConns, set_stats, set_closed, set_lastErr, set_dials,
    set_rl_calls, set_closedConns, set_Logger;
  cbn.

(** Unfolding of the monad and of the setters, and computation. *)
Ltac go0 :=
  repeat first
    [ progress (unfold_M; cbn in * )
    | rewrite decide_False by triv
    | rewrite decide_True by triv
    | rewrite bool_decide_eq_true_2 by triv
    | rewrite bool_decide_eq_false_2 by triv ].

(** Symbolic execution of straight-line code. *)
Ltac go :=
  repeat first
    [ progress (unfold_M; cbn in * )
    | rewrite decide_False by triv
    | rewrite decide_True by triv
    | rewrite bool_decide_eq_true_2 by triv
    | rewrite bool_decide_eq_false_2 by triv
    | match goal with H : ?x = _ |- context [?x] => rewrite H end ].

(** * Properties *)

(** ** Reasoning about outcomes *)

Lemma wp_bind {S A B} (m : M S A) (f : A → M S B) s Q :
  wp m s (λ a s', wp (f a) s' Q) → wp (m ≫= f) s Q.
Proof. unfold wp, mbind, M_bind. by destruct (m s). Qed.

Lemma wp_bind_Ret {S A B} (m : M S A) (f : A → M S B) s a s' Q :
  m s = Ret a s' → wp (f a) s' Q → wp (m ≫= f) s Q.
Proof. intros Hm Hf. apply wp_bind. unfold wp at 1. by rewrite Hm. Qed.

Lemma wp_ret {S A} (a : A) (s : S) (Q : A → S → Prop) : Q a s → wp (mret a) s Q.
Proof. done. Qed.

Lemma wp_gets {S A} (f : S → A) s (Q : A → S → Prop) :
  Q (f s) s → wp (gets f) s Q.
Proof. done. Qed.

Lemma wp_modify {S} (f : S → S) s (Q : unit → S → Prop) :
  Q tt (f s) → wp (modify f) s Q.
Proof. done. Qed.

Lemma wp_mono {S A} (m : M S A) s (Q Q' : A → S → Prop) :
  wp m s Q → (∀ a s', Q a s' → Q' a s') → wp m s Q'.
Proof. unfold wp. destruct (m s); auto. Qed.

Lemma wp_Ret {S A} (m : M S A) s (Q : A → S → Prop) :
  wp m s Q ↔ ∃ a s', m s = Ret a s' ∧ Q a s'.
Proof.
  unfold wp. split.
  - destruct (m s) as [a s'| | |]; try done. by exists a, s'.
  - by intros (a & s' & -> & HQ).
Qed.

Lemma wlp_bind {S A B} (m : M S A) (f : A → M S B) s Q :
  wlp m s (λ a s', wlp (f a) s' Q) → wlp (m ≫= f) s Q.
Proof. unfold wlp, mbind, M_bind. by destruct (m s). Qed.

Lemma wlp_ret {S A} (a : A) (s : S) (Q : A → S → Prop) :
  Q a s → wlp (mret a) s Q.
Proof. done. Qed.

Lemma wlp_gets {S A} (f : S → A) s (Q : A → S → Prop) :
  Q (f s) s → wlp (gets f) s Q.
Proof. done. Qed.

Lemma wlp_modify {S} (f : S → S) s (Q : unit → S → Prop) :
  Q tt (f s) → wlp (modify f) s Q.
Proof. done. Qed.

Lemma wlp_mono {S A} (m : M S A) s (Q Q' : A → S → Prop) :
  wlp m s Q → (∀ a s', Q a s' → Q' a s') → wlp m s Q'.
Proof. unfold wlp. destruct (m s); auto. Qed.

Lemma wlp_Ret {S A} (m : M S A) s (Q : A → S → Prop) a s' :
  wlp m s Q → m s = Ret a s' → Q a s'.
Proof. unfold wlp. intros H E. by rewrite E in H. Qed.

Lemma wlp_fuel {S A} (m : M S A) s (Q : A → S → Prop) :
  wlp m s Q → m s ≠ OutOfFuel.
Proof. unfold wlp. intros H E. by rewrite E in H. Qed.

Lemma bind_Ret {S A B} (m : M S A) (f : A → M S B) s a s' :
  m s = Ret a s' → (m ≫= f) s = f a s'.
Proof. unfold mbind, M_bind. by intros ->. Qed.

(** ** Integers *)

Lemma int32_small x : - 2 ^ 31 ≤ x < 2 ^ 31 → int32 x = x.
Proof. intros. unfold int32. rewrite Z.mod_small; lia. Qed.

Lemma AddInt32_small x d : - 2 ^ 31 ≤ x + d < 2 ^ 31 → AddInt32 x d = x + d.
Proof. apply int32_small. Qed.

Lemma AddInt32_undo x d : AddInt32 (AddInt32 x d) (- d) = int32 x.
Proof.
  unfold AddInt32, int32.
  replace ((x + d + 2 ^ 31) mod 2 ^ 32 - 2 ^ 31 + - d + 2 ^ 31)
    with ((x + d + 2 ^ 31) mod 2 ^ 32 - d) by lia.
  rewrite Zminus_mod_idemp_l. do 2 f_equal. lia.
Qed.

(** ** The dial *)

Lemma new_cases p :
  connPool.new p =
    if rl_Limit (env p) (rl_calls p) then
      Ret (nil_conn,
           Some (connPool.errTooFast (fmt_q (env p)) (default "" (lastErr p))))
          (set_rl_calls (S (rl_calls p)) p)
    else
      match dialer (env p) (dials p) with
      | (_, Some err) =>
          Ret (nil_conn, Some err)
              (set_lastErr (Some err)
                 (set_dials (S (dials p)) (set_rl_calls (S (rl_calls p)) p)))
      | (cn, None) =>
          Ret (cn, None)
              (set_dials (S (dials p)) (set_rl_calls (S (rl_calls p)) p))
      end.
Proof.
  unfold connPool.new, connPool.rl_Limit_call, connPool.dialer_call,
    connPool.loadLastErr, connPool.storeLastErr.
  go. destruct (rl_Limit _ _); go. { by destruct (lastErr p). }
  by destruct (dialer _ _) as [c [e|]].
Qed.

(** A failing dial, spelled out: the error is the rate limiter's or the
    dialer's, and only the counters of calls and the last error change. *)
Lemma new_fails p err :
  new_err p = Some err →
  ∃ p', connPool.new p = Ret (nil_conn, Some err) p'
    ∧ conns p' = conns p ∧ freeConns p' = freeConns p ∧ stats p' = stats p
    ∧ _closed p' = _closed p ∧ closedConns p' = closedConns p
    ∧ env p' = env p ∧ opt p' = opt p ∧ Logger p' = Logger p
    ∧ (lastErr p' = lastErr p ∨ lastErr p' = Some err).
Proof.
  unfold new_err. rewrite new_cases.
  destruct (rl_Limit _ _).
  - intros [= <-]. eexists; split; [done|]. go. auto 12.
  - destruct (dialer _ _) as [c [e|]]; [|done].
    intros [= <-]. eexists; split; [done|]. go. auto 12.
Qed.

(** The outcome of a dial does not depend on the registry, the free list or
    the counters of [Stats]. *)
Lemma new_err_frame p q :
  env q = env p → rl_calls q = rl_calls p → dials q = dials p →
  lastErr q = lastErr p → new_err q = new_err p.
Proof.
  intros He Hr Hd Hl. unfold new_err. rewrite !new_cases, He, Hr, Hd, Hl.
  destruct (rl_Limit _ _); [done|]. by destruct (dialer _ _) as [c [e|]].
Qed.

(** ** Free list and registry, one call at a time *)

Lemma Pop_empty p :
  s_free (freeConns p) = 0%nat → connStack.Pop p = Ret nil_conn p.
Proof. intros H. unfold connStack.Pop. by rewrite H. Qed.

Lemma First_loop_S fuel :
  connPool.First_loop (S fuel) =
    (cn ← connStack.Pop;
     idle ← (if decide (cn = nil_conn) then mret false
             else connPool.isIdle cn);
     if idle : bool then
       r ← connPool.replace cn;
       match r with
       | (_, Some err) =>
           Logger_Print ("pool.replace failed: " +:+ err) ;;
           connPool.First_loop fuel
       | (newcn, None) => mret newcn
       end
     else mret cn).
Proof. done. Qed.

Lemma First_empty p :
  s_free (freeConns p) = 0%nat → connPool.First p = Ret nil_conn p.
Proof.
  intros H. unfold connPool.First. rewrite H, First_loop_S.
  rewrite (bind_Ret _ _ _ _ _ (Pop_empty p H)). by go.
Qed.

Lemma Reserve_cases p :
  connList.Reserve p =
    let size := AddInt32 (l_size (conns p)) 1 in
    if bool_decide (size ≤ l_max (conns p)) then
      Ret true (set_conns (λ l,
        {| l_cns := l_cns l; l_size := size; l_max := l_max l |}) p)
    else
      Ret false (set_conns (λ l,
        {| l_cns := l_cns l; l_size := AddInt32 size (-1);
           l_max := l_max l |}) p).
Proof.
  unfold connList.Reserve, connList.add_size. go.
  by destruct (bool_decide _).
Qed.

Lemma Remove_nil p :
  connList.Remove nil_conn p =
    Ret None (set_conns (λ l,
      {| l_cns := l_cns l; l_size := AddInt32 (l_size l) (-1);
         l_max := l_max l |}) p).
Proof. done. Qed.

Lemma Remove_member p cn m :
  l_cns (conns p) = Some m → cn ∈ m → cn ≠ nil_conn →
  connList.Remove cn p =
    Ret (conn_Close (env p) cn)
        (set_closedConns (closedConns p ++ [cn])
           (set_conns (λ l,
              {| l_cns := Some (m ∖ {[cn]});
                 l_size := AddInt32 (l_size l) (-1);
                 l_max := l_max l |}) p)).
Proof.
  intros Hm Hin Hnil.
  unfold connList.Remove, connList.has, connList.delete, connList.add_size,
    connList.set_cns, cn_Close.
  by go.
Qed.

Lemma Replace_member p cn newcn m :
  l_cns (conns p) = Some m → cn ∈ m → cn ≠ nil_conn →
  connList.Replace cn newcn p =
    Ret (conn_Close (env p) cn)
        (set_closedConns (closedConns p ++ [cn])
           (set_conns (λ l,
              {| l_cns := Some ({[newcn]} ∪ m ∖ {[cn]});
                 l_size := l_size l;
                 l_max := l_max l |}) p)).
Proof.
  intros Hm Hin Hnil.
  unfold connList.Replace, connList.has, connList.delete, connList.Add,
    connList.set_cns, cn_Close.
  by go.
Qed.

(** ** C1: a failed dial in [Get] *)

(** C1 (as the code has it).  For every [Get] on a pool that is not closed,
    whose free list is empty, for which [Reserve] succeeds and whose dial then
    fails with [err]: [Get] returns [(nil, true, err)] -- [isNew] was set when
    the slot was reserved and stays set -- and the reservation is released:
    the registry size is decremented back (to its value before the call when
    that is an int32), the members of the registry and the free list are
    unchanged. *)
Theorem Get_dial_failure (p : connPool) (err : error) :
  _closed p ≠ 1 →
  s_free (freeConns p) = 0%nat →
  AddInt32 (l_size (conns p)) 1 ≤ l_max (conns p) →
  new_err p = Some err →
  ∃ p', connPool.Get p = Ret (nil_conn, true, Some err) p'
    ∧ l_size (conns p') = AddInt32 (AddInt32 (l_size (conns p)) 1) (-1)
    ∧ (- 2 ^ 31 ≤ l_size (conns p) < 2 ^ 31 →
       l_size (conns p') = l_size (conns p))
    ∧ l_cns (conns p') = l_cns (conns p)
    ∧ l_max (conns p') = l_max (conns p)
    ∧ freeConns p' = freeConns p.
Proof.
  intros Hc Hf Hr Hn.
  unfold connPool.Get, connPool.closed, connPool.add_Requests.
  go. rewrite First_empty by done. go.
  rewrite Reserve_cases. go.
  match goal with |- context [connPool.new ?q] =>
    destruct (new_fails q err) as (p' & -> & Hco & Hfr & _)
  end.
  { rewrite <- Hn. by apply new_err_frame. }
  go. rewrite Remove_nil. go.
  eexists; split; [done|]. go.
  split_and!; try done.
  intros Hsz. change (-1) with (- (1)).
  rewrite AddInt32_undo. by apply int32_small.
Qed.

Lemma Get_dial_failure_witness :
  ∃ p', connPool.Get (newConnPool env_down (opt_size 2))
        = Ret (nil_conn, true, Some "dial tcp: connection refused") p'
    ∧ l_size (conns p') = AddInt32 (AddInt32 0 1) (-1)
    ∧ (- 2 ^ 31 ≤ 0 < 2 ^ 31 → l_size (conns p') = 0)
    ∧ l_cns (conns p') = Some ∅
    ∧ l_max (conns p') = int32 2
    ∧ freeConns p' = newConnStack 2.
Proof.
  apply (Get_dial_failure (newConnPool env_down (opt_size 2))
           "dial tcp: connection refused");
    [done | done | by vm_compute | done].
Defined.

(** C1 as stated fails: with a dialer that refuses, [Get] on a fresh pool
    of capacity 2 finds the free list empty, reserves, fails to dial, and
    returns with [isNew = true]. *)
Lemma Get_dial_failure_isNew_true :
  let p := newConnPool env_down (opt_size 2) in
  s_free (freeConns p) = 0%nat
  ∧ AddInt32 (l_size (conns p)) 1 ≤ l_max (conns p)
  ∧ new_err p = Some "dial tcp: connection refused"
  ∧ (∃ p', connPool.Get p
           = Ret (nil_conn, true, Some "dial tcp: connection refused") p'
         ∧ l_size (conns p') = 0)
  ∧ ¬ (∃ cn err p', connPool.Get p = Ret (cn, false, err) p').
Proof.
  split_and!; [done | by vm_compute | done | |].
  - eexists. split; [by vm_compute | done].
  - intros (cn & err & p' & H). vm_compute in H. discriminate H.
Qed.

(** ** C6: [Remove] when the replacement dial fails *)

(** [replace] of a registered connection when the dial fails: the connection
    is deleted from the registry and closed, the size is decremented, and
    the error of the dial is returned. *)
Lemma replace_fails (p : connPool) (cn : conn) (err : error) (m : gset conn) :
  l_cns (conns p) = Some m → cn ∈ m → cn ≠ nil_conn →
  new_err p = Some err →
  ∃ p', connPool.replace cn p = Ret (nil_conn, Some err) p'
    ∧ conns p' = {| l_cns := Some (m ∖ {[cn]});
                    l_size := AddInt32 (l_size (conns p)) (-1);
                    l_max := l_max (conns p) |}
    ∧ freeConns p' = freeConns p
    ∧ stats p' = stats p
    ∧ _closed p' = _closed p
    ∧ opt p' = opt p
    ∧ env p' = env p
    ∧ Logger p' = Logger p
    ∧ closedConns p' = closedConns p ++ [cn]
    ∧ (lastErr p' = lastErr p ∨ lastErr p' = Some err).
Proof.
  intros Hm Hin Hnil Hn. unfold connPool.replace.
  destruct (new_fails p err Hn)
    as (p1 & HN & Hco & Hfr & Hst & Hcl & Hcc & He & Ho & Hlg & Hl).
  rewrite (bind_Ret _ _ _ _ _ HN). cbn.
  rewrite (bind_Ret _ _ _ _ _ (Remove_member p1 cn m
             ltac:(by rewrite Hco) Hin Hnil)).
  eexists; split; [done|]. unfold set_closedConns, set_conns. cbn.
  rewrite Hco, Hfr, Hst, Hcl, Hcc, He, Ho, Hlg. split_and!; done.
Qed.

(** C6.  For every [Remove(cn, reason)] of a registered connection [cn]
    whose replacement dial fails with [err]: [Remove] returns [err]; [cn] is
    deleted from the registry and closed, and the registry size is
    decremented; nothing is pushed (the free list is unchanged), and of the
    pool only the registry and the last error (the reason, then the dialer's
    error if the dialer was called) change. *)
Theorem Remove_dial_failure (p : connPool) (cn : conn) (reason err : error)
    (m : gset conn) :
  l_cns (conns p) = Some m → cn ∈ m → cn ≠ nil_conn →
  new_err (set_lastErr (Some reason) p) = Some err →
  ∃ p', connPool.Remove cn (Some reason) p = Ret (Some err) p'
    ∧ l_cns (conns p') = Some (m ∖ {[cn]})
    ∧ l_size (conns p') = AddInt32 (l_size (conns p)) (-1)
    ∧ (- 2 ^ 31 < l_size (conns p) < 2 ^ 31 →
       l_size (conns p') = l_size (conns p) - 1)
    ∧ l_max (conns p') = l_max (conns p)
    ∧ freeConns p' = freeConns p
    ∧ stats p' = stats p
    ∧ _closed p' = _closed p
    ∧ opt p' = opt p
    ∧ env p' = env p
    ∧ Logger p' = Logger p
    ∧ closedConns p' = closedConns p ++ [cn]
    ∧ (lastErr p' = Some reason ∨ lastErr p' = Some err).
Proof.
  intros Hm Hin Hnil Hn.
  unfold connPool.Remove, connPool.storeLastErr.
  rewrite (bind_Ret _ _ p tt (set_lastErr (Some reason) p)) by done.
  destruct (replace_fails (set_lastErr (Some reason) p) cn err m)
    as (p' & HR & Hco & Hfr & Hst & Hcl & Ho & He & Hlg & Hcc & Hl);
    [done..|].
  rewrite (bind_Ret _ _ _ _ _ HR). cbn.
  exists p'. rewrite Hco. cbn. split_and!; try done.
  intros Hsz. apply AddInt32_small. lia.
Qed.

(** The server goes down while the connection 1 is checked out. *)
Lemma Remove_dial_failure_witness :
  let p := set_env env_down
             (after connPool.Get (newConnPool env_up (opt_size 2))) in
  ∃ p', connPool.Remove 1%N (Some "i/o timeout") p
        = Ret (Some "dial tcp: connection refused") p'
    ∧ l_cns (conns p') = Some ({[1%N]} ∖ {[1%N]})
    ∧ l_size (conns p') = 0
    ∧ s_cns (freeConns p') = [].
Proof.
  intros p.
  destruct (Remove_dial_failure p 1%N "i/o timeout"
              "dial tcp: connection refused" {[1%N]})
    as (p' & HR & Hm & Hs & _ & _ & Hf & _);
    [by vm_compute | set_solver | done | done |].
  exists p'. split_and!; [done | done | by rewrite Hs | by rewrite Hf].
Defined.

(** ** C2: [Put] *)

Lemma Push_room p cn :
  Z.of_nat (s_free (freeConns p)) < s_free_cap (freeConns p) →
  connStack.Push cn p =
    Ret tt (set_freeConns (λ s,
      {| s_cns := s_cns s ++ [cn]; s_free := S (s_free s);
         s_free_cap := s_free_cap s |}) p).
Proof. intros H. unfold connStack.Push. by go. Qed.

Lemma Push_full p cn :
  ¬ Z.of_nat (s_free (freeConns p)) < s_free_cap (freeConns p) →
  connStack.Push cn p = Block.
Proof. intros H. unfold connStack.Push. by go. Qed.

Lemma new_succeeds p cn :
  new_conn p = Some cn →
  ∃ p', connPool.new p = Ret (cn, None) p'
    ∧ conns p' = conns p ∧ freeConns p' = freeConns p ∧ stats p' = stats p
    ∧ _closed p' = _closed p ∧ closedConns p' = closedConns p
    ∧ env p' = env p ∧ opt p' = opt p ∧ Logger p' = Logger p
    ∧ lastErr p' = lastErr p
    ∧ dials p' = S (dials p) ∧ dialer (env p) (dials p) = (cn, None).
Proof.
  unfold new_conn. rewrite new_cases.
  destruct (rl_Limit _ _); [done|].
  destruct (dialer _ _) as [c [e|]]; [done|].
  intros [= <-]. eexists; split; [done|]. go. auto 12.
Qed.

Lemma new_conn_frame p q :
  env q = env p → rl_calls q = rl_calls p → dials q = dials p →
  new_conn q = new_conn p.
Proof.
  intros He Hr Hd. unfold new_conn. rewrite !new_cases, He, Hr, Hd.
  destruct (rl_Limit _ _); [done|]. by destruct (dialer _ _) as [c [e|]].
Qed.

Lemma cn_Close_frame cn p :
  wlp (cn_Close cn) p (λ _ p',
    freeConns p' = freeConns p ∧ stats p' = stats p ∧ conns p' = conns p).
Proof. unfold wlp, cn_Close. by case_decide. Qed.

Lemma connList_Remove_frame cn p :
  wlp (connList.Remove cn) p (λ _ p',
    freeConns p' = freeConns p ∧ stats p' = stats p).
Proof.
  unfold wlp, connList.Remove, connList.has, connList.delete,
    connList.add_size, connList.closed, connList.set_cns, cn_Close.
  case_decide; [by go|]. go.
  destruct (l_cns (conns p)) as [m|] eqn:Hm; go; [|done].
  destruct (bool_decide (cn ∈ m)); go; done.
Qed.

Lemma connList_Replace_frame cn newcn p :
  wlp (connList.Replace cn newcn) p (λ _ p',
    freeConns p' = freeConns p ∧ stats p' = stats p).
Proof.
  unfold wlp, connList.Replace, connList.has, connList.delete, connList.Add,
    connList.add_size, connList.closed, connList.set_cns, cn_Close.
  go. destruct (l_cns (conns p)) as [m|] eqn:Hm; go.
  - destruct (bool_decide (cn ∈ m)); go; by try case_decide.
  - by try case_decide.
Qed.

(** [replace] leaves the free list and the counters alone, and what it
    returns on success is the connection dialed. *)
Lemma replace_frame cn p :
  wlp (connPool.replace cn) p (λ r p',
    freeConns p' = freeConns p ∧ stats p' = stats p
    ∧ ∀ newcn, r = (newcn, None) → new_conn p = Some newcn).
Proof.
  unfold connPool.replace. apply wlp_bind.
  unfold wlp at 1, new_conn. rewrite new_cases.
  destruct (rl_Limit _ _).
  - apply wlp_bind. eapply wlp_mono; [apply connList_Remove_frame|].
    intros _ p' [? ?]. by go.
  - destruct (dialer _ _) as [c [e|]].
    + apply wlp_bind. eapply wlp_mono; [apply connList_Remove_frame|].
      intros _ p' [? ?]. by go.
    + apply wlp_bind. eapply wlp_mono; [apply connList_Replace_frame|].
      intros _ p' [? ?]. go. split_and!; [done..|]. by intros ? [= <-].
Qed.

Lemma Remove_free_list cn reason p :
  wlp (connPool.Remove cn reason) p (λ r p',
    stats p' = stats p ∧
    (freeConns p' = freeConns p ∨
     ∃ newcn, new_conn p = Some newcn ∧ r = None ∧
       s_cns (freeConns p') = s_cns (freeConns p) ++ [newcn])).
Proof.
  unfold connPool.Remove. destruct reason as [msg|]; [|done].
  unfold connPool.storeLastErr. apply wlp_bind. unfold wlp at 1. go.
  apply wlp_bind. eapply wlp_mono; [apply replace_frame|].
  intros [newcn [e|]] p' (Hf & Hs & Hn); go; [unfold wlp; go; by auto|].
  apply wlp_bind. unfold wlp at 1, connStack.Push.
  case_decide; [|done]. unfold wlp. go. split; [done|]. right. exists newcn.
  split_and!; [|done..].
  rewrite <- (Hn newcn eq_refl). by apply new_conn_frame.
Qed.

Lemma length_nonzero (b : string) : String.length b ≠ 0%nat ↔ b ≠ "".
Proof. destruct b; naive_solver. Qed.

(** C2 (as the code has it).  For every non-nil connection [cn] given to
    [Put].  If [cn] has unread data [b], [Put] logs the error "connection has
    unread data: b" and hands [cn] to [Remove] with that error as the reason;
    [cn] is not pushed onto the free list (the free list is unchanged, or has
    gained the connection just dialed), and [Put] returns what [Remove]
    returns: for a registered [cn], the dial error when the replacement dial
    fails and nil when it succeeds, in which case the replacement is pushed
    and the reason is left as the pool's last error.  If [cn] has no unread
    data, [Put] pushes it and returns nil when the channel of the free list
    has room, and blocks when it is full. *)
Theorem Put_unread_or_push (p : connPool) (cn : conn) :
  cn ≠ nil_conn →
  let b := rd_unread (env p) cn in
  let reason := connPool.errUnread (fmt_q (env p)) b in
  let room := Z.of_nat (s_free (freeConns p)) < s_free_cap (freeConns p) in
  (b ≠ "" →
     connPool.Put cn p
       = (Logger_Print reason ;; connPool.Remove cn (Some reason)) p
     ∧ (∀ r p', connPool.Put cn p = Ret r p' →
          freeConns p' = freeConns p
          ∨ ∃ newcn, new_conn p = Some newcn ∧ r = None
              ∧ s_cns (freeConns p') = s_cns (freeConns p) ++ [newcn])
     ∧ (∀ m err, l_cns (conns p) = Some m → cn ∈ m →
          new_err (set_lastErr (Some reason) p) = Some err →
          ∃ p', connPool.Put cn p = Ret (Some err) p'
            ∧ freeConns p' = freeConns p
            ∧ l_cns (conns p') = Some (m ∖ {[cn]}))
     ∧ (∀ m newcn, l_cns (conns p) = Some m → cn ∈ m →
          new_conn p = Some newcn → room →
          ∃ p', connPool.Put cn p = Ret None p'
            ∧ s_cns (freeConns p') = s_cns (freeConns p) ++ [newcn]
            ∧ l_cns (conns p') = Some ({[newcn]} ∪ m ∖ {[cn]})
            ∧ lastErr p' = Some reason
            ∧ closedConns p' = closedConns p ++ [cn]))
  ∧ (b = "" →
     (room →
      connPool.Put cn p =
        Ret None (set_freeConns (λ s,
          {| s_cns := s_cns s ++ [cn]; s_free := S (s_free s);
             s_free_cap := s_free_cap s |}) p))
     ∧ (¬ room → connPool.Put cn p = Block)).
Proof.
  intros Hnil b reason room.
  assert (b ≠ "" →
          connPool.Put cn p
          = (Logger_Print reason ;; connPool.Remove cn (Some reason)) p)
    as Hroute.
  { intros Hb. unfold connPool.Put. go.
    rewrite decide_True; [done|]. by apply length_nonzero. }
  split.
  - intros Hb. specialize (Hroute Hb). split_and!; [done| | |].
    + intros r p'. rewrite Hroute. unfold Logger_Print. go.
      intros HR. eapply wlp_Ret in HR; [|apply Remove_free_list].
      destruct HR as (_ & [Hf | (newcn & Hn & -> & Hs)]); [by left|].
      right. exists newcn. split_and!; [|done..].
      rewrite <- Hn. by apply new_conn_frame.
    + intros m err Hm Hin Hn. rewrite Hroute. unfold Logger_Print. go.
      unfold connPool.Remove, connPool.storeLastErr. go.
      match goal with |- context [connPool.replace _ ?q] =>
        destruct (replace_fails q cn err m)
          as (p' & -> & Hco' & Hf' & _); [done..| |]
      end.
      { rewrite <- Hn. by apply new_err_frame. }
      go. exists p'. rewrite Hco'. by split_and!.
    + intros m newcn Hm Hin Hn Hroom. rewrite Hroute.
      unfold Logger_Print, connPool.Remove, connPool.storeLastErr,
        connPool.replace. go.
      match goal with |- context [connPool.new ?q] =>
        destruct (new_succeeds q newcn)
          as (p1 & -> & Hco & Hfr & _ & _ & Hcc & He & _ & _ & Hl & _)
      end.
      { rewrite <- Hn. by apply new_conn_frame. }
      go. rewrite (Replace_member p1 cn newcn m) by (by rewrite ?Hco).
      go. rewrite Push_room by (by go).
      eexists; split; [done|]. by go.
  - intros Hb. unfold connPool.Put. go.
    rewrite decide_False; [|by rewrite length_nonzero; intros []].
    split; intros Hroom.
    + rewrite Push_room by done. by go.
    + by rewrite Push_full.
Qed.

Lemma Put_unread_or_push_witness :
  let p := after connPool.Get (newConnPool env_desync (opt_size 2)) in
  ∃ p', connPool.Put 1%N p = Ret None p'
    ∧ s_cns (freeConns p') = [2%N]
    ∧ l_cns (conns p') = Some ({[2%N]} ∪ {[1%N]} ∖ {[1%N]})
    ∧ lastErr p' = Some "connection has unread data: +OK".
Proof.
  intros p.
  destruct (Put_unread_or_push p 1%N) as [H _]; [done|].
  destruct H as (_ & _ & _ & H); [done|].
  destruct (H {[1%N]} 2%N) as (p' & HP & Hs & Hm & Hl & _);
    [by vm_compute | set_solver | done | by vm_compute |].
  exists p'. by split_and!.
Defined.

(** C2 as stated fails twice.  A checked-out connection with the unread
    bytes "+OK" is given to [Put] while the server is up: [Put] returns nil,
    not an error that carries the bytes.  And a connection without unread
    data given to [Put] when the free list already holds as many
    connections as its channel has room for is not pushed: [Put] blocks. *)
Lemma Put_returns_nil_or_blocks :
  let p := after connPool.Get (newConnPool env_desync (opt_size 2)) in
  let q := after (connPool.Put 1%N) (after connPool.Get
             (newConnPool env_up (opt_size 1))) in
  (connPool.Get (newConnPool env_desync (opt_size 2))
   = Ret (1%N, true, None) p
   ∧ rd_unread (env p) 1%N = "+OK"
   ∧ ∃ p', connPool.Put 1%N p = Ret None p'
       ∧ s_cns (freeConns p') = [2%N]
       ∧ lastErr p' = Some "connection has unread data: +OK")
  ∧ (rd_unread (env q) 1%N = "" ∧ s_cns (freeConns q) = [1%N]
     ∧ s_free_cap (freeConns q) = 1
     ∧ connPool.Put 1%N q = Block).
Proof.
  split_and!; [by vm_compute | done | | done | by vm_compute | done
              | by vm_compute].
  eexists. by split_and!; vm_compute.
Qed.

(** ** C9 and C10: the sticky pool *)

(** C10.  On a closed sticky pool, [Put(cn)] and [Remove(cn, reason)] return
    [errClosed] for every [cn] (the pinned connection, another one, or nil)
    and every reason, and leave the pool as it is; they do not panic: the
    test of [p.closed] comes before the comparison of [p.cn] with [cn]. *)
Theorem sticky_closed_Put_Remove {P} `{pool P} (p : stickyConnPool P)
    (cn : conn) (reason : option error) :
  sticky_closed p = true →
  stickyConnPool.Put cn p = Ret (Some errClosed) p
  ∧ stickyConnPool.Remove cn reason p = Ret (Some errClosed) p.
Proof.
  intros Hc. unfold stickyConnPool.Put, stickyConnPool.Remove.
  unfold_M. by rewrite Hc.
Qed.

Lemma sticky_closed_Put_Remove_witness :
  let p := {| sticky_pool := newConnPool env_up (opt_size 2);
              reusable := false; sticky_cn := 1%N; sticky_closed := true |} in
  stickyConnPool.Put 2%N p = Ret (Some errClosed) p
  ∧ stickyConnPool.Remove nil_conn None p = Ret (Some errClosed) p.
Proof.
  intros p. split.
  - by apply (sticky_closed_Put_Remove p 2%N None).
  - by apply (sticky_closed_Put_Remove p nil_conn None).
Defined.

(** While the pool is open, the same calls with a connection that is not the
    pinned one do panic. *)
Lemma sticky_open_mismatch {P} `{pool P} (p : stickyConnPool P)
    (cn : conn) (reason : option error) :
  sticky_closed p = false → sticky_cn p ≠ nil_conn →
  cn ≠ nil_conn → sticky_cn p ≠ cn →
  stickyConnPool.Put cn p = Panic "p.cn != cn"
  ∧ stickyConnPool.Remove cn reason p = Panic "p.cn != cn".
Proof.
  intros Hc Hp Hn Hne. unfold stickyConnPool.Put, stickyConnPool.Remove.
  unfold_M. rewrite Hc. split.
  - by rewrite decide_True.
  - rewrite decide_False by done. by rewrite decide_True.
Qed.

(** C9.  The first [Close] of a sticky pool that is bound calls the backing
    pool once, [Put] with the pinned connection if the pool is reusable and
    [Remove] with it otherwise: if that call returns [err] and leaves the
    backing pool in [backing], [Close] returns [err], with the pin cleared,
    the pool closed and the backing pool in [backing]; a [Close] after that
    returns [errClosed] and changes nothing, the backing pool included.  If
    the call of the backing pool does not return, neither does [Close]. *)
Theorem sticky_Close_once {P} `{pool P} (p : stickyConnPool P) :
  sticky_closed p = false → sticky_cn p ≠ nil_conn →
  let release : M P (option error) :=
    if reusable p then Put (sticky_cn p)
    else Remove (sticky_cn p) (Some errStickyNotReusable) in
  match release (sticky_pool p) with
  | Ret err backing =>
      let p' := {| sticky_pool := backing; reusable := reusable p;
                   sticky_cn := nil_conn; sticky_closed := true |} in
      stickyConnPool.Close p = Ret err p'
      ∧ stickyConnPool.Close p' = Ret (Some errClosed) p'
  | Panic msg => stickyConnPool.Close p = Panic msg
  | Block => stickyConnPool.Close p = Block
  | OutOfFuel => stickyConnPool.Close p = OutOfFuel
  end.
Proof.
  intros Hc Hp release.
  assert (stickyConnPool.Close p =
          match release (sticky_pool p) with
          | Ret err backing =>
              Ret err {| sticky_pool := backing; reusable := reusable p;
                         sticky_cn := nil_conn; sticky_closed := true |}
          | Panic msg => Panic msg
          | Block => Block
          | OutOfFuel => OutOfFuel
          end) as ->.
  { unfold stickyConnPool.Close, stickyConnPool.put, stickyConnPool.remove,
      stickyConnPool.call, stickyConnPool.set_closed, stickyConnPool.set_cn.
    unfold_M. cbn. rewrite Hc. cbn. rewrite decide_True by done.
    subst release. destruct (reusable p); cbn.
    - by destruct (Put (sticky_cn p) (sticky_pool p)).
    - by destruct (Remove (sticky_cn p) _ (sticky_pool p)). }
  by destruct (release (sticky_pool p)).
Qed.

Lemma sticky_Close_once_witness :
  let backing := after connPool.Get (newConnPool env_up (opt_size 2)) in
  let p := {| sticky_pool := backing; reusable := true;
              sticky_cn := 1%N; sticky_closed := false |} in
  let p' := {| sticky_pool := after (connPool.Put 1%N) backing;
               reusable := true; sticky_cn := nil_conn;
               sticky_closed := true |} in
  stickyConnPool.Close p = Ret None p'
  ∧ stickyConnPool.Close p' = Ret (Some errClosed) p'
  ∧ s_cns (freeConns (sticky_pool p')) = [1%N].
Proof.
  intros backing p p'.
  pose proof (sticky_Close_once p eq_refl) as H.
  assert (connPool.Put 1%N backing
          = Ret None (after (connPool.Put 1%N) backing)) as HP
    by (by vm_compute).
  cbn in H. rewrite HP in H.
  destruct H as [H1 H2]; [done|]. by split_and!.
Defined.

(** ** The invariant, one call at a time *)

Lemma same_config_refl p : same_config p p.
Proof. done. Qed.

Lemma same_config_trans p q r :
  same_config p q → same_config q r → same_config p r.
Proof.
  unfold same_config. intros (-> & -> & -> & ->) (-> & -> & -> & ->). done.
Qed.

Lemma future_mono p q cn :
  env q = env p → (dials p ≤ dials q)%nat → future q cn → future p cn.
Proof. intros He Hd (k & Hk & Hdial). exists k. rewrite <- He. split; [lia|done]. Qed.

(** The invariant does not read the counters, the flag, the last error or
    the logs, and survives further calls of the dialer. *)
Lemma pool_ok_frame p q m :
  pool_ok p m → conns q = conns p → freeConns q = freeConns p →
  env q = env p → (dials p ≤ dials q)%nat → pool_ok q m.
Proof.
  intros [] Hc Hf He Hd.
  split; rewrite ?Hc, ?Hf, ?He; try done.
  - intros cn Hfu. apply ok_fresh0. by eapply future_mono.
  - intros k k' cn Hk Hk'. apply ok_inj0; lia.
Qed.

Lemma free_le_size p m :
  pool_ok p m → (length (s_cns (freeConns p)) ≤ size m)%nat.
Proof.
  intros []. rewrite <- (size_list_to_set (C := gset conn)) by done.
  apply subseteq_size. intros cn Hcn. apply ok_sub0.
  by apply elem_of_list_to_set in Hcn.
Qed.

Lemma free_lt_size p m cn :
  pool_ok p m → cn ∈ m → cn ∉ s_cns (freeConns p) →
  (length (s_cns (freeConns p)) < size m)%nat.
Proof.
  intros [] Hin Hout.
  rewrite <- (size_list_to_set (C := gset conn)) by done.
  apply subset_size. split.
  - intros c Hc. apply ok_sub0. by apply elem_of_list_to_set in Hc.
  - intros Hsub. apply Hout. specialize (Hsub cn Hin).
    by apply elem_of_list_to_set in Hsub.
Qed.

Lemma pool_ok_bounds p m :
  pool_ok p m →
  0 ≤ l_size (conns p) ≤ l_max (conns p)
  ∧ Z.of_nat (s_free (freeConns p)) ≤ l_size (conns p).
Proof.
  intros Hok. pose proof (free_le_size p m Hok). destruct Hok.
  rewrite ok_free0, ok_size0 in *. lia.
Qed.

(** The invariant gives the two inequalities of the specification. *)
Lemma pool_ok_Len p m :
  pool_ok p m →
  ∃ n f, connPool.Len p = Ret n p ∧ connPool.FreeLen p = Ret f p
    ∧ n ≤ l_max (conns p) ∧ f ≤ n.
Proof.
  intros Hok. destruct (pool_ok_bounds p m Hok) as [? ?].
  eexists _, _. split_and!; [done | done | lia | done].
Qed.

Lemma Pop_ok p m :
  pool_ok p m →
  (s_cns (freeConns p) = [] ∧ connStack.Pop p = Ret nil_conn p)
  ∨ ∃ l cn,
      s_cns (freeConns p) = l ++ [cn]
      ∧ connStack.Pop p =
          Ret cn (set_freeConns (λ s,
            {| s_cns := l; s_free := length l;
               s_free_cap := s_free_cap s |}) p).
Proof.
  intros Hok. pose proof (ok_free p m Hok) as Hfree.
  destruct (s_cns (freeConns p)) as [|cn l _] eqn:Hl using rev_ind.
  - left. split; [done|]. by apply Pop_empty.
  - right. exists l, cn. split; [done|].
    rewrite length_app in Hfree. cbn in Hfree.
    unfold connStack.Pop. replace (s_free (freeConns p)) with (S (length l)) by lia.
    unfold connStack.receive_free, connStack.pop. go.
    rewrite last_snoc. go.
    rewrite length_app. cbn. rewrite Nat.add_1_r. cbn.
    by rewrite take_app_length.
Qed.

Lemma pool_ok_popped p m l cn :
  pool_ok p m → s_cns (freeConns p) = l ++ [cn] →
  pool_ok (set_freeConns (λ s,
    {| s_cns := l; s_free := length l; s_free_cap := s_free_cap s |}) p) m
  ∧ cn ∈ m ∧ (cn ∉ l) ∧ cn ≠ nil_conn.
Proof.
  intros [] Hl. rewrite Hl in *.
  apply NoDup_app in ok_nodup0 as (Hnd & Hdisj & _).
  assert (cn ∈ m) as Hin by (apply ok_sub0; set_solver).
  split_and!; [|done| |by intros ->].
  - split; unfold_M; cbn; try done.
    intros c Hc. apply ok_sub0. set_solver.
  - intros Hc. apply (Hdisj cn Hc). set_solver.
Qed.

Lemma isIdle_Ret cn p :
  cn ≠ nil_conn → ∃ b, connPool.isIdle cn p = Ret b p.
Proof.
  intros Hnil. unfold connPool.isIdle.
  case_decide; [|by eexists]. rewrite decide_False by done. by eexists.
Qed.

(** A dialed connection is new to the registry, and will not be dialed
    again. *)
Lemma pool_ok_dialed p m cn :
  pool_ok p m → dialer (env p) (dials p) = (cn, None) →
  cn ≠ nil_conn ∧ (cn ∉ m)
  ∧ ∀ q, env q = env p → dials q = S (dials p) → ¬ future q cn.
Proof.
  intros [] Hd.
  destruct (ok_fresh0 cn) as [? ?]; [by exists (dials p)|].
  split_and!; [done..|].
  intros q He Hq (k & Hk & Hdk). rewrite He in Hdk.
  assert (k = dials p) by (apply (ok_inj0 k (dials p) cn); [lia | lia | done..]).
  lia.
Qed.

Lemma replace_ok p m cn :
  pool_ok p m → cn ∈ m → cn ∉ s_cns (freeConns p) →
  wp (connPool.replace cn) p (λ r p',
    same_config p p' ∧ freeConns p' = freeConns p
    ∧ _closed p' = _closed p ∧ stats p' = stats p
    ∧ ∃ m', pool_ok p' m'
        ∧ match r with
          | (newcn, None) =>
              newcn ∈ m' ∧ (newcn ∉ s_cns (freeConns p'))
              ∧ l_size (conns p') = l_size (conns p)
          | (_, Some _) => l_size (conns p') = l_size (conns p) - 1
          end).
Proof.
  intros Hok Hin Hout.
  assert (cn ≠ nil_conn) as Hnil by (intros ->; by apply (ok_nil p m Hok)).
  pose proof (pool_ok_bounds p m Hok) as [Hb _].
  pose proof (ok_max32 p m Hok) as Hmax.
  assert (size (m ∖ {[cn]}) = pred (size m)) as Hsz.
  { rewrite size_difference by set_solver. rewrite size_singleton. lia. }
  assert (size m ≠ 0%nat) as Hsz0.
  { intros H0. apply size_empty_inv in H0. set_solver. }
  assert (∀ q, conns q = conns p → freeConns q = freeConns p →
               env q = env p → opt q = opt p → (dials p ≤ dials q)%nat →
               wp (connList.Remove cn) q (λ _ p',
                 same_config p p' ∧ freeConns p' = freeConns p
                 ∧ _closed p' = _closed q ∧ stats p' = stats q
                 ∧ pool_ok p' (m ∖ {[cn]})
                 ∧ l_size (conns p') = l_size (conns p) - 1)) as HRemove.
  { intros q Hc Hf He Ho Hd.
    pose proof (pool_ok_frame p q m Hok Hc Hf He Hd) as Hq.
    unfold wp. rewrite (Remove_member q cn m); [|by destruct Hq|done..].
    go0. rewrite Hc, Hf, He, Ho. rewrite AddInt32_small by lia.
    destruct Hq. rewrite Hc, Hf, He in *.
    split_and!; try done.
    split; cbn; try done; try lia.
    - set_solver.
    - intros c Hc'. apply elem_of_difference. split; [by apply ok_sub0|].
      set_solver.
    - intros c Hfu. destruct (ok_fresh0 c); [|set_solver].
      destruct Hfu as (k & ? & ?). exists k. cbn in *. by rewrite He. }
  unfold connPool.replace. apply wp_bind. unfold wp at 1.
  rewrite new_cases. destruct (rl_Limit _ _).
  - apply wp_bind. eapply wp_mono; [apply HRemove; go0; (done || lia)|].
    intros _ p' (? & ? & ? & ? & ? & ?). apply wp_ret. eauto 10.
  - destruct (dialer _ _) as [newcn [e|]] eqn:Hdial.
    + apply wp_bind. eapply wp_mono; [apply HRemove; go0; (done || lia)|].
      intros _ p' (? & ? & ? & ? & ? & ?). apply wp_ret. eauto 10.
    + destruct (pool_ok_dialed p m newcn Hok Hdial) as (Hn0 & Hnm & Hnf).
      apply wp_bind. unfold wp at 1.
      match goal with |- context [connList.Replace _ _ ?q] =>
        rewrite (Replace_member q cn newcn m); [|by destruct Hok..]
      end.
      apply wp_ret. go. destruct Hok.
      split_and!; try done.
      exists ({[newcn]} ∪ m ∖ {[cn]}). split_and!; [|set_solver|..|done].
      * split; unfold_M; cbn; try done.
        -- rewrite size_union by set_solver. rewrite size_singleton, Hsz. lia.
        -- set_solver.
        -- intros c Hc'. specialize (ok_sub0 c Hc'). set_solver.
        -- intros c Hfu.
           assert (future p c) as Hfp by (eapply future_mono; [..|done]; unfold_M; cbn; (done || lia)).
           destruct (ok_fresh0 c Hfp). split; [done|].
           assert (c ≠ newcn).
           { intros ->. by eapply Hnf; [| |exact Hfu]. }
           set_solver.
        -- intros k k' c Hk Hk'. apply ok_inj0; lia.
      * intros Hc'. apply Hnm. by apply ok_sub0.
Qed.

Lemma outstanding_popped p l cn :
  s_cns (freeConns p) = l ++ [cn] →
  outstanding (set_freeConns (λ s,
    {| s_cns := l; s_free := length l; s_free_cap := s_free_cap s |}) p)
  = outstanding p + 1.
Proof.
  intros Hl. unfold outstanding. unfold_M; cbn. rewrite Hl, length_app. cbn. lia.
Qed.

(** The loop of [First] under the invariant: it returns; if it returns nil
    the free list is empty, and otherwise the connection returned is held by
    the caller: one more connection is outstanding. *)
Lemma First_loop_ok fuel p m :
  pool_ok p m → (s_free (freeConns p) < fuel)%nat →
  wp (connPool.First_loop fuel) p (λ cn p',
    same_config p p' ∧ _closed p' = _closed p ∧ stats p' = stats p
    ∧ l_size (conns p') ≤ l_size (conns p)
    ∧ ∃ m', pool_ok p' m'
        ∧ if decide (cn = nil_conn)
          then s_cns (freeConns p') = [] ∧ outstanding p' = outstanding p
          else cn ∈ m' ∧ (cn ∉ s_cns (freeConns p'))
               ∧ outstanding p' = outstanding p + 1).
Proof.
  revert p m. induction fuel as [|fuel IH]; intros p m Hok Hfuel; [lia|].
  rewrite First_loop_S.
  destruct (Pop_ok p m Hok) as [[Hl HPop] | (l & cn & Hl & HPop)].
  - eapply wp_bind_Ret; [exact HPop|]. rewrite decide_True by done.
    unfold wp. sim. split_and!; try done; try lia.
    exists m. by rewrite decide_True.
  - eapply wp_bind_Ret; [exact HPop|].
    destruct (pool_ok_popped p m l cn Hok Hl) as (Hok1 & Hin & Hout & Hnil).
    pose proof (outstanding_popped p l cn Hl) as Hout1.
    set (p1 := set_freeConns _ p) in *.
    rewrite decide_False by done.
    destruct (isIdle_Ret cn p1 Hnil) as [[] HIdle];
      (eapply wp_bind_Ret; [exact HIdle|]).
    + apply wp_bind.
      eapply wp_mono; [by apply (replace_ok p1 m cn)|].
      intros [newcn [e|]] p2 (Hcfg & Hf2 & Hc2 & Hs2 & m2 & Hok2 & Hr).
      * apply wp_bind. unfold wp at 1. unfold Logger_Print. sim.
        eapply wp_mono.
        { apply (IH _ m2).
          - eapply pool_ok_frame; [exact Hok2|done..].
          - sim. rewrite Hf2. subst p1. sim.
            pose proof (ok_free p m Hok) as Hfr.
            rewrite Hl, length_app in Hfr. cbn in Hfr. lia. }
        intros cn' p3 (Hcfg3 & Hc3 & Hs3 & Hsz3 & m3 & Hok3 & Hpost).
        split_and!.
        -- eapply same_config_trans; [|exact Hcfg3].
           eapply same_config_trans; [|exact Hcfg]. done.
        -- by rewrite Hc3, Hc2.
        -- by rewrite Hs3, Hs2.
        -- subst p1. go0. lia.
        -- exists m3. split; [done|].
           assert (outstanding (set_Logger
                     (Logger p2 ++ ["pool.replace failed: " +:+ e]) p2)
                   = outstanding p) as Ho.
           { subst p1. unfold outstanding in *. go0. rewrite Hf2, Hr. cbn. lia. }
           destruct (decide (cn' = nil_conn)); by rewrite <- Ho.
      * apply wp_ret. destruct Hr as (Hin2 & Hout2 & Hsz2).
        split_and!; try done.
        -- subst p1. go0. lia.
        -- exists m2. split; [done|].
           rewrite decide_False.
           ++ split_and!; [done..|]. subst p1. unfold outstanding in *.
              go0. rewrite Hf2, Hsz2. cbn. lia.
           ++ intros ->. by apply (ok_nil p2 m2 Hok2).
    + apply wp_ret. split_and!; try done.
      exists m. split; [done|]. by rewrite decide_False.
Qed.

Lemma bind_ext {S A B} (m : M S A) (f g : A → M S B) s :
  (∀ a s', f a s' = g a s') → (m ≫= f) s = (m ≫= g) s.
Proof. intros H. unfold mbind, M_bind. by destruct (m s). Qed.

(** With nobody to send, the timed receive of [wait] is the receive of
    [First]: the two loops are one. *)
Lemma wait_loop_First_loop fuel p :
  connPool.wait_loop fuel p = connPool.First_loop fuel p.
Proof.
  revert p. induction fuel as [|fuel IH]; intros p; [done|].
  rewrite First_loop_S.
  change (connPool.wait_loop (S fuel) p) with
    ((cn ← connStack.Pop;
      idle ← (if decide (cn = nil_conn) then mret false
              else connPool.isIdle cn);
      if idle : bool then
        r ← connPool.replace cn;
        match r with
        | (_, Some err) =>
            Logger_Print ("pool.replace failed: " +:+ err) ;;
            connPool.wait_loop fuel
        | (newcn, None) => mret newcn
        end
      else mret cn) p).
  apply bind_ext. intros cn s1. apply bind_ext. intros [] s2; [|done].
  apply bind_ext. intros [newcn [e|]] s3; [|done].
  apply bind_ext. intros _ s4. apply IH.
Qed.

Lemma wait_First p : connPool.wait p = connPool.First p.
Proof. apply wait_loop_First_loop. Qed.

Lemma First_ok p m :
  pool_ok p m →
  wp connPool.First p (λ cn p',
    same_config p p' ∧ _closed p' = _closed p ∧ stats p' = stats p
    ∧ l_size (conns p') ≤ l_size (conns p)
    ∧ ∃ m', pool_ok p' m'
        ∧ if decide (cn = nil_conn)
          then s_cns (freeConns p') = [] ∧ outstanding p' = outstanding p
          else cn ∈ m' ∧ (cn ∉ s_cns (freeConns p'))
               ∧ outstanding p' = outstanding p + 1).
Proof. intros Hok. apply (First_loop_ok _ p m Hok). lia. Qed.

Lemma stats_frame_ok p q m :
  pool_ok p m → conns q = conns p → freeConns q = freeConns p →
  env q = env p → dials q = dials p → pool_ok q m.
Proof. intros. eapply pool_ok_frame; [done..|lia]. Qed.

(** [Get] keeps the invariant, and returns. *)
Lemma Get_ok p m :
  pool_ok p m →
  wp connPool.Get p (λ r p',
    same_config p p' ∧ _closed p' = _closed p ∧ ∃ m', pool_ok p' m').
Proof.
  intros Hok. unfold connPool.Get, connPool.closed.
  apply wp_bind, wp_gets. cbn beta.
  destruct (bool_decide (_closed p = 1)).
  { apply wp_ret. split_and!; [done..|]. by exists m. }
  apply wp_bind. unfold connPool.add_Requests. apply wp_modify. cbn beta.
  match goal with |- wp _ ?q _ => set (p0 := q) end.
  assert (pool_ok p0 m) as Hok0 by (by eapply stats_frame_ok).
  apply wp_bind. eapply wp_mono; [by apply (First_ok p0 m)|].
  intros cn p1 (Hcfg1 & Hc1 & _ & _ & m1 & Hok1 & _).
  case_decide.
  { apply wp_bind. unfold connPool.add_Hits. apply wp_modify, wp_ret.
    split_and!; [done..|]. exists m1. by eapply stats_frame_ok. }
  apply wp_bind. unfold wp at 1. rewrite Reserve_cases. cbn zeta.
  pose proof (pool_ok_bounds p1 m1 Hok1) as [Hb1 _].
  pose proof (ok_max32 p1 m1 Hok1) as Hmax1.
  rewrite AddInt32_small by lia.
  case_bool_decide as Hres.
  - (* reserved *)
    apply wp_bind. unfold wp at 1. rewrite new_cases. sim.
    destruct (rl_Limit _ _).
    + apply wp_bind. unfold wp at 1. rewrite Remove_nil. sim.
      rewrite AddInt32_small by lia. apply wp_ret.
      split_and!; [done..|]. exists m1. destruct Hok1.
      split; cbn; try done; try lia.
    + destruct (dialer _ _) as [newcn [e|]] eqn:Hdial.
      * apply wp_bind. unfold wp at 1. rewrite Remove_nil. sim.
        rewrite AddInt32_small by lia. apply wp_ret.
        split_and!; [done..|]. exists m1. destruct Hok1.
        split; cbn; try done; try lia.
        -- intros c (k & Hk & Hd). apply ok_fresh0. exists k. split; [cbn in Hk; lia|done].
        -- intros k k' c Hk Hk'. apply ok_inj0; cbn in *; lia.
      * destruct (pool_ok_dialed p1 m1 newcn Hok1 Hdial) as (Hn0 & Hnm & Hnf).
        apply wp_bind. unfold wp at 1. unfold connList.Add, connList.set_cns.
        sim. rewrite (ok_cns p1 m1 Hok1). sim. apply wp_ret.
        split_and!; [done..|]. exists ({[newcn]} ∪ m1). destruct Hok1.
        split; cbn; try done; try lia.
        -- rewrite size_union by set_solver. rewrite size_singleton. lia.
        -- set_solver.
        -- intros c Hc. specialize (ok_sub0 c Hc). set_solver.
        -- intros c Hfu.
           assert (future p1 c) as Hfp
             by (eapply future_mono; [..|exact Hfu]; cbn; (done || lia)).
           destruct (ok_fresh0 c Hfp). split; [done|].
           assert (c ≠ newcn) by (intros ->; by eapply Hnf; [| |exact Hfu]).
           set_solver.
        -- intros k k' c Hk Hk'. apply ok_inj0; cbn in *; lia.
  - (* the registry is full *)
    rewrite AddInt32_small by lia.
    replace (l_size (conns p1) + 1 + -1) with (l_size (conns p1)) by lia.
    apply wp_bind. unfold connPool.add_Waits. apply wp_modify. cbn beta.
    match goal with |- wp _ ?q _ => set (p2 := q) end.
    assert (pool_ok p2 m1) as Hok2.
    { destruct Hok1. split; cbn; done. }
    apply wp_bind. unfold wp at 1. rewrite wait_First.
    eapply wp_mono; [by apply (First_ok p2 m1)|].
    intros cn' p3 (Hcfg3 & Hc3 & _ & _ & m3 & Hok3 & _).
    assert (same_config p p3) as Hcfg.
    { eapply same_config_trans; [exact Hcfg1|].
      eapply same_config_trans; [|exact Hcfg3]. done. }
    case_decide; [apply wp_ret; split_and!; eauto; by rewrite Hc3|].
    apply wp_bind. unfold connPool.add_Timeouts. apply wp_modify, wp_ret.
    split_and!; [done|cbn; by rewrite Hc3|].
    exists m3. by eapply stats_frame_ok.
Qed.

Lemma Push_ok p m cn :
  pool_ok p m → cn ∈ m → cn ∉ s_cns (freeConns p) →
  wp (connStack.Push cn) p (λ _ p',
    same_config p p' ∧ _closed p' = _closed p ∧ stats p' = stats p
    ∧ pool_ok p' m).
Proof.
  intros Hok Hin Hout.
  pose proof (free_lt_size p m cn Hok Hin Hout) as Hlt.
  destruct Hok. unfold wp. rewrite Push_room by lia.
  split_and!; [done..|].
  split; cbn; try done.
  - rewrite length_app. cbn. lia.
  - apply NoDup_app. split_and!; [done| |apply NoDup_singleton].
    intros c Hc Hc'. apply list_elem_of_singleton in Hc' as ->. done.
  - intros c Hc. apply elem_of_app in Hc as [Hc|Hc]; [by apply ok_sub0|].
    by apply list_elem_of_singleton in Hc as ->.
Qed.

(** [Remove] of a connection that is checked out keeps the invariant. *)
Lemma Remove_ok p m cn reason :
  pool_ok p m → cn ∈ m → cn ∉ s_cns (freeConns p) →
  wp (connPool.Remove cn (Some reason)) p (λ _ p',
    same_config p p' ∧ _closed p' = _closed p ∧ stats p' = stats p
    ∧ ∃ m', pool_ok p' m').
Proof.
  intros Hok Hin Hout. unfold connPool.Remove, connPool.storeLastErr.
  apply wp_bind, wp_modify. cbn beta.
  match goal with |- wp _ ?q _ => set (p0 := q) end.
  assert (pool_ok p0 m) as Hok0 by (by eapply stats_frame_ok).
  apply wp_bind. eapply wp_mono; [by apply (replace_ok p0 m cn)|].
  intros [newcn [e|]] p1 (Hcfg & Hf1 & Hc1 & Hs1 & m1 & Hok1 & Hr).
  - apply wp_ret. split_and!; [done..|]. by exists m1.
  - destruct Hr as (Hin1 & Hout1 & _).
    apply wp_bind. eapply wp_mono; [by apply (Push_ok p1 m1 newcn)|].
    intros _ p2 (Hcfg2 & Hc2 & Hs2 & Hok2). apply wp_ret.
    split_and!.
    + eapply same_config_trans; [|exact Hcfg2]. done.
    + by rewrite Hc2, Hc1.
    + by rewrite Hs2, Hs1.
    + by exists m1.
Qed.

(** [Put] of a connection that is checked out keeps the invariant. *)
Lemma Put_ok p m cn :
  pool_ok p m → cn ∈ m → cn ∉ s_cns (freeConns p) →
  wp (connPool.Put cn) p (λ _ p',
    same_config p p' ∧ _closed p' = _closed p ∧ stats p' = stats p
    ∧ ∃ m', pool_ok p' m').
Proof.
  intros Hok Hin Hout.
  assert (cn ≠ nil_conn) as Hnil by (intros ->; by apply (ok_nil p m Hok)).
  unfold connPool.Put. rewrite decide_False by done.
  apply wp_bind, wp_gets. cbn beta. case_decide.
  - apply wp_bind, wp_gets. cbn beta.
    apply wp_bind. unfold Logger_Print. apply wp_modify. cbn beta.
    match goal with |- wp _ ?q _ => set (p0 := q) end.
    assert (pool_ok p0 m) as Hok0 by (by eapply stats_frame_ok).
    eapply wp_mono; [by apply (Remove_ok p0 m cn)|].
    intros r p1 (Hcfg & Hc1 & Hs1 & m1 & Hok1). split_and!; [done..|].
    by exists m1.
  - apply wp_bind. eapply wp_mono; [by apply (Push_ok p m cn)|].
    intros _ p1 (Hcfg & Hc1 & Hs1 & Hok1). apply wp_ret.
    split_and!; [done..|]. by exists m.
Qed.

(** A tick of the reaper keeps the invariant. *)
Lemma reaper_tick_ok p m :
  pool_ok p m →
  wp connPool.reaper_tick p (λ _ p',
    same_config p p' ∧ _closed p' = _closed p ∧ stats p' = stats p
    ∧ ∃ m', pool_ok p' m').
Proof.
  intros Hok. unfold connPool.reaper_tick, connPool.closed.
  apply wp_bind, wp_gets. cbn beta.
  destruct (bool_decide (_closed p = 1)).
  { apply wp_ret. split_and!; [done..|]. by exists m. }
  apply wp_bind. eapply wp_mono; [by apply (First_ok p m)|].
  intros cn p1 (Hcfg1 & Hc1 & Hs1 & _ & m1 & Hok1 & Hcn).
  apply wp_bind. destruct (decide (cn ≠ nil_conn)) as [Hnil|Hnil].
  - rewrite decide_False in Hcn by done. destruct Hcn as (Hin & Hout & _).
    apply wp_bind. eapply wp_mono; [by apply (Put_ok p1 m1 cn)|].
    intros _ p2 (Hcfg2 & Hc2 & Hs2 & m2 & Hok2). do 2 apply wp_ret.
    split_and!.
    + by eapply same_config_trans.
    + by rewrite Hc2.
    + by rewrite Hs2.
    + by exists m2.
  - do 2 apply wp_ret. split_and!; [done..|]. by exists m1.
Qed.

(** ** [Close] *)

Lemma Close_range_spec order : ∀ retErr p m,
  l_cns (conns p) = Some m → nil_conn ∉ order →
  connList.Close_range order retErr p =
    Ret (from_option Some retErr (last (close_errors (env p) order)))
        (set_closedConns (closedConns p ++ order)
           (set_conns (λ l,
              {| l_cns := Some (m ∖ list_to_set order);
                 l_size := l_size l; l_max := l_max l |}) p)).
Proof.
  induction order as [|cn order IH]; intros retErr p m Hm Hnil.
  - destruct p as [e o [cns sz mx] f st c le d r cc lg]. cbn in *.
    subst cns. unfold set_closedConns, set_conns. cbn.
    by rewrite app_nil_r, difference_empty_L.
  - assert (cn ≠ nil_conn) as Hcn by (intros ->; apply Hnil; left).
    assert (nil_conn ∉ order) as Hnil' by (intros ?; apply Hnil; by right).
    change (connList.Close_range (cn :: order) retErr) with
      (err ← cn_Close cn;
       let retErr := match err with Some e => Some e | None => retErr end in
       connList.delete cn ;;
       connList.Close_range order retErr).
    unfold cn_Close, connList.delete, connList.set_cns. sim.
    rewrite decide_False by done.
    sim. rewrite Hm. cbn.
    erewrite IH; [|done..]. cbn.
    f_equal.
    + unfold close_errors. cbn. destruct (conn_Close (env p) cn) as [e|]; [|done].
      cbn. rewrite last_cons. by destruct (last _).
    + unfold set_closedConns, set_conns. cbn. rewrite <- app_assoc. cbn.
      do 3 f_equal. set_solver.
Qed.

Lemma connList_Close_spec p m :
  l_cns (conns p) = Some m → nil_conn ∉ m →
  range_cns (env p) m ≡ₚ elements m →
  connList.Close p =
    Ret (last (close_errors (env p) (range_cns (env p) m)))
        (registry_closed (range_cns (env p) m) p).
Proof.
  intros Hm Hnil Hperm. unfold connList.Close, connList.set_cns. sim.
  rewrite Hm. erewrite Close_range_spec; [|done|].
  - cbn. by destruct (last _).
  - rewrite Hperm. by rewrite elem_of_elements.
Qed.

Lemma Close_drain_S fuel i :
  connPool.Close_drain (S fuel) i =
    (n ← connPool.Len;
     if decide (i < n) then
       cn ← connPool.wait;
       if decide (cn = nil_conn) then mret tt
       else connPool.Close_drain fuel (i + 1)
     else mret tt).
Proof. done. Qed.

(** The loop of [Close] stops, without waiting, as soon as [i] has reached
    the size of the registry. *)
Lemma Close_drain_bound fuel i p :
  l_size (conns p) ≤ i → connPool.Close_drain (S fuel) i p = Ret tt p.
Proof.
  intros Hi. rewrite Close_drain_S.
  unfold connPool.Len, connList.Len. sim. by rewrite decide_False by lia.
Qed.

(** Under the invariant the loop of [Close] returns, and empties the free
    list: when [i] connections have been received and [i] reaches the size
    of the registry, no registered connection is left in the free list. *)
Lemma Close_drain_ok fuel : ∀ i p m,
  pool_ok p m → (s_free (freeConns p) < fuel)%nat → i ≤ outstanding p →
  wp (connPool.Close_drain fuel i) p (λ _ p',
    same_config p p' ∧ _closed p' = _closed p ∧ stats p' = stats p
    ∧ ∃ m', pool_ok p' m' ∧ s_cns (freeConns p') = []).
Proof.
  induction fuel as [|fuel IH]; intros i p m Hok Hfuel Hi; [lia|].
  rewrite Close_drain_S. unfold connPool.Len, connList.Len.
  apply wp_bind, wp_gets. cbn beta.
  pose proof (ok_free p m Hok) as Hfree.
  case_decide as Hlt.
  - apply wp_bind. unfold wp at 1. rewrite wait_First.
    eapply wp_mono; [by apply (First_ok p m)|].
    intros cn p1 (Hcfg1 & Hc1 & Hs1 & Hsz1 & m1 & Hok1 & Hcn).
    destruct (decide (cn = nil_conn)) as [Hnil|Hnil].
    + apply wp_ret. split_and!; [done..|]. exists m1. by destruct Hcn.
    + destruct Hcn as (_ & _ & Hout1).
      pose proof (ok_free p1 m1 Hok1) as Hfree1.
      unfold outstanding in *.
      eapply wp_mono; [apply (IH (i + 1) p1 m1 Hok1); unfold outstanding; lia|].
      intros _ p2 (Hcfg2 & Hc2 & Hs2 & m2 & Hok2 & Hl2).
      split_and!.
      * by eapply same_config_trans.
      * by rewrite Hc2.
      * by rewrite Hs2.
      * by exists m2.
  - apply wp_ret. split_and!; [done..|]. exists m. split; [done|].
    unfold outstanding in Hi. apply length_zero_iff_nil. lia.
Qed.

(** ** C3: the counter of requests *)

Lemma Pop_stats p :
  wlp connStack.Pop p (λ cn p',
    stats p' = stats p
    ∧ (cn = nil_conn
       ∨ (s_free (freeConns p') < s_free (freeConns p))%nat)).
Proof.
  unfold wlp, connStack.Pop. destruct (s_free (freeConns p)) eqn:Hf.
  { split; [done|]. by left. }
  unfold connStack.receive_free, connStack.pop. sim.
  destruct (last _); [|done]. split; [done|]. right. cbn. lia.
Qed.

Lemma isIdle_stats cn p :
  wlp (connPool.isIdle cn) p (λ _ p', p' = p).
Proof.
  unfold wlp, connPool.isIdle. case_decide; [|done]. by case_decide.
Qed.

(** The loop of [First], from any state: the bound on its turns is never
    reached; the counters are left alone; and a connection is returned only
    after a token has been received. *)
Lemma First_loop_stats fuel : ∀ p,
  (s_free (freeConns p) < fuel)%nat →
  wlp (connPool.First_loop fuel) p (λ cn p',
    stats p' = stats p
    ∧ (cn = nil_conn
       ∨ (s_free (freeConns p') < s_free (freeConns p))%nat)).
Proof.
  induction fuel as [|fuel IH]; intros p Hfuel; [lia|].
  rewrite First_loop_S.
  apply wlp_bind. eapply wlp_mono; [apply Pop_stats|].
  intros cn p1 [Hs1 Hf1]. apply wlp_bind.
  destruct (decide (cn = nil_conn)) as [Hnil|Hnil].
  { apply wlp_ret, wlp_ret. split; [done|]. by left. }
  destruct Hf1 as [?|Hf1]; [done|].
  eapply wlp_mono; [apply isIdle_stats|].
  intros [] p2 ->; [|apply wlp_ret; split; [done|by right]].
  apply wlp_bind. eapply wlp_mono; [apply replace_frame|].
  intros [newcn [e|]] p3 (Hf3 & Hs3 & _).
  - apply wlp_bind. unfold Logger_Print. apply wlp_modify.
    eapply wlp_mono; [apply IH; cbn; rewrite Hf3; lia|].
    intros cn' p4 [Hs4 Hf4]. cbn in Hs4, Hf4. split; [congruence|].
    destruct Hf4 as [?|Hf4]; [by left|]. right. rewrite Hf3 in Hf4. lia.
  - apply wlp_ret. split; [congruence|]. right. rewrite Hf3. lia.
Qed.

Lemma First_stats p :
  wlp connPool.First p (λ cn p',
    stats p' = stats p
    ∧ (cn = nil_conn
       ∨ (s_free (freeConns p') < s_free (freeConns p))%nat)).
Proof. apply First_loop_stats. lia. Qed.

Lemma Add_stats cn p : wlp (connList.Add cn) p (λ _ p', stats p' = stats p).
Proof.
  unfold wlp, connList.Add, connList.set_cns. sim.
  by destruct (l_cns (conns p)).
Qed.

Lemma Get_Requests_wlp p :
  _closed p ≠ 1 →
  wlp connPool.Get p (λ _ p',
    Requests (stats p') = AddUint32 (Requests (stats p)) 1).
Proof.
  intros Hc. unfold connPool.Get, connPool.closed.
  apply wlp_bind, wlp_gets. cbn beta.
  rewrite bool_decide_eq_false_2 by done.
  apply wlp_bind. unfold connPool.add_Requests. apply wlp_modify. cbn beta.
  match goal with |- wlp _ ?q _ => set (p0 := q) end.
  apply wlp_bind. eapply wlp_mono; [apply First_stats|].
  intros cn p1 [Hs1 _]. case_decide.
  { apply wlp_bind. unfold connPool.add_Hits. apply wlp_modify, wlp_ret.
    cbn. by rewrite Hs1. }
  apply wlp_bind. unfold wlp at 1. rewrite Reserve_cases. cbn zeta.
  case_bool_decide.
  - apply wlp_bind. unfold wlp at 1. rewrite new_cases.
    destruct (rl_Limit _ _).
    { apply wlp_bind. unfold wlp at 1. rewrite Remove_nil. apply wlp_ret.
      cbn. by rewrite Hs1. }
    destruct (dialer _ _) as [newcn [e|]].
    { apply wlp_bind. unfold wlp at 1. rewrite Remove_nil. apply wlp_ret.
      cbn. by rewrite Hs1. }
    apply wlp_bind. eapply wlp_mono; [apply Add_stats|].
    intros ? p2 Hs2. apply wlp_ret. rewrite Hs2. cbn. by rewrite Hs1.
  - apply wlp_bind. unfold connPool.add_Waits. apply wlp_modify. cbn beta.
    apply wlp_bind. unfold wlp at 1. rewrite wait_First.
    eapply wlp_mono; [apply First_stats|].
    intros cn' p3 [Hs3 _]. cbn in Hs3. case_decide.
    + apply wlp_ret. rewrite Hs3. cbn. by rewrite Hs1.
    + apply wlp_bind. unfold connPool.add_Timeouts.
      apply wlp_modify, wlp_ret. cbn. rewrite Hs3. cbn. by rewrite Hs1.
Qed.

(** C3 (as the code has it).  A [Get] on a closed pool returns [errClosed]
    and leaves the pool, its counters included, as it was.  A [Get] on a pool
    that is not closed adds one (modulo 2^32) to [Requests], as [Stats()]
    shows it, whatever it returns: a connection, a dial error or
    [errPoolTimeout]; and under the invariant of the pool it does return.
    From no state does [Get] reach the bound put on its loops. *)
Theorem Get_counts_Requests (p : connPool) :
  (_closed p = 1 →
   connPool.Get p = Ret (nil_conn, false, Some errClosed) p)
  ∧ (_closed p ≠ 1 → ∀ r p', connPool.Get p = Ret r p' →
     ∃ st st', connPool.Stats p = Ret st p ∧ connPool.Stats p' = Ret st' p'
       ∧ Requests st' = AddUint32 (Requests st) 1)
  ∧ (_closed p ≠ 1 → ∀ m, pool_ok p m →
     ∃ r p', connPool.Get p = Ret r p')
  ∧ connPool.Get p ≠ OutOfFuel.
Proof.
  assert (_closed p = 1 →
          connPool.Get p = Ret (nil_conn, false, Some errClosed) p) as Hcl.
  { intros Hc. unfold connPool.Get, connPool.closed. sim.
    by rewrite bool_decide_eq_true_2. }
  split_and!.
  - done.
  - intros Hc r p' HGet.
    pose proof (wlp_Ret _ _ _ _ _ (Get_Requests_wlp p Hc) HGet) as HR.
    eexists _, _. split_and!; [done..|]. exact HR.
  - intros Hc m Hok. pose proof (Get_ok p m Hok) as HG.
    apply wp_Ret in HG as (r & p' & HG & _). eauto.
  - destruct (decide (_closed p = 1)) as [Hc|Hc].
    + by rewrite Hcl.
    + exact (wlp_fuel _ _ _ (Get_Requests_wlp p Hc)).
Qed.

Lemma Get_counts_Requests_witness :
  let p := newConnPool env_down (opt_size 2) in
  ∃ st st' p', connPool.Get p
               = Ret (nil_conn, true, Some "dial tcp: connection refused") p'
    ∧ connPool.Stats p = Ret st p ∧ connPool.Stats p' = Ret st' p'
    ∧ Requests st = 0 ∧ Requests st' = 1.
Proof.
  intros p.
  destruct (Get_counts_Requests p) as (_ & H & _ & _).
  assert (∃ p', connPool.Get p
                = Ret (nil_conn, true, Some "dial tcp: connection refused") p')
    as [p' HG] by (eexists; by vm_compute).
  destruct (H ltac:(done) _ _ HG) as (st & st' & Hs & Hs' & HR).
  exists st, st', p'. split_and!; [done..| |].
  - by injection Hs as <-.
  - rewrite HR. by injection Hs as <-.
Defined.

(** C3 as stated fails on a closed pool: [Get] returns [errClosed] before
    it counts the request, and [Requests] stays at 0. *)
Lemma Get_closed_not_counted :
  let p := after connPool.Close (newConnPool env_up (opt_size 2)) in
  connPool.Close (newConnPool env_up (opt_size 2)) = Ret None p
  ∧ _closed p = 1
  ∧ ∃ st, connPool.Get p = Ret (nil_conn, false, Some errClosed) p
    ∧ connPool.Stats p = Ret st p
    ∧ Requests st = 0 ∧ Requests st ≠ AddUint32 0 1.
Proof.
  intros p. split_and!; [by vm_compute | done |].
  eexists. by split_and!; vm_compute.
Qed.

(** A pool just made, over a dialer that yields the connections 1, 2, ...,
    satisfies the invariant. *)
Lemma pool_ok_new (e : Env) (n : Z) :
  (∀ k, dialer e k = (N.of_nat (S k), None)) →
  (∀ m, range_cns e m = elements m) →
  0 ≤ n < 2 ^ 31 - 1 →
  pool_ok (newConnPool e (opt_size n)) ∅.
Proof.
  intros Hd Hr Hn. split; cbn; try done.
  - rewrite int32_small; lia.
  - rewrite int32_small; lia.
  - apply NoDup_nil_2.
  - intros cn Hcn. by apply elem_of_nil in Hcn.
  - rewrite int32_small; lia.
  - intros cn (k & _ & Hk). cbn in Hk. rewrite Hd in Hk.
    injection Hk as <-. split; [|set_solver]. unfold nil_conn. lia.
  - intros k k' cn _ _. rewrite !Hd. intros [= <-] [= Heq]. lia.
  - intros m. by rewrite Hr.
Qed.

(** ** C7: [Close] *)

Lemma Close_range_fuel order : ∀ retErr p,
  wlp (connList.Close_range order retErr) p (λ _ _, True).
Proof.
  induction order as [|cn order IH]; intros retErr p; [done|].
  change (connList.Close_range (cn :: order) retErr) with
    (err ← cn_Close cn;
     let retErr := match err with Some e => Some e | None => retErr end in
     connList.delete cn ;;
     connList.Close_range order retErr).
  apply wlp_bind. unfold wlp at 1, cn_Close. case_decide; [done|].
  cbn zeta. apply wlp_bind. unfold wlp at 1, connList.delete,
    connList.set_cns. sim.
  destruct (l_cns (conns p)); apply IH.
Qed.

Lemma connList_Close_fuel p : wlp connList.Close p (λ _ _, True).
Proof.
  unfold connList.Close. apply wlp_bind, wlp_gets. cbn beta.
  apply wlp_bind, wlp_gets. cbn beta.
  apply wlp_bind. eapply wlp_mono; [apply Close_range_fuel|].
  intros retErr p1 _. by sim.
Qed.

Lemma Close_drain_fuel fuel : ∀ i p,
  (s_free (freeConns p) < fuel)%nat →
  wlp (connPool.Close_drain fuel i) p (λ _ _, True).
Proof.
  induction fuel as [|fuel IH]; intros i p Hfuel; [lia|].
  rewrite Close_drain_S. unfold connPool.Len, connList.Len.
  apply wlp_bind, wlp_gets. cbn beta. case_decide; [|done].
  apply wlp_bind. unfold wlp at 1. rewrite wait_First.
  eapply wlp_mono; [apply First_stats|].
  intros cn p1 [_ Hf]. case_decide; [done|].
  destruct Hf as [?|Hf]; [done|]. apply IH. lia.
Qed.

(** From no state does [Close] reach the bound put on its loops. *)
Lemma Close_fuel p : connPool.Close p ≠ OutOfFuel.
Proof.
  apply (wlp_fuel _ _ (λ _ _, True)). unfold connPool.Close.
  apply wlp_bind, wlp_gets. cbn beta. case_decide; [|done].
  apply wlp_bind, wlp_modify. cbn beta.
  apply wlp_bind. eapply wlp_mono; [apply Close_drain_fuel; cbn; lia|].
  intros _ p1 _. apply connList_Close_fuel.
Qed.

Lemma Close_closed p :
  _closed p ≠ 0 → connPool.Close p = Ret (Some errClosed) p.
Proof. intros Hc. unfold connPool.Close. sim. by rewrite decide_False. Qed.

(** The first [Close] of a pool that satisfies the invariant. *)
Lemma Close_first p m :
  _closed p = 0 → pool_ok p m →
  ∃ p1 m1,
    connPool.Close_drain (S (s_free (freeConns p))) 0 (set_closed 1 p)
    = Ret tt p1
    ∧ pool_ok p1 m1 ∧ same_config p p1 ∧ _closed p1 = 1
    ∧ s_cns (freeConns p1) = []
    ∧ connPool.Close p
      = Ret (last (close_errors (env p) (range_cns (env p) m1)))
            (registry_closed (range_cns (env p) m1) p1).
Proof.
  intros Hc Hok.
  set (p0 := set_closed 1 p).
  assert (pool_ok p0 m) as Hok0 by (by eapply stats_frame_ok).
  pose proof (pool_ok_bounds p0 m Hok0) as [_ Hb].
  pose proof (ok_free p0 m Hok0) as Hfree.
  destruct (proj1 (wp_Ret _ _ _)
              (Close_drain_ok (S (s_free (freeConns p))) 0 p0 m Hok0
                 ltac:(cbn; lia) ltac:(unfold outstanding; lia)))
    as ([] & p1 & Hdrain & Hcfg & Hc1 & _ & m1 & Hok1 & Hl1).
  exists p1, m1. split_and!; [done..|].
  destruct Hcfg as (He & _). change (env p0) with (env p) in He.
  rewrite <- He. unfold connPool.Close.
  rewrite (bind_Ret _ _ p (_closed p) p) by done.
  rewrite decide_True by done.
  rewrite (bind_Ret _ _ p tt p0) by done.
  rewrite (bind_Ret _ _ p0 tt p1) by done.
  apply connList_Close_spec; destruct Hok1; done.
Qed.

(** C7 (as the code has it).  [Close] is one-shot: on a pool whose flag is
    set it returns [errClosed] and changes nothing.  The loop of the first
    [Close] stops as soon as its counter reaches the size of the registry.
    On a pool that is open and satisfies the invariant, the first [Close]
    sets the flag, drains the free list (to [p1], where it is empty), then
    closes every connection [order] still registered, one call of
    [cn.Close()] each whatever the calls before returned, empties the
    registry, and returns the error of the last call that failed (nil if none
    did); a [Close] after that returns [errClosed].  From no state does
    [Close] reach the bound put on its loops. *)
Theorem Close_one_shot (p : connPool) :
  (_closed p ≠ 0 → connPool.Close p = Ret (Some errClosed) p)
  ∧ (∀ fuel i q, l_size (conns q) ≤ i →
     connPool.Close_drain (S fuel) i q = Ret tt q)
  ∧ (∀ m, _closed p = 0 → pool_ok p m →
     ∃ p1 m1,
       connPool.Close_drain (S (s_free (freeConns p))) 0 (set_closed 1 p)
       = Ret tt p1
       ∧ l_cns (conns p1) = Some m1
       ∧ s_cns (freeConns p1) = []
       ∧ let order := range_cns (env p) m1 in
         let p' := registry_closed order p1 in
         order ≡ₚ elements m1
         ∧ connPool.Close p = Ret (last (close_errors (env p) order)) p'
         ∧ closedConns p' = closedConns p1 ++ order
         ∧ l_cns (conns p') = None
         ∧ l_size (conns p') = 0
         ∧ _closed p' = 1
         ∧ connPool.Close p' = Ret (Some errClosed) p')
  ∧ connPool.Close p ≠ OutOfFuel.
Proof.
  split_and!; [apply Close_closed | apply Close_drain_bound | |
               apply Close_fuel].
  intros m Hc Hok.
  destruct (Close_first p m Hc Hok)
    as (p1 & m1 & Hd & Hok1 & (He & _) & Hc1 & Hl1 & HC).
  exists p1, m1. split_and!; [done | by destruct Hok1 | done |].
  cbn zeta. split_and!; try done.
  - rewrite <- He. apply (ok_range p1 m1 Hok1).
  - apply Close_closed. cbn. by rewrite Hc1.
Qed.

Lemma Close_one_shot_witness :
  let p := newConnPool env_up (opt_size 2) in
  ∃ p', connPool.Close p = Ret None p'
    ∧ l_cns (conns p') = None
    ∧ _closed p' = 1
    ∧ connPool.Close p' = Ret (Some errClosed) p'.
Proof.
  intros p.
  destruct (Close_one_shot p) as (_ & _ & H & _).
  destruct (H ∅) as (p1 & m1 & Hd & Hm & _ & _ & HC & _ & Hn & _ & Hc & HC');
    [done | by apply pool_ok_new |].
  assert (Ret (S := connPool) tt p1 = Ret tt (set_closed 1 p)) as [= ->]
    by (rewrite <- Hd; by vm_compute).
  assert (m1 = ∅) as -> by (cbn in Hm; congruence).
  eexists. split_and!; [exact HC | done..].
Defined.

(** C7 as stated fails: with two registered connections that both fail to
    close, the connection closed first is 1, so the first close error
    encountered is that of 1; [Close] returns that of 2. *)
Lemma Close_returns_last_error :
  let p := after connPool.Get (after connPool.Get
             (newConnPool env_close_fails (opt_size 2))) in
  l_cns (conns p) = Some {[1%N; 2%N]}
  ∧ s_cns (freeConns p) = []
  ∧ ∃ p', connPool.Close p = Ret (Some "close 2: broken pipe") p'
    ∧ closedConns p' = [1%N; 2%N]
    ∧ close_errors (env p) (closedConns p')
      = ["close 1: broken pipe"; "close 2: broken pipe"]
    ∧ head (close_errors (env p) (closedConns p'))
      ≠ Some "close 2: broken pipe".
Proof.
  intros p. split_and!; [by vm_compute | by vm_compute |].
  eexists. by split_and!; vm_compute.
Qed.

(** ** C5: the bounds on [Len] and [FreeLen] *)

Lemma pool_ok_bounded p m : pool_ok p m → bounded p.
Proof. apply pool_ok_Len. Qed.

Lemma pool_ok_set_env p m e :
  pool_ok p m →
  (∀ k, dialer e k = dialer (env p) k) →
  (∀ m, range_cns e m = range_cns (env p) m) →
  pool_ok (set_env e p) m.
Proof.
  intros [] Hd Hr. split; cbn; try done.
  - intros cn (k & Hk & Hdk). cbn in *. rewrite Hd in Hdk.
    apply ok_fresh0. by exists k.
  - intros k k' cn Hk Hk'. rewrite !Hd. by apply ok_inj0.
  - intros m'. by rewrite Hr.
Qed.

Lemma checked_out_ok p m cn :
  pool_ok p m → checked_out p cn → cn ∈ m ∧ cn ∉ s_cns (freeConns p).
Proof.
  intros Hok [(m' & Hm' & Hin) Hout]. rewrite (ok_cns p m Hok) in Hm'.
  by injection Hm' as <-.
Qed.

(** Every step keeps the invariant and the capacity. *)
Lemma pool_step_ok p p' m :
  pool_ok p m → pool_step p p' →
  l_max (conns p') = l_max (conns p) ∧ ∃ m', pool_ok p' m'.
Proof.
  intros Hok Hstep. destruct Hstep as
    [p r p' HG | p cn r p' Hco HP | p cn reason r p' Hco HR | p r p' HT
    | p e Hd Hr].
  - destruct (proj1 (wp_Ret _ _ _) (Get_ok p m Hok))
      as (a & s' & Heq & (_ & _ & Hmax & _) & _ & Hm).
    rewrite HG in Heq. injection Heq as <- <-. done.
  - destruct (checked_out_ok p m cn Hok Hco) as [Hin Hout].
    destruct (proj1 (wp_Ret _ _ _) (Put_ok p m cn Hok Hin Hout))
      as (a & s' & Heq & (_ & _ & Hmax & _) & _ & _ & Hm).
    rewrite HP in Heq. injection Heq as <- <-. done.
  - destruct (checked_out_ok p m cn Hok Hco) as [Hin Hout].
    destruct (proj1 (wp_Ret _ _ _) (Remove_ok p m cn reason Hok Hin Hout))
      as (a & s' & Heq & (_ & _ & Hmax & _) & _ & _ & Hm).
    rewrite HR in Heq. injection Heq as <- <-. done.
  - destruct (proj1 (wp_Ret _ _ _) (reaper_tick_ok p m Hok))
      as (a & s' & Heq & (_ & _ & Hmax & _) & _ & _ & Hm).
    rewrite HT in Heq. injection Heq as <- <-. done.
  - split; [done|]. exists m. by apply pool_ok_set_env.
Qed.

Lemma pool_steps_ok p p' m :
  pool_ok p m → rtc pool_step p p' →
  l_max (conns p') = l_max (conns p) ∧ ∃ m', pool_ok p' m'.
Proof.
  intros Hok Hsteps. revert m Hok.
  induction Hsteps as [p|p q p' Hstep _ IH]; intros m Hok.
  - split; [done|]. by exists m.
  - destruct (pool_step_ok p q m Hok Hstep) as (Hmax & m1 & Hok1).
    destruct (IH m1 Hok1) as (Hmax' & Hm'). split; [congruence|done].
Qed.

(** C5 (as the code has it).  For every pool of capacity [l_max] that
    satisfies the invariant of a pool in use -- its registry is open, and its
    collaborators behave -- [Len() <= max] and [FreeLen() <= Len()] hold;
    [Reserve] at capacity fails and rolls its increment back; [Get], [Put]
    and [Remove] of a connection that is checked out, and a tick of the
    reaper, return and leave a pool that satisfies the invariant again, with
    the same capacity; so the two inequalities hold after any number of such
    steps.  [Close] returns too, and leaves both [Len()] and [FreeLen()]
    within the bounds (the first [Close] leaves them 0). *)
Theorem pool_invariant (p : connPool) (m : gset conn) :
  pool_ok p m →
  bounded p
  ∧ (l_size (conns p) = l_max (conns p) →
     ∃ p', connList.Reserve p = Ret false p' ∧ conns p' = conns p)
  ∧ (∃ r p', connPool.Get p = Ret r p'
       ∧ l_max (conns p') = l_max (conns p)
       ∧ bounded p' ∧ ∃ m', pool_ok p' m')
  ∧ (∀ cn, checked_out p cn →
     ∃ r p', connPool.Put cn p = Ret r p'
       ∧ l_max (conns p') = l_max (conns p)
       ∧ bounded p' ∧ ∃ m', pool_ok p' m')
  ∧ (∀ cn reason, checked_out p cn →
     ∃ r p', connPool.Remove cn (Some reason) p = Ret r p'
       ∧ l_max (conns p') = l_max (conns p)
       ∧ bounded p' ∧ ∃ m', pool_ok p' m')
  ∧ (∃ r p', connPool.reaper_tick p = Ret r p'
       ∧ l_max (conns p') = l_max (conns p)
       ∧ bounded p' ∧ ∃ m', pool_ok p' m')
  ∧ (∀ p', rtc pool_step p p' →
     l_max (conns p') = l_max (conns p)
     ∧ bounded p' ∧ ∃ m', pool_ok p' m')
  ∧ (∃ r p', connPool.Close p = Ret r p'
       ∧ l_max (conns p') = l_max (conns p)
       ∧ bounded p').
Proof.
  intros Hok.
  split_and!.
  - by eapply pool_ok_bounded.
  - intros Hfull. rewrite Reserve_cases. cbn zeta.
    pose proof (pool_ok_bounds p m Hok) as [Hb _].
    pose proof (ok_max32 p m Hok) as Hmax.
    rewrite AddInt32_small by lia.
    rewrite bool_decide_eq_false_2 by lia.
    rewrite AddInt32_small by lia.
    eexists. split; [done|]. unfold set_conns. cbn.
    destruct (conns p). cbn. f_equal. lia.
  - destruct (proj1 (wp_Ret _ _ _) (Get_ok p m Hok))
      as (r & p' & HG & (_ & _ & Hmax & _) & _ & m' & Hok').
    exists r, p'. split_and!; [done..| |by exists m'].
    by eapply pool_ok_bounded.
  - intros cn [Hin Hout]%(checked_out_ok p m cn Hok).
    destruct (proj1 (wp_Ret _ _ _) (Put_ok p m cn Hok Hin Hout))
      as (r & p' & HG & (_ & _ & Hmax & _) & _ & _ & m' & Hok').
    exists r, p'. split_and!; [done..| |by exists m'].
    by eapply pool_ok_bounded.
  - intros cn reason [Hin Hout]%(checked_out_ok p m cn Hok).
    destruct (proj1 (wp_Ret _ _ _) (Remove_ok p m cn reason Hok Hin Hout))
      as (r & p' & HG & (_ & _ & Hmax & _) & _ & _ & m' & Hok').
    exists r, p'. split_and!; [done..| |by exists m'].
    by eapply pool_ok_bounded.
  - destruct (proj1 (wp_Ret _ _ _) (reaper_tick_ok p m Hok))
      as (r & p' & HG & (_ & _ & Hmax & _) & _ & _ & m' & Hok').
    exists r, p'. split_and!; [done..| |by exists m'].
    by eapply pool_ok_bounded.
  - intros p' Hsteps.
    destruct (pool_steps_ok p p' m Hok Hsteps) as (Hmax & m' & Hok').
    split_and!; [done| |by exists m']. by eapply pool_ok_bounded.
  - destruct (decide (_closed p = 0)) as [Hc|Hc].
    + destruct (Close_first p m Hc Hok)
        as (p1 & m1 & _ & Hok1 & (_ & _ & Hmax & _) & _ & Hl1 & HC).
      eexists _, _. split; [exact HC|].
      pose proof (pool_ok_bounds p1 m1 Hok1) as [Hb _].
      pose proof (ok_free p1 m1 Hok1) as Hfr. rewrite Hl1 in Hfr.
      split; [done|].
      exists 0, 0. unfold connPool.Len, connPool.FreeLen, connList.Len,
        connStack.Len, registry_closed. sim. rewrite Hfr. cbn.
      split_and!; [done..|lia|done].
    + exists (Some errClosed), p. split_and!; [by apply Close_closed | done |].
      by eapply pool_ok_bounded.
Qed.

Lemma pool_invariant_witness :
  let p := newConnPool env_up (opt_size 2) in
  let p1 := after connPool.Get p in
  let p2 := after (connPool.Put 1%N) p1 in
  connPool.Get p = Ret (1%N, true, None) p1
  ∧ connPool.Put 1%N p1 = Ret None p2
  ∧ bounded p ∧ bounded p1 ∧ bounded p2.
Proof.
  intros p p1 p2.
  assert (connPool.Get p = Ret (1%N, true, None) p1) as HG by (by vm_compute).
  assert (connPool.Put 1%N p1 = Ret None p2) as HP by (by vm_compute).
  assert (checked_out p1 1%N) as Hco.
  { split; [|by apply not_elem_of_nil]. exists {[1%N]}.
    split; [by vm_compute|set_solver]. }
  destruct (pool_invariant p ∅) as (Hb & _ & _ & _ & _ & _ & Hsteps & _).
  { by apply pool_ok_new. }
  split_and!; [done..| |].
  - apply Hsteps. eapply rtc_once, step_Get, HG.
  - apply Hsteps. eapply rtc_l; [eapply step_Get, HG|].
    eapply rtc_once, step_Put; [exact Hco|exact HP].
Defined.

(** C5 as stated fails in two places.  Inside [Reserve] on a full pool, the
    size is incremented first and rolled back after the comparison: between
    the two, [Len()] is [max + 1].  And after [Close]: a pool of capacity 1
    hands its one connection to a caller and is then closed; the registry is
    emptied, and both lengths are 0.  The caller, as it must, returns the
    connection: [Put] pushes it onto the free list, and [FreeLen()] is 1
    while [Len()] is 0. *)
Lemma Put_after_Close_exceeds_Len :
  let p1 := after connPool.Get (newConnPool env_up (opt_size 1)) in
  let p2 := after connPool.Close p1 in
  connPool.Get (newConnPool env_up (opt_size 1)) = Ret (1%N, true, None) p1
  ∧ (∃ q, connList.add_size 1 p1 = Ret 2 q
        ∧ connPool.Len q = Ret 2 q ∧ l_max (conns q) = 1
        ∧ ¬ bounded q
        ∧ connList.Reserve p1 = Ret false (after (connList.add_size (-1)) q))
  ∧ connPool.Close p1 = Ret None p2
  ∧ bounded p2
  ∧ ∃ p3, connPool.Put 1%N p2 = Ret None p3
      ∧ connPool.Len p3 = Ret 0 p3
      ∧ connPool.FreeLen p3 = Ret 1 p3
      ∧ ¬ bounded p3.
Proof.
  intros p1 p2. split_and!; [by vm_compute | | by vm_compute | |].
  - eexists. split_and!; [by vm_compute | by vm_compute | by vm_compute | |
                          by vm_compute].
    intros (n & f & Hn & _ & Hle & _).
    vm_compute in Hn. injection Hn as <-. vm_compute in Hle. by apply Hle.
  - exists 0, 0. by split_and!; vm_compute.
  - eexists. split_and!; [by vm_compute | by vm_compute | by vm_compute |].
    intros (n & f & Hn & Hf & _ & Hle).
    vm_compute in Hn. vm_compute in Hf.
    injection Hn as <-. injection Hf as <-. lia.
Qed.

(** ** C8: the master of a slot *)

Lemma foldl_insert_lookup {A} (v : A) (l : list nat) : ∀ (sl : list A) (s : nat),
  (s < length sl)%nat →
  foldl (λ sl i, <[i := v]> sl) sl l !! s
  = if decide (s ∈ l) then Some v else sl !! s.
Proof.
  induction l as [|i l IH]; intros sl s Hs; cbn.
  - rewrite decide_False; [done|]. apply not_elem_of_nil.
  - rewrite IH by (by rewrite length_insert).
    destruct (decide (s ∈ l)) as [Hin|Hin].
    + rewrite decide_True; [done|]. by right.
    + destruct (decide (s = i)) as [->|Hne].
      * rewrite decide_True by left. by apply list_lookup_insert_eq.
      * rewrite decide_False.
        -- by apply list_lookup_insert_ne.
        -- intros [?|?]%elem_of_cons; done.
Qed.

Lemma foldl_insert_length {A} (v : A) (l : list nat) : ∀ (sl : list A),
  length (foldl (λ sl i, <[i := v]> sl) sl l) = length sl.
Proof.
  induction l as [|i l IH]; intros sl; cbn; [done|].
  by rewrite IH, length_insert.
Qed.

Lemma assign_range_lookup info sl s :
  (N.to_nat s < length sl)%nat →
  ClusterClient.assign_range info sl !! N.to_nat s
  = if decide (in_range info s) then Some (slot_Addrs info)
    else sl !! N.to_nat s.
Proof.
  intros Hs. unfold ClusterClient.assign_range.
  rewrite foldl_insert_lookup by done.
  destruct (decide (in_range info s)) as [Hr|Hr].
  - rewrite decide_True; [done|]. apply elem_of_seq. unfold in_range in Hr. lia.
  - rewrite decide_False; [done|]. rewrite elem_of_seq. unfold in_range in Hr. lia.
Qed.

Lemma update_snoc infos info c :
  ClusterClient.update (infos ++ [info]) c =
    let c' := ClusterClient.update infos c in
    {| seed_addrs := seed_addrs c';
       addrs := list_to_set (slot_Addrs info) ∪ addrs c';
       slots := ClusterClient.assign_range info (slots c');
       _reload := _reload c' |}.
Proof. unfold ClusterClient.update. by rewrite foldl_snoc. Qed.

Lemma update_slots_length infos c :
  length (slots (ClusterClient.update infos c)) = length (slots c).
Proof.
  induction infos as [|info infos IH] using rev_ind; [done|].
  rewrite update_snoc. cbn. unfold ClusterClient.assign_range.
  by rewrite foldl_insert_length.
Qed.

Lemma non_overlapping_app infos info :
  non_overlapping (infos ++ [info]) → non_overlapping infos.
Proof.
  intros H i j a b s Ha Hb. apply H; by apply lookup_app_l_Some.
Qed.

(** After [update], a slot holds the addresses of the descriptor that it
    lies within. *)
Lemma update_slots_lookup infos : ∀ c info s,
  non_overlapping infos → info ∈ infos → in_range info s →
  (N.to_nat s < length (slots c))%nat →
  slots (ClusterClient.update infos c) !! N.to_nat s = Some (slot_Addrs info).
Proof.
  induction infos as [|x infos IH] using rev_ind; intros c info s Hno Hin Hr Hs.
  - by apply elem_of_nil in Hin.
  - rewrite update_snoc. cbn.
    rewrite assign_range_lookup by (by rewrite update_slots_length).
    destruct (decide (in_range x s)) as [Hx|Hx].
    + apply elem_of_app in Hin as [Hin|Hin].
      * apply list_elem_of_lookup in Hin as [i Hi].
        pose proof (lookup_lt_Some _ _ _ Hi) as Hlt.
        assert (i = length infos); [|lia].
        apply (Hno i (length infos) info x s); [|by apply list_lookup_middle|done..].
        by apply lookup_app_l_Some.
      * by apply list_elem_of_singleton in Hin as ->.
    + apply elem_of_app in Hin as [Hin|Hin].
      * apply IH; [by eapply non_overlapping_app|done..].
      * apply list_elem_of_singleton in Hin as ->. done.
Qed.

(** C8.  In a routing table whose SlotMap has its [HashSlots] entries, every
    slot below [HashSlots] has an entry, and [GetMasterAddrBySlot] returns
    the first address of the entry, or the empty string when the entry is
    empty.  After [update] with descriptors no two of which overlap, it
    returns for a slot the first address of the descriptor that the slot
    lies within; when the descriptors cover the slot space, every slot has
    such a descriptor. *)
Theorem GetMasterAddrBySlot_first (c : ClusterClient) (slot : N) :
  length (slots c) = N.to_nat HashSlots → (slot < HashSlots)%N →
  (∃ entry, slots c !! N.to_nat slot = Some entry
     ∧ ClusterClient.GetMasterAddrBySlot c slot
       = match entry with addr :: _ => addr | [] => "" end)
  ∧ (∀ infos info, non_overlapping infos → info ∈ infos → in_range info slot →
       ClusterClient.GetMasterAddrBySlot (ClusterClient.update infos c) slot
       = match slot_Addrs info with addr :: _ => addr | [] => "" end)
  ∧ (∀ infos, non_overlapping infos → covers infos →
       ∃ info, info ∈ infos ∧ in_range info slot
         ∧ ClusterClient.GetMasterAddrBySlot (ClusterClient.update infos c) slot
           = match slot_Addrs info with addr :: _ => addr | [] => "" end).
Proof.
  intros Hlen Hslot.
  assert (∀ infos info, non_overlapping infos → info ∈ infos →
            in_range info slot →
            ClusterClient.GetMasterAddrBySlot (ClusterClient.update infos c) slot
            = match slot_Addrs info with addr :: _ => addr | [] => "" end)
    as Hupd.
  { intros infos info Hno Hin Hr. unfold ClusterClient.GetMasterAddrBySlot.
    rewrite (update_slots_lookup infos c info slot) by (done || lia).
    done. }
  split_and!; [|done|].
  - destruct (lookup_lt_is_Some_2 (slots c) (N.to_nat slot)) as [entry He]; [lia|].
    exists entry. split; [done|].
    unfold ClusterClient.GetMasterAddrBySlot. by rewrite He.
  - intros infos Hno Hcov. destruct (Hcov slot Hslot) as (info & Hin & Hr).
    exists info. split_and!; [done..|]. by apply Hupd.
Qed.

Lemma test_infos_non_overlapping : non_overlapping test_infos.
Proof.
  intros i j a b s Hi Hj Ha Hb. unfold in_range in *.
  destruct i as [|[|[|[|i]]]]; destruct j as [|[|[|[|j]]]];
    cbn in Hi, Hj; simplify_eq; cbn in *; (done || lia).
Qed.

Lemma test_infos_covers : covers test_infos.
Proof.
  intros s Hs. unfold HashSlots in Hs.
  destruct (decide (s ≤ 4095)%N); [eexists; split; [by left|]; unfold in_range; cbn; lia|].
  destruct (decide (s ≤ 8191)%N);
    [eexists; split; [do 2 right; by left|]; unfold in_range; cbn; lia|].
  destruct (decide (s ≤ 12287)%N);
    [eexists; split; [do 3 right; by left|]; unfold in_range; cbn; lia|].
  eexists; split; [right; by left|]; unfold in_range; cbn; lia.
Qed.

Lemma GetMasterAddrBySlot_first_witness :
  let c := ClusterClient.reset (ClusterClient.NewClusterClient test_seeds) in
  ClusterClient.GetMasterAddrBySlot c 1000 = ""
  ∧ ClusterClient.GetMasterAddrBySlot (ClusterClient.update test_infos c) 1000
    = "127.0.0.1:7000"
  ∧ ∃ info, info ∈ test_infos ∧ in_range info 16383
      ∧ ClusterClient.GetMasterAddrBySlot (ClusterClient.update test_infos c)
          16383
        = match slot_Addrs info with addr :: _ => addr | [] => "" end.
Proof.
  intros c.
  assert (length (slots c) = N.to_nat HashSlots) as Hlen
    by apply length_replicate.
  destruct (GetMasterAddrBySlot_first c 1000 Hlen eq_refl)
    as ((entry & He & H1) & H2 & _).
  destruct (GetMasterAddrBySlot_first c 16383 Hlen eq_refl) as (_ & _ & H3).
  split_and!.
  - rewrite H1. cbn in He.
    rewrite lookup_replicate_2 in He by (unfold HashSlots; lia).
    by injection He as <-.
  - rewrite (H2 test_infos (Build_ClusterSlotInfo 0 4095
               ["127.0.0.1:7000"; "127.0.0.1:7004"]));
      [done | apply test_infos_non_overlapping | by left |].
    unfold in_range. cbn. lia.
  - apply H3; [apply test_infos_non_overlapping | apply test_infos_covers].
Defined.

(** ** C4: the next address to try *)

#[local] Instance string_le_refl : Reflexive string_le.
Proof.
  intros a. unfold string_le, String.leb.
  change String.compare with String_as_OT.cmp.
  by rewrite (proj2 (String_as_OT.cmp_eq a a) eq_refl).
Qed.

#[local] Instance string_le_trans : Transitive string_le.
Proof.
  intros a b c. unfold string_le, String.leb.
  change String.compare with String_as_OT.cmp.
  destruct (String_as_OT.cmp a b) eqn:Hab; [| |done].
  { apply String_as_OT.cmp_eq in Hab as ->. done. }
  destruct (String_as_OT.cmp b c) eqn:Hbc; [| |done].
  { apply String_as_OT.cmp_eq in Hbc as <-. by rewrite Hab. }
  intros _ _. apply String_as_OT.cmp_lt in Hab, Hbc.
  pose proof (String_as_OT.lt_trans _ _ _ Hab Hbc) as Hac.
  apply String_as_OT.cmp_lt in Hac. by rewrite Hac.
Qed.

#[local] Instance string_le_total : Total string_le.
Proof. intros a b. apply String.leb_total. Qed.

#[local] Instance string_le_antisym : AntiSymm eq string_le.
Proof. intros a b. apply String.leb_antisym. Qed.

Lemma sorted_addrs_perm c :
  ClusterClient.sorted_addrs c ≡ₚ elements (addrs c).
Proof. apply merge_sort_Permutation. Qed.

Lemma sorted_addrs_elem c a :
  a ∈ ClusterClient.sorted_addrs c ↔ a ∈ addrs c.
Proof. by rewrite sorted_addrs_perm, elem_of_elements. Qed.

Lemma sorted_addrs_NoDup c : NoDup (ClusterClient.sorted_addrs c).
Proof. rewrite sorted_addrs_perm. apply NoDup_elements. Qed.

Lemma sorted_addrs_sorted c :
  StronglySorted string_le (ClusterClient.sorted_addrs c).
Proof. apply StronglySorted_merge_sort; apply _. Qed.

Lemma sorted_addrs_length c :
  length (ClusterClient.sorted_addrs c) = size (addrs c).
Proof. by rewrite sorted_addrs_perm. Qed.

Lemma first_unseen_cases l (seen : gset string) :
  (ClusterClient.first_unseen l seen ∈ l
   ∧ ClusterClient.first_unseen l seen ∉ seen)
  ∨ (ClusterClient.first_unseen l seen = "" ∧ ∀ a, a ∈ l → a ∈ seen).
Proof.
  induction l as [|x l IH]; cbn.
  - right. split; [done|]. intros a Ha. by apply elem_of_nil in Ha.
  - case_decide as Hx.
    + destruct IH as [[Hin Hout]|[He Hall]].
      * left. split; [by right|done].
      * right. split; [done|]. intros a [->|Ha]%elem_of_cons; auto.
    + left. split; [by left|done].
Qed.

Lemma first_unseen_least l (seen : gset string) a :
  StronglySorted string_le l → a ∈ l → a ∉ seen →
  ClusterClient.first_unseen l seen ∈ l
  ∧ (ClusterClient.first_unseen l seen ∉ seen)
  ∧ string_le (ClusterClient.first_unseen l seen) a.
Proof.
  induction 1 as [|x l Hl IH Hx]; intros Hin Hout; cbn.
  - by apply elem_of_nil in Hin.
  - case_decide as Hseen.
    + apply elem_of_cons in Hin as [->|Hin]; [done|].
      destruct (IH Hin Hout) as (? & ? & ?). split_and!; [by right|done..].
    + split_and!; [by left|done|].
      apply elem_of_cons in Hin as [->|Hin]; [reflexivity|].
      rewrite Forall_forall in Hx. by apply Hx.
Qed.

Lemma first_unseen_app l1 l2 (seen : gset string) :
  (∀ a, a ∈ l1 → a ∈ seen) →
  ClusterClient.first_unseen (l1 ++ l2) seen
  = ClusterClient.first_unseen l2 seen.
Proof.
  induction l1 as [|x l1 IH]; intros Hall; cbn; [done|].
  rewrite decide_True by (apply Hall; by left).
  apply IH. intros a Ha. apply Hall. by right.
Qed.

(** The retry loop runs through the part of the sorted addresses that is
    not yet seen. *)
Lemma retry_enumerates c : ∀ l2 l1 (seen : gset string),
  ClusterClient.sorted_addrs c = l1 ++ l2 →
  (∀ a, a ∈ l1 → a ∈ seen) → (∀ a, a ∈ l2 → a ∉ seen) → NoDup l2 →
  ClusterClient.retry c (length l2) seen = (l2, list_to_set l2 ∪ seen).
Proof.
  induction l2 as [|x l2 IH]; intros l1 seen Hl Hseen Hunseen Hnd; cbn.
  - f_equal. set_solver.
  - apply NoDup_cons in Hnd as [Hx Hnd].
    assert (ClusterClient.next c seen = x) as ->.
    { unfold ClusterClient.next. rewrite Hl, first_unseen_app by done. cbn.
      rewrite decide_False; [done|]. apply Hunseen. by left. }
    rewrite (IH (l1 ++ [x])).
    + f_equal. set_solver.
    + by rewrite <- app_assoc.
    + intros a [Ha| ->%list_elem_of_singleton]%elem_of_app; set_solver.
    + intros a Ha. apply not_elem_of_union. split.
      * intros ->%elem_of_singleton. done.
      * apply Hunseen. by right.
    + done.
Qed.

Lemma retry_until_empty_enumerates c : ∀ l2 l1 (seen : gset string),
  ClusterClient.sorted_addrs c = l1 ++ l2 →
  (∀ a, a ∈ l1 → a ∈ seen) → (∀ a, a ∈ l2 → a ∉ seen) → NoDup l2 →
  "" ∉ l2 →
  ClusterClient.retry_until_empty c (S (length l2)) seen = Some l2.
Proof.
  induction l2 as [|x l2 IH]; intros l1 seen Hl Hseen Hunseen Hnd Hne.
  - cbn. unfold ClusterClient.next. rewrite Hl, first_unseen_app by done.
    cbn. by rewrite decide_True.
  - apply NoDup_cons in Hnd as [Hx Hnd].
    assert (ClusterClient.next c seen = x) as Hnext.
    { unfold ClusterClient.next. rewrite Hl, first_unseen_app by done. cbn.
      rewrite decide_False; [done|]. apply Hunseen. by left. }
    change (ClusterClient.retry_until_empty c (S (length (x :: l2))) seen)
      with (let addr := ClusterClient.next c seen in
            if decide (addr = "") then Some []
            else cons addr <$>
                   ClusterClient.retry_until_empty c (S (length l2))
                     ({[addr]} ∪ seen)).
    cbn zeta. rewrite Hnext.
    rewrite decide_False by (intros ->; apply Hne; by left).
    rewrite (IH (l1 ++ [x])); [done|..].
    + by rewrite <- app_assoc.
    + intros a [Ha| ->%list_elem_of_singleton]%elem_of_app; set_solver.
    + intros a Ha. apply not_elem_of_union. split.
      * intros ->%elem_of_singleton. done.
      * apply Hunseen. by right.
    + done.
    + intros ?. apply Hne. by right.
Qed.

(** C4.  Let [l] be AddressSet in sorted order: sorted by the order of
    strings, each address once.  For every set [seen] of addresses (the empty
    string is not one), [next seen] is not a member of [seen]; for every set
    [seen] whatever, [next seen] is not a member of [seen] unless it is the
    empty answer given when every address is in [seen]; if some address is not in [seen], [next seen] is the first
    such address of [l], that is, the least of them; and if every address is
    in [seen], [next seen] is empty.  Starting from the empty set and adding
    each answer to [seen], as many calls as there are addresses return [l],
    element by element, and leave [seen] equal to AddressSet, on which the
    following call returns empty; when the empty string is not an address,
    a caller that stops at the first empty answer has received exactly
    [l]. *)
Theorem next_enumerates (c : ClusterClient) :
  let l := ClusterClient.sorted_addrs c in
  (StronglySorted string_le l ∧ NoDup l ∧ ∀ a, a ∈ l ↔ a ∈ addrs c)
  ∧ (∀ seen, "" ∉ seen → ClusterClient.next c seen ∉ seen)
  ∧ (∀ seen, ClusterClient.next c seen ∈ seen →
       ClusterClient.next c seen = "" ∧ addrs c ⊆ seen)
  ∧ (∀ seen a, a ∈ addrs c → a ∉ seen →
       ClusterClient.next c seen ∈ addrs c
       ∧ (ClusterClient.next c seen ∉ seen)
       ∧ string_le (ClusterClient.next c seen) a)
  ∧ (∀ seen, addrs c ⊆ seen → ClusterClient.next c seen = "")
  ∧ ClusterClient.retry c (size (addrs c)) ∅ = (l, addrs c)
  ∧ ClusterClient.next c (addrs c) = ""
  ∧ ("" ∉ addrs c →
     ClusterClient.retry_until_empty c (S (size (addrs c))) ∅ = Some l).
Proof.
  intros l.
  assert (∀ seen, addrs c ⊆ seen → ClusterClient.next c seen = "") as Hall.
  { intros seen Hsub. unfold ClusterClient.next.
    destruct (first_unseen_cases (ClusterClient.sorted_addrs c) seen)
      as [[Hin Hout]|[He _]]; [|done].
    apply sorted_addrs_elem in Hin. set_solver. }
  split_and!.
  - apply sorted_addrs_sorted.
  - apply sorted_addrs_NoDup.
  - apply sorted_addrs_elem.
  - intros seen Hne Hin. unfold ClusterClient.next in *.
    destruct (first_unseen_cases (ClusterClient.sorted_addrs c) seen)
      as [[_ Hout]|[He Hseen]]; [done|]. by rewrite He in Hin.
  - intros seen Hin. unfold ClusterClient.next in *.
    destruct (first_unseen_cases (ClusterClient.sorted_addrs c) seen)
      as [[_ Hout]|[He Hseen]]; [done|].
    split; [done|]. intros a Ha. by apply Hseen, sorted_addrs_elem.
  - intros seen a Ha Hout. unfold ClusterClient.next.
    destruct (first_unseen_least (ClusterClient.sorted_addrs c) seen a)
      as (H1 & H2 & H3);
      [apply sorted_addrs_sorted | by apply sorted_addrs_elem | done |].
    split_and!; [by apply sorted_addrs_elem in H1 | done..].
  - done.
  - rewrite <- sorted_addrs_length.
    rewrite (retry_enumerates c l [] ∅); [|done| |set_solver|apply sorted_addrs_NoDup].
    + f_equal. apply set_eq. intros a.
      rewrite elem_of_union, elem_of_list_to_set. subst l.
      rewrite sorted_addrs_elem. set_solver.
    + intros a Ha. by apply elem_of_nil in Ha.
  - by apply Hall.
  - intros Hne. rewrite <- sorted_addrs_length.
    apply (retry_until_empty_enumerates c l []);
      [done| |set_solver|apply sorted_addrs_NoDup|].
    + intros a Ha. by apply elem_of_nil in Ha.
    + subst l. by rewrite sorted_addrs_elem.
Qed.

Lemma next_enumerates_witness :
("" ∉ addrs test_populated)
  ∧ ClusterClient.retry_until_empty test_populated 10 ∅
    = Some ["127.0.0.1:6379"; "127.0.0.1:7000"; "127.0.0.1:7001";
            "127.0.0.1:7002"; "127.0.0.1:7003"; "127.0.0.1:7004";
            "127.0.0.1:7005"; "127.0.0.1:7006"; "127.0.0.1:7007"]
  ∧ ClusterClient.next test_populated (addrs test_populated) = "".
Proof.
  destruct (next_enumerates test_populated)
    as (_ & _ & _ & _ & _ & _ & H0 & H).
  assert ("" ∉ addrs test_populated) as Hne.
  { intros Hin. by vm_compute in Hin. }
  split_and!; [done| |done].
  specialize (H Hne).
  assert (size (addrs test_populated) = 9%nat) as Hsz by (by vm_compute).
  rewrite Hsz in H. rewrite H. by vm_compute.
Defined.

(** * Further properties of the pools *)

(** ** The free list is a stack *)

Lemma last_snoc_take {A} (l : list A) (x : A) :
  last (l ++ [x]) = Some x
  ∧ take (pred (length (l ++ [x]))) (l ++ [x]) = l.
Proof.
  split; [apply last_snoc|].
  rewrite length_app. cbn. replace (pred (length l + 1)) with (length l) by lia.
  by rewrite take_app_length.
Qed.

Lemma Pop_top p l cn n :
  s_cns (freeConns p) = l ++ [cn] → s_free (freeConns p) = S n →
  connStack.Pop p = Ret cn (with_free l n p).
Proof.
  intros Hl Hn. unfold connStack.Pop, connStack.pop, connStack.receive_free.
  rewrite Hn. unfold_M. cbn. rewrite Hl.
  by destruct (last_snoc_take l cn) as [-> ->].
Qed.

Lemma isIdle_idle cn p :
  cn ≠ nil_conn → connPool.isIdle cn p = Ret (bool_decide (idle p cn)) p.
Proof.
  intros Hn. unfold connPool.isIdle, idle.
  destruct (decide (0 < getIdleTimeout (opt p))) as [H0|H0]; go.
  - f_equal. apply bool_decide_ext. naive_solver.
  - by try rewrite bool_decide_eq_false_2 by naive_solver.
Qed.

(** X1.  [Push] then [Pop] (or [PopWithTimeout]) on a stack whose channel has
    room returns the connection pushed and leaves the pool as it was: the
    last connection pushed is the first popped.  On an empty channel [Pop]
    and [PopWithTimeout] return nil and change nothing. *)
Theorem Push_Pop_LIFO (p : connPool) (cn : conn) (d : Z) :
  (Z.of_nat (s_free (freeConns p)) < s_free_cap (freeConns p) →
   (connStack.Push cn ;; connStack.Pop) p = Ret cn p
   ∧ (connStack.Push cn ;; connStack.PopWithTimeout d) p = Ret cn p)
  ∧ (s_free (freeConns p) = 0%nat →
     connStack.Pop p = Ret nil_conn p
     ∧ connStack.PopWithTimeout d p = Ret nil_conn p).
Proof.
  split.
  - intros Hroom.
    assert (connStack.PopWithTimeout d = connStack.Pop) as -> by done.
    assert ((connStack.Push cn ;; connStack.Pop) p = Ret cn p); [|done].
    unfold mbind, M_bind. rewrite Push_room by done.
    erewrite Pop_top; [|done..].
    by destruct p as [? ? ? [] ? ? ? ? ? ? ?].
  - intros H0. unfold connStack.Pop, connStack.PopWithTimeout. by rewrite H0.
Qed.

Lemma Push_Pop_LIFO_witness :
  let p := after (connPool.Put 1%N)
             (after connPool.Get (newConnPool env_up (opt_size 2))) in
  s_cns (freeConns p) = [1%N]
  ∧ (connStack.Push 7%N ;; connStack.Pop) p = Ret 7%N p
  ∧ (connStack.Push 7%N ;; connStack.PopWithTimeout 1) p = Ret 7%N p.
Proof.
  intros p. split; [done|].
  apply (Push_Pop_LIFO p 7%N 1). by vm_compute.
Defined.

(** ** The paths through [Get] *)

Lemma First_top p l cn n :
  s_cns (freeConns p) = l ++ [cn] → s_free (freeConns p) = S n →
  cn ≠ nil_conn → ¬ idle p cn →
  connPool.First p = Ret cn (with_free l n p).
Proof.
  intros Hl Hn Hnil Hidle. unfold connPool.First. rewrite First_loop_S.
  unfold mbind, M_bind. rewrite (Pop_top p l cn n) by done.
  rewrite decide_False by done. rewrite isIdle_idle by done.
  by rewrite bool_decide_eq_false_2.
Qed.

(** X2.  [Get] on an open pool whose free list is not empty and whose top
    connection is not idle returns that connection, the one pushed last,
    with [isNew = false] and no error.  It is taken off the free list,
    [Requests] and [Hits] are incremented, and nothing else changes: no dial
    is made and the registry is left alone. *)
Theorem Get_hit (p : connPool) (l : list conn) (cn : conn) (n : nat) :
  _closed p ≠ 1 →
  s_cns (freeConns p) = l ++ [cn] → s_free (freeConns p) = S n →
  cn ≠ nil_conn → ¬ idle p cn →
  connPool.Get p
  = Ret (cn, false, None) (counted true true false false (with_free l n p)).
Proof.
  intros Hc Hl Hn Hnil Hidle.
  unfold connPool.Get, connPool.closed, connPool.add_Requests,
    connPool.add_Hits.
  unfold mbind at 1, M_bind at 1. unfold gets at 1.
  rewrite bool_decide_eq_false_2 by done.
  unfold mbind at 1, M_bind at 1. unfold modify at 1.
  unfold mbind at 1, M_bind at 1.
  erewrite (First_top _ l cn n); [|done..].
  rewrite decide_True by done. done.
Qed.

Lemma Get_hit_witness :
  let p := after (connPool.Put 2%N) (after (connPool.Put 1%N)
             (after connPool.Get (after connPool.Get
                (newConnPool env_up (opt_size 2))))) in
  s_cns (freeConns p) = [1%N; 2%N]
  ∧ connPool.Get p
    = Ret (2%N, false, None)
          (counted true true false false (with_free [1%N] 1 p)).
Proof.
  intros p. split; [done|].
  apply (Get_hit p [1%N] 2%N 1); try done.
  by intros [H _].
Defined.

(** X3.  [Get] on an open pool whose free list is empty and whose registry
    has room dials: when the rate limiter lets the dial through and the
    dialer yields [cn], [Get] returns [cn] with [isNew = true] and no error;
    [cn] is added to the registry, whose size has grown by one, [Requests]
    is incremented and [Hits] is not, and the free list is left alone. *)
Theorem Get_dials_new (p : connPool) (m : gset conn) (cn : conn) :
  _closed p ≠ 1 →
  s_free (freeConns p) = 0%nat →
  l_cns (conns p) = Some m →
  AddInt32 (l_size (conns p)) 1 ≤ l_max (conns p) →
  rl_Limit (env p) (rl_calls p) = false →
  dialer (env p) (dials p) = (cn, None) →
  connPool.Get p
  = Ret (cn, true, None)
        (with_conns (Some ({[cn]} ∪ m)) (AddInt32 (l_size (conns p)) 1)
           (called true (counted true false false false p))).
Proof.
  intros Hc Hf Hm Hr Hl Hd.
  unfold connPool.Get, connPool.closed, connPool.add_Requests.
  go. rewrite First_empty by done. go.
  rewrite Reserve_cases. go.
  rewrite new_cases. go. unfold connList.Add. go. done.
Qed.

Lemma Get_dials_new_witness :
  let p := after connPool.Get (newConnPool env_up (opt_size 2)) in
  l_cns (conns p) = Some {[1%N]}
  ∧ connPool.Get p
    = Ret (2%N, true, None)
          (with_conns (Some ({[2%N]} ∪ {[1%N]})) (AddInt32 1 1)
             (called true (counted true false false false p))).
Proof.
  intros p. split; [done|].
  by apply (Get_dials_new p {[1%N]} 2%N).
Defined.

(** X4.  [Get] on an open pool whose free list is empty and whose registry
    is at its capacity waits and, with nobody to return a connection, times
    out: it returns nil, [isNew = false] and [errPoolTimeout]; [Requests],
    [Waits] and [Timeouts] are each incremented and nothing else changes:
    the size of the registry is rolled back and no dial is made. *)
Theorem Get_pool_timeout (p : connPool) :
  _closed p ≠ 1 →
  s_free (freeConns p) = 0%nat →
  - 2 ^ 31 ≤ l_size (conns p) < 2 ^ 31 →
  ¬ AddInt32 (l_size (conns p)) 1 ≤ l_max (conns p) →
  connPool.Get p
  = Ret (nil_conn, false, Some errPoolTimeout)
        (counted true false true true p).
Proof.
  intros Hc Hf Hsz Hr.
  unfold connPool.Get, connPool.closed, connPool.add_Requests,
    connPool.add_Waits, connPool.add_Timeouts.
  go. rewrite First_empty by done. go.
  rewrite Reserve_cases. go.
  rewrite wait_First, First_empty by done. go.
  change (-1) with (- (1)). rewrite AddInt32_undo, int32_small by done.
  by destruct p as [? ? [] ? ? ? ? ? ? ? ?].
Qed.

Lemma Get_pool_timeout_witness :
  let p := after connPool.Get (newConnPool env_up (opt_size 1)) in
  l_size (conns p) = 1 ∧ l_max (conns p) = 1
  ∧ connPool.Get p
    = Ret (nil_conn, false, Some errPoolTimeout)
          (counted true false true true p).
Proof.
  intros p. split_and!; [done..|].
  apply (Get_pool_timeout p); [done | done | by vm_compute | by vm_compute].
Defined.

(** ** Idle connections *)

(** [First] on a free list whose top connection is idle, when the dial of
    its replacement succeeds. *)
Lemma First_top_idle p l cn n m newcn :
  s_cns (freeConns p) = l ++ [cn] → s_free (freeConns p) = S n →
  cn ≠ nil_conn → idle p cn →
  l_cns (conns p) = Some m → cn ∈ m →
  rl_Limit (env p) (rl_calls p) = false →
  dialer (env p) (dials p) = (newcn, None) →
  connPool.First p
  = Ret newcn
        (closing [cn]
           (with_conns (Some ({[newcn]} ∪ m ∖ {[cn]})) (l_size (conns p))
              (called true (with_free l n p)))).
Proof.
  intros Hl Hn Hnil Hidle Hm Hin Hrl Hd.
  unfold connPool.First. rewrite First_loop_S.
  unfold mbind, M_bind. rewrite (Pop_top p l cn n) by done.
  rewrite decide_False by done. rewrite isIdle_idle by done.
  rewrite bool_decide_eq_true_2 by done.
  unfold connPool.replace. unfold mbind, M_bind.
  rewrite new_cases. cbn. rewrite Hrl, Hd.
  erewrite (Replace_member _ cn newcn m); [|done..].
  done.
Qed.

(** X5.  [Get] on an open pool whose top free connection [cn] has been idle
    for longer than the idle timeout replaces it: when the dial succeeds
    with a connection [newcn], [Get] returns [newcn] with [isNew = false]
    and counts a hit; [cn] is closed and [newcn] takes its place in the
    registry, whose size does not change. *)
Theorem Get_replaces_idle (p : connPool) (l : list conn) (cn : conn) (n : nat)
    (m : gset conn) (newcn : conn) :
  _closed p ≠ 1 →
  s_cns (freeConns p) = l ++ [cn] → s_free (freeConns p) = S n →
  cn ≠ nil_conn → idle p cn →
  l_cns (conns p) = Some m → cn ∈ m →
  rl_Limit (env p) (rl_calls p) = false →
  dialer (env p) (dials p) = (newcn, None) → newcn ≠ nil_conn →
  connPool.Get p
  = Ret (newcn, false, None)
        (counted true true false false
           (closing [cn]
              (with_conns (Some ({[newcn]} ∪ m ∖ {[cn]})) (l_size (conns p))
                 (called true (with_free l n p))))).
Proof.
  intros Hc Hl Hn Hnil Hidle Hm Hin Hrl Hd Hnew.
  unfold connPool.Get, connPool.closed, connPool.add_Requests,
    connPool.add_Hits.
  unfold mbind at 1, M_bind at 1. unfold gets at 1.
  rewrite bool_decide_eq_false_2 by done.
  unfold mbind at 1, M_bind at 1. unfold modify at 1.
  unfold mbind at 1, M_bind at 1.
  erewrite (First_top_idle _ l cn n m newcn); [|done..].
  rewrite decide_True by done. done.
Qed.

(** One connection was dialed, used and put back at time 0; at time 100 it
    has been idle for longer than the timeout of 10. *)
Lemma Get_replaces_idle_witness :
  let p := set_env env_later
             (after (connPool.Put 1%N)
                (after connPool.Get (newConnPool env_up (opt_idle 2 10)))) in
  s_cns (freeConns p) = [1%N]
  ∧ connPool.Get p
    = Ret (2%N, false, None)
          (counted true true false false
             (closing [1%N]
                (with_conns (Some ({[2%N]} ∪ {[1%N]} ∖ {[1%N]})) 1
                   (called true (with_free [] 0 p))))).
Proof.
  intros p. split; [done|].
  apply (Get_replaces_idle p [] 1%N 0 {[1%N]} 2%N);
    first [done | by vm_compute | set_solver].
Defined.

(** [Put] of a connection without unread data, when the channel has room. *)
Lemma Put_pushes p cn :
  cn ≠ nil_conn → rd_unread (env p) cn = "" →
  Z.of_nat (s_free (freeConns p)) < s_free_cap (freeConns p) →
  connPool.Put cn p
  = Ret None (with_free (s_cns (freeConns p) ++ [cn])
                (S (s_free (freeConns p))) p).
Proof.
  intros Hnil Hb Hroom. unfold connPool.Put.
  rewrite decide_False by done. unfold mbind, M_bind, gets.
  rewrite Hb. cbn. rewrite decide_False by (by intros []).
  by rewrite Push_room.
Qed.

(** X6.  A tick of the reaper on a closed pool ends the reaper and changes
    nothing.  On an open pool whose free list is empty, or whose top free
    connection is not idle and has no unread data, the tick changes nothing
    either: the connection that [First] pops is pushed back by [Put]. *)
Theorem reaper_tick_no_eviction (p : connPool) :
  (_closed p = 1 → connPool.reaper_tick p = Ret false p)
  ∧ (_closed p ≠ 1 → s_free (freeConns p) = 0%nat →
     connPool.reaper_tick p = Ret true p)
  ∧ (∀ l cn n,
       _closed p ≠ 1 →
       s_cns (freeConns p) = l ++ [cn] → s_free (freeConns p) = S n →
       Z.of_nat (S n) ≤ s_free_cap (freeConns p) →
       cn ≠ nil_conn → ¬ idle p cn → rd_unread (env p) cn = "" →
       connPool.reaper_tick p = Ret true p).
Proof.
  unfold connPool.reaper_tick, connPool.closed. split_and!.
  - intros Hc. go. done.
  - intros Hc Hf. go. rewrite First_empty by done. go. done.
  - intros l cn n Hc Hl Hn Hcap Hnil Hidle Hb.
    unfold mbind at 1, M_bind at 1. unfold gets at 1.
    rewrite bool_decide_eq_false_2 by done.
    unfold mbind at 1, M_bind at 1.
    rewrite (First_top p l cn n) by done.
    rewrite decide_True by done.
    unfold mbind, M_bind. rewrite Put_pushes; [|done|done|cbn; lia].
    unfold with_free. sim. rewrite <- Hl, <- Hn.
    by destruct p as [? ? ? [] ? ? ? ? ? ? ?].
Qed.

Lemma reaper_tick_no_eviction_witness :
  let p := after (connPool.Put 1%N)
             (after connPool.Get (newConnPool env_up (opt_idle 2 10))) in
  let q := after connPool.Close p in
  s_cns (freeConns p) = [1%N]
  ∧ connPool.reaper_tick p = Ret true p
  ∧ connPool.reaper_tick q = Ret false q.
Proof.
  intros p q. split; [done|]. split.
  - apply (reaper_tick_no_eviction p) with (l := []) (cn := 1%N) (n := 0%nat);
      first [done | by vm_compute | by intros [_ ?]].
  - by apply (reaper_tick_no_eviction q).
Defined.

(** X7.  A tick of the reaper on an open pool whose top free connection
    [cn] is idle evicts it: when the dial succeeds with a connection
    [newcn] that has no unread data, [cn] is closed, [newcn] takes its place
    both in the registry and on top of the free list, and the reaper goes
    on. *)
Theorem reaper_tick_evicts_idle (p : connPool) (l : list conn) (cn : conn)
    (n : nat) (m : gset conn) (newcn : conn) :
  _closed p ≠ 1 →
  s_cns (freeConns p) = l ++ [cn] → s_free (freeConns p) = S n →
  Z.of_nat (S n) ≤ s_free_cap (freeConns p) →
  cn ≠ nil_conn → idle p cn →
  l_cns (conns p) = Some m → cn ∈ m →
  rl_Limit (env p) (rl_calls p) = false →
  dialer (env p) (dials p) = (newcn, None) →
  newcn ≠ nil_conn → rd_unread (env p) newcn = "" →
  connPool.reaper_tick p
  = Ret true
        (closing [cn]
           (with_conns (Some ({[newcn]} ∪ m ∖ {[cn]})) (l_size (conns p))
              (called true (with_free (l ++ [newcn]) (S n) p)))).
Proof.
  intros Hc Hl Hn Hcap Hnil Hidle Hm Hin Hrl Hd Hnew Hb.
  unfold connPool.reaper_tick, connPool.closed.
  unfold mbind at 1, M_bind at 1. unfold gets at 1.
  rewrite bool_decide_eq_false_2 by done.
  unfold mbind at 1, M_bind at 1.
  rewrite (First_top_idle p l cn n m newcn) by done.
  rewrite decide_True by done.
  unfold mbind, M_bind. rewrite Put_pushes; [|done|done|cbn; lia].
  done.
Qed.

Lemma reaper_tick_evicts_idle_witness :
  let p := set_env env_later
             (after (connPool.Put 1%N)
                (after connPool.Get (newConnPool env_up (opt_idle 2 10)))) in
  s_cns (freeConns p) = [1%N]
  ∧ connPool.reaper_tick p
    = Ret true
          (closing [1%N]
             (with_conns (Some ({[2%N]} ∪ {[1%N]} ∖ {[1%N]})) 1
                (called true (with_free [2%N] 1 p)))).
Proof.
  intros p. split; [done|].
  apply (reaper_tick_evicts_idle p [] 1%N 0 {[1%N]} 2%N);
    first [done | by vm_compute | set_solver].
Defined.

(** ** Round trips *)

(** X8.  On an open pool whose channel has room, [Put] of a connection that
    has no unread data and is not idle, followed by [Get], returns that very
    connection with [isNew = false] and no error, and leaves the pool as it
    was before the two calls, [Requests] and [Hits] apart, which are
    incremented. *)
Theorem Put_Get_round_trip (p : connPool) (cn : conn) :
  _closed p ≠ 1 → cn ≠ nil_conn →
  rd_unread (env p) cn = "" → ¬ idle p cn →
  Z.of_nat (s_free (freeConns p)) < s_free_cap (freeConns p) →
  (connPool.Put cn ;; connPool.Get) p
  = Ret (cn, false, None) (counted true true false false p).
Proof.
  intros Hc Hnil Hb Hidle Hroom.
  unfold mbind at 1, M_bind at 1. rewrite Put_pushes by done.
  unfold connPool.Get, connPool.closed, connPool.add_Requests,
    connPool.add_Hits.
  unfold mbind at 1, M_bind at 1. unfold gets at 1.
  rewrite bool_decide_eq_false_2 by done.
  unfold mbind at 1, M_bind at 1. unfold modify at 1.
  unfold mbind at 1, M_bind at 1.
  erewrite (First_top _ (s_cns (freeConns p)) cn (s_free (freeConns p)));
    [|done..].
  rewrite decide_True by done.
  by destruct p as [? ? ? [] ? ? ? ? ? ? ?].
Qed.

Lemma Put_Get_round_trip_witness :
  let p := after connPool.Get (newConnPool env_up (opt_size 2)) in
  (connPool.Put 1%N ;; connPool.Get) p
  = Ret (1%N, false, None) (counted true true false false p).
Proof.
  intros p. apply (Put_Get_round_trip p 1%N);
    first [done | by vm_compute | by intros [? _]].
Defined.

(** ** The registry *)

(** X9.  For a size that is an int32 below the largest, [Reserve] succeeds
    exactly when the size is below [max]; it then leaves the size
    incremented, and otherwise as it was.  The map is not touched. *)
Theorem Reserve_iff_room (p : connPool) :
  - 2 ^ 31 ≤ l_size (conns p) < 2 ^ 31 - 1 →
  connList.Reserve p
  = Ret (bool_decide (l_size (conns p) < l_max (conns p)))
        (with_conns (l_cns (conns p))
           (if decide (l_size (conns p) < l_max (conns p))
            then l_size (conns p) + 1 else l_size (conns p)) p).
Proof.
  intros Hsz. rewrite Reserve_cases. cbn zeta.
  rewrite AddInt32_small by lia.
  destruct (decide (l_size (conns p) < l_max (conns p))) as [Hlt|Hlt].
  - rewrite !bool_decide_eq_true_2 by lia. done.
  - rewrite !bool_decide_eq_false_2 by lia.
    rewrite AddInt32_small by lia. unfold with_conns, set_conns. cbn.
    by replace (l_size (conns p) + 1 + -1) with (l_size (conns p)) by lia.
Qed.

Lemma Reserve_iff_room_witness :
  let p := after connPool.Get (newConnPool env_up (opt_size 1)) in
  let q := newConnPool env_up (opt_size 1) in
  connList.Reserve p = Ret false (with_conns (Some {[1%N]}) 1 p)
  ∧ connList.Reserve q = Ret true (with_conns (Some ∅) 1 q).
Proof.
  intros p q. split.
  - apply (Reserve_iff_room p). by vm_compute.
  - apply (Reserve_iff_room q). by vm_compute.
Defined.


Lemma Remove_unknown p cn m :
  l_cns (conns p) = Some m → cn ∉ m → cn ≠ nil_conn →
  connList.Remove cn p = Panic "conn not found in the list".
Proof.
  intros Hm Hin Hnil. unfold connList.Remove, connList.has, connList.closed.
  rewrite decide_False by done. unfold_M. rewrite Hm.
  rewrite bool_decide_eq_false_2 by done.
  by rewrite Hm.
Qed.

Lemma Replace_unknown p cn newcn m :
  l_cns (conns p) = Some m → cn ∉ m →
  connList.Replace cn newcn p = Panic "conn not found in the list".
Proof.
  intros Hm Hin. unfold connList.Replace, connList.has, connList.closed.
  unfold_M. rewrite Hm.
  rewrite bool_decide_eq_false_2 by done.
  by rewrite Hm.
Qed.

Lemma replace_unknown p cn m :
  l_cns (conns p) = Some m → cn ∉ m → cn ≠ nil_conn →
  connPool.replace cn p = Panic "conn not found in the list".
Proof.
  intros Hm Hin Hnil. unfold connPool.replace. unfold mbind, M_bind.
  rewrite new_cases. destruct (rl_Limit _ _).
  - by rewrite (Remove_unknown _ cn m).
  - destruct (dialer _ _) as [c [e|]].
    + by rewrite (Remove_unknown _ cn m).
    + by rewrite (Replace_unknown _ cn c m).
Qed.

(** X10.  On a pool whose registry is open, [Remove] of a connection that
    is not nil and is not registered (one removed before, or one of another
    pool) panics with "conn not found in the list", whatever the outcome of
    the dial that precedes the look-up; so does [Put] of such a connection
    when it has unread data. *)
Theorem Remove_unregistered_panics (p : connPool) (cn : conn) (m : gset conn)
    (reason : error) :
  l_cns (conns p) = Some m → cn ∉ m → cn ≠ nil_conn →
  connPool.Remove cn (Some reason) p = Panic "conn not found in the list"
  ∧ (rd_unread (env p) cn ≠ "" →
     connPool.Put cn p = Panic "conn not found in the list").
Proof.
  intros Hm Hin Hnil.
  assert (∀ r q, conns q = conns p →
            connPool.Remove cn (Some r) q = Panic "conn not found in the list")
    as HR.
  { intros r q Hq. unfold connPool.Remove, connPool.storeLastErr.
    unfold mbind, M_bind, modify.
    by rewrite (replace_unknown _ cn m) by (by cbn; rewrite ?Hq). }
  split; [by apply HR|].
  intros Hb. unfold connPool.Put. rewrite decide_False by done.
  unfold mbind, M_bind, gets.
  rewrite decide_True by (by apply length_nonzero).
  unfold Logger_Print, modify. by apply HR.
Qed.

(** The connection 1 is removed twice. *)
Lemma Remove_unregistered_panics_witness :
  let p1 := after connPool.Get (newConnPool env_up (opt_size 2)) in
  let p2 := after (connPool.Remove 1%N (Some "i/o timeout")) p1 in
  connPool.Remove 1%N (Some "i/o timeout") p1 = Ret None p2
  ∧ l_cns (conns p2) = Some ({[2%N]} ∪ {[1%N]} ∖ {[1%N]})
  ∧ connPool.Remove 1%N (Some "i/o timeout") p2
    = Panic "conn not found in the list".
Proof.
  intros p1 p2. split_and!; [by vm_compute..|].
  apply (Remove_unregistered_panics p2 1%N ({[2%N]} ∪ {[1%N]} ∖ {[1%N]})
           "i/o timeout"); [by vm_compute | set_solver | done].
Defined.

(** X11.  On a pool whose registry has been closed, [Remove] of a connection
    [cn] that is not nil does not close [cn].  It still dials: when the
    dial succeeds, the connection dialed is closed at once, is nevertheless
    pushed onto the free list, and [Remove] returns nil; when the dial
    fails, [Remove] returns the error of the dial and closes nothing. *)
Theorem Remove_on_closed_registry (p : connPool) (cn : conn) (reason : error) :
  l_cns (conns p) = None → cn ≠ nil_conn →
  rl_Limit (env p) (rl_calls p) = false →
  (∀ newcn, dialer (env p) (dials p) = (newcn, None) → newcn ≠ nil_conn →
     Z.of_nat (s_free (freeConns p)) < s_free_cap (freeConns p) →
     connPool.Remove cn (Some reason) p
     = Ret None
           (closing [newcn]
              (with_free (s_cns (freeConns p) ++ [newcn])
                 (S (s_free (freeConns p)))
                 (called true (set_lastErr (Some reason) p)))))
  ∧ (∀ c err, dialer (env p) (dials p) = (c, Some err) →
       connPool.Remove cn (Some reason) p
       = Ret (Some err) (set_lastErr (Some err) (called true p))).
Proof.
  intros Hm Hnil Hrl. split.
  - intros newcn Hd Hnew Hroom.
    unfold connPool.Remove, connPool.storeLastErr, connPool.replace.
    unfold mbind, M_bind, modify. rewrite new_cases. cbn. rewrite Hrl, Hd.
    unfold connList.Replace, connList.has, connList.closed, cn_Close.
    unfold_M. cbn. rewrite Hm. cbn. rewrite Hm.
    rewrite bool_decide_eq_true_2 by done.
    rewrite decide_False by done. rewrite Push_room by done. done.
  - intros c err Hd.
    unfold connPool.Remove, connPool.storeLastErr, connPool.replace.
    unfold mbind, M_bind, modify. rewrite new_cases. cbn. rewrite Hrl, Hd.
    unfold connList.Remove, connList.has, connList.closed.
    rewrite decide_False by done. unfold_M. cbn. rewrite Hm. cbn.
    rewrite ?Hm. by rewrite bool_decide_eq_true_2.
Qed.

(** The connection 1 is held by a caller when the pool is closed, and is
    removed afterwards. *)
Lemma Remove_on_closed_registry_witness :
  let p := after connPool.Close
             (after connPool.Get (newConnPool env_up (opt_size 2))) in
  closedConns p = [1%N]
  ∧ connPool.Remove 1%N (Some "i/o timeout") p
    = Ret None
          (closing [2%N]
             (with_free [2%N] 1
                (called true (set_lastErr (Some "i/o timeout") p)))).
Proof.
  intros p. split; [by vm_compute|].
  apply (Remove_on_closed_registry p 1%N "i/o timeout");
    first [done | by vm_compute].
Defined.

(** ** The rate limiter and the last error *)

(** X12.  A dial that the rate limiter refuses does not call the dialer, and
    fails with the error "redis: you open connections too fast" that quotes
    the pool's last error (the empty string if there is none).  After a dial
    that the dialer fails with the error [e], a dial that the rate limiter
    refuses quotes [e]. *)
Theorem new_rate_limited (p : connPool) :
  (rl_Limit (env p) (rl_calls p) = true →
   connPool.new p
   = Ret (nil_conn,
          Some (connPool.errTooFast (fmt_q (env p)) (default "" (lastErr p))))
         (called false p))
  ∧ (∀ c e,
       rl_Limit (env p) (rl_calls p) = false →
       dialer (env p) (dials p) = (c, Some e) →
       rl_Limit (env p) (S (rl_calls p)) = true →
       (connPool.new ;; connPool.new) p
       = Ret (nil_conn, Some (connPool.errTooFast (fmt_q (env p)) e))
             (called false (set_lastErr (Some e) (called true p)))).
Proof.
  split.
  - intros Hrl. rewrite new_cases. by rewrite Hrl.
  - intros c e Hrl Hd Hrl'. unfold mbind, M_bind.
    rewrite new_cases. rewrite Hrl, Hd. rewrite new_cases. cbn.
    by rewrite Hrl'.
Qed.

Lemma new_rate_limited_witness :
  let p := newConnPool env_limited (opt_size 2) in
  (connPool.new ;; connPool.new) p
  = Ret (nil_conn,
         Some ("redis: you open connections too fast "
               +:+ "(last_error=dial tcp: connection refused)"))
        (called false
           (set_lastErr (Some "dial tcp: connection refused")
              (called true p))).
Proof.
  intros p.
  by apply (new_rate_limited p) with (c := nil_conn)
                                     (e := "dial tcp: connection refused").
Defined.

(** X13.  [Remove] of a registered connection when the rate limiter refuses
    the dial of the replacement: the dialer is not called, the connection is
    deleted from the registry and closed, the size is decremented, nothing
    is pushed onto the free list, and the error returned quotes the reason
    given to [Remove], which is left as the pool's last error. *)
Theorem Remove_rate_limited (p : connPool) (cn : conn) (m : gset conn)
    (reason : error) :
  l_cns (conns p) = Some m → cn ∈ m → cn ≠ nil_conn →
  rl_Limit (env p) (rl_calls p) = true →
  connPool.Remove cn (Some reason) p
  = Ret (Some (connPool.errTooFast (fmt_q (env p)) reason))
        (closing [cn]
           (with_conns (Some (m ∖ {[cn]})) (AddInt32 (l_size (conns p)) (-1))
              (called false (set_lastErr (Some reason) p)))).
Proof.
  intros Hm Hin Hnil Hrl.
  unfold connPool.Remove, connPool.storeLastErr, connPool.replace.
  unfold mbind, M_bind, modify. rewrite new_cases. cbn. rewrite Hrl.
  by erewrite (Remove_member _ cn m).
Qed.

(** The connection 1 is dialed while the server is up; the server then goes
    down and the rate limiter refuses. *)
Lemma Remove_rate_limited_witness :
  let p := set_env env_limited
             (after connPool.Get (newConnPool env_up (opt_size 2))) in
  connPool.Remove 1%N (Some "i/o timeout") p
  = Ret (Some "redis: you open connections too fast (last_error=i/o timeout)")
        (closing [1%N]
           (with_conns (Some ({[1%N]} ∖ {[1%N]})) (AddInt32 1 (-1))
              (called false (set_lastErr (Some "i/o timeout") p)))).
Proof.
  intros p.
  apply (Remove_rate_limited p 1%N {[1%N]} "i/o timeout");
    first [done | set_solver].
Defined.

(** ** Ownership of connections *)

Lemma connList_Remove_track x p :
  wlp (connList.Remove x) p (λ _ p',
    freeConns p' = freeConns p ∧ env p' = env p ∧ dials p' = dials p
    ∧ ∀ c, c ≠ x → registered p c → registered p' c).
Proof.
  unfold wlp, connList.Remove, connList.has, connList.delete,
    connList.add_size, connList.closed, connList.set_cns, cn_Close,
    registered.
  case_decide; [by go|]. go.
  destruct (l_cns (conns p)) as [m|] eqn:Hm; go; [|done].
  destruct (bool_decide (x ∈ m)); go; [|done].
  split_and!; [done..|].
  intros c Hc (m' & [= <-] & Hin). exists (m ∖ {[x]}). set_solver.
Qed.

Lemma connList_Replace_track x newcn p :
  wlp (connList.Replace x newcn) p (λ _ p',
    freeConns p' = freeConns p ∧ env p' = env p ∧ dials p' = dials p
    ∧ ∀ c, c ≠ x → registered p c → registered p' c).
Proof.
  unfold wlp, connList.Replace, connList.has, connList.delete, connList.Add,
    connList.add_size, connList.closed, connList.set_cns, cn_Close,
    registered.
  go. destruct (l_cns (conns p)) as [m|] eqn:Hm; go.
  - destruct (bool_decide (x ∈ m)); go; [|done].
    case_decide; [done|]. split_and!; [done..|].
    intros c Hc (m' & [= <-] & Hin). exists ({[newcn]} ∪ m ∖ {[x]}).
    set_solver.
  - case_decide; [done|]. split_and!; [done..|]. by intros c _ (? & ? & _).
Qed.

(** [replace] leaves the free list alone, keeps every other connection
    registered, and what it returns on success is a connection that the
    dialer had yet to yield. *)
Lemma replace_track x p :
  wlp (connPool.replace x) p (λ r p',
    freeConns p' = freeConns p ∧ env p' = env p ∧ (dials p ≤ dials p')%nat
    ∧ (∀ c, c ≠ x → registered p c → registered p' c)
    ∧ ∀ newcn, r = (newcn, None) → future p newcn).
Proof.
  unfold connPool.replace. apply wlp_bind. unfold wlp at 1.
  rewrite new_cases. destruct (rl_Limit _ _).
  - apply wlp_bind. eapply wlp_mono; [apply connList_Remove_track|].
    intros _ p' (Hf & He & Hd & Hr). apply wlp_ret.
    split_and!; [done|done|cbn in Hd; lia|done|done].
  - destruct (dialer _ _) as [c [e|]] eqn:Hdial.
    + apply wlp_bind. eapply wlp_mono; [apply connList_Remove_track|].
      intros _ p' (Hf & He & Hd & Hr). apply wlp_ret.
      split_and!; [done|done|cbn in Hd; lia|done|done].
    + apply wlp_bind. eapply wlp_mono; [apply connList_Replace_track|].
      intros _ p' (Hf & He & Hd & Hr). apply wlp_ret.
      split_and!; [done|done|cbn in Hd; lia|done|].
      intros ? [= <-]. by exists (dials p).
Qed.

Lemma Pop_track p :
  wlp connStack.Pop p (λ cn p',
    conns p' = conns p ∧ env p' = env p ∧ dials p' = dials p
    ∧ (∀ x, x ∈ s_cns (freeConns p') → x ∈ s_cns (freeConns p))
    ∧ (cn = nil_conn
       ∨ cn ∈ s_cns (freeConns p)
         ∧ (s_free (freeConns p') < s_free (freeConns p))%nat)).
Proof.
  unfold wlp, connStack.Pop, connStack.pop, connStack.receive_free.
  destruct (s_free (freeConns p)) as [|n] eqn:Hn; [by auto 10|].
  unfold_M. cbn.
  destruct (last (s_cns (freeConns p))) as [cn|] eqn:Hlast; [|done].
  cbn. split_and!; [done..| |].
  - intros x Hx. apply elem_of_take in Hx as (i & Hi & _).
    by eapply list_elem_of_lookup_2.
  - right. split; [|lia]. apply last_Some in Hlast as [l' ->]. set_solver.
Qed.

(** The loop of [First], whatever the state: the free list only loses
    connections, a registered connection that is not in the free list stays
    registered, and the connection returned, if not nil, was in the free
    list or had yet to be dialed. *)
Lemma First_loop_track fuel : ∀ p,
  (s_free (freeConns p) < fuel)%nat →
  wlp (connPool.First_loop fuel) p (λ cn p',
    env p' = env p ∧ (dials p ≤ dials p')%nat
    ∧ (∀ x, x ∈ s_cns (freeConns p') → x ∈ s_cns (freeConns p))
    ∧ (∀ c, registered p c → c ∉ s_cns (freeConns p) → registered p' c)
    ∧ (cn = nil_conn ∨ cn ∈ s_cns (freeConns p) ∨ future p cn)).
Proof.
  induction fuel as [|fuel IH]; intros p Hfuel; [lia|].
  rewrite First_loop_S. apply wlp_bind.
  eapply wlp_mono; [apply Pop_track|].
  intros cn p1 (Hc1 & He1 & Hd1 & Hsub1 & Hcn).
  assert (∀ c, registered p c → registered p1 c) as Hreg1.
  { intros c. unfold registered. by rewrite Hc1. }
  case_decide as Hnil.
  { apply wlp_bind, wlp_ret, wlp_ret.
    split_and!; [done|lia|done|auto|auto]. }
  destruct Hcn as [?|[Hin Hlt]]; [done|].
  apply wlp_bind. eapply wlp_mono; [apply isIdle_stats|].
  intros idle ? ->. destruct idle.
  - apply wlp_bind. eapply wlp_mono; [apply replace_track|].
    intros [newcn [e|]] p2 (Hf2 & He2 & Hd2 & Hreg2 & Hnew).
    + apply wlp_bind. unfold wlp at 1, Logger_Print. sim.
      eapply wlp_mono; [apply IH; cbn; rewrite Hf2; lia|].
      intros cn' p3 (He3 & Hd3 & Hsub3 & Hreg3 & Hcn'). cbn in *.
      assert (∀ x, x ∈ s_cns (freeConns p2) → x ∈ s_cns (freeConns p))
        as Hsub2 by (rewrite Hf2; auto).
      split_and!.
      * by rewrite He3, He2.
      * lia.
      * auto.
      * intros c Hc Hout. apply Hreg3.
        -- apply Hreg2; [by intros ->|auto].
        -- intros Hc'. apply Hout. auto.
      * destruct Hcn' as [?|[?|Hfu]]; [auto|auto|].
        right; right. eapply future_mono; [..|exact Hfu].
        -- cbn. by rewrite He2.
        -- cbn. lia.
    + apply wlp_ret. split_and!.
      * by rewrite He2.
      * lia.
      * rewrite Hf2. auto.
      * intros c Hc Hout. apply Hreg2; [by intros ->|auto].
      * right; right. eapply (future_mono p p1); [done|lia|by apply Hnew].
  - apply wlp_ret. split_and!; [done|lia|done|auto|auto].
Qed.

Lemma First_track p :
  wlp connPool.First p (λ cn p',
    env p' = env p ∧ (dials p ≤ dials p')%nat
    ∧ (∀ x, x ∈ s_cns (freeConns p') → x ∈ s_cns (freeConns p))
    ∧ (∀ c, registered p c → c ∉ s_cns (freeConns p) → registered p' c)
    ∧ (cn = nil_conn ∨ cn ∈ s_cns (freeConns p) ∨ future p cn)).
Proof. apply First_loop_track. lia. Qed.

Lemma Get_track p :
  wlp connPool.Get p (λ r p',
    (∀ x, x ∈ s_cns (freeConns p') → x ∈ s_cns (freeConns p))
    ∧ (∀ c, registered p c → c ∉ s_cns (freeConns p) → registered p' c)
    ∧ (r.1.1 = nil_conn ∨ r.1.1 ∈ s_cns (freeConns p) ∨ future p r.1.1)).
Proof.
  unfold connPool.Get, connPool.closed.
  apply wlp_bind, wlp_gets. cbn beta.
  destruct (bool_decide (_closed p = 1)); [apply wlp_ret; by auto|].
  apply wlp_bind. unfold connPool.add_Requests. apply wlp_modify. cbn beta.
  apply wlp_bind. eapply wlp_mono; [apply First_track|].
  intros cn p1 (He1 & Hd1 & Hsub1 & Hreg1 & Hcn1). cbn in *.
  case_decide as Hnil.
  { apply wlp_bind. unfold connPool.add_Hits. apply wlp_modify, wlp_ret.
    by split_and!. }
  apply wlp_bind. unfold wlp at 1. rewrite Reserve_cases. cbn zeta.
  case_bool_decide as Hres.
  - apply wlp_bind. unfold wlp at 1. rewrite new_cases. sim.
    destruct (rl_Limit _ _).
    + apply wlp_bind. unfold wlp at 1. rewrite Remove_nil. sim.
      apply wlp_ret. cbn. split_and!; [done| |by left].
      intros c Hc Hout. by apply Hreg1.
    + destruct (dialer _ _) as [newcn [e|]] eqn:Hdial.
      * apply wlp_bind. unfold wlp at 1. rewrite Remove_nil. sim.
        apply wlp_ret. cbn. split_and!; [done| |by left].
        intros c Hc Hout. by apply Hreg1.
      * apply wlp_bind. unfold wlp at 1, connList.Add, connList.set_cns.
        sim. destruct (l_cns (conns p1)) as [m1|] eqn:Hm1; [|done].
        sim. apply wlp_ret. cbn. split_and!; [done| |].
        -- intros c Hc Hout. destruct (Hreg1 c Hc Hout) as (m' & Hm' & Hin).
           exists ({[newcn]} ∪ m1). cbn. split; [done|].
           rewrite Hm1 in Hm'. injection Hm' as <-. set_solver.
        -- right; right. exists (dials p1). split; [lia|]. by rewrite <- He1.
  - apply wlp_bind. unfold connPool.add_Waits. apply wlp_modify. cbn beta.
    apply wlp_bind. unfold wlp at 1. rewrite wait_First.
    eapply wlp_mono; [apply First_track|].
    intros cn' p2 (He2 & Hd2 & Hsub2 & Hreg2 & Hcn2). cbn in *.
    assert (∀ c, registered p c → c ∉ s_cns (freeConns p) → registered p2 c)
      as Hreg.
    { intros c Hc Hout. apply Hreg2; [|by auto].
      destruct (Hreg1 c Hc Hout) as (m' & Hm' & Hin). by exists m'. }
    case_decide as Hnil'.
    + apply wlp_ret. cbn. split_and!; [auto|done|].
      destruct Hcn2 as [?|[?|Hfu]]; [auto|auto|].
      right; right. eapply (future_mono p p1); [done|done|].
      eapply future_mono; [..|exact Hfu]; cbn; done.
    + apply wlp_bind. unfold connPool.add_Timeouts.
      apply wlp_modify, wlp_ret. cbn. split_and!; [auto|done|by left].
Qed.

(** [Get] under the invariant: it returns; with no error the connection
    returned is registered and not in the free list, and with an error it is
    nil. *)
Lemma Get_returns_held p m :
  pool_ok p m →
  wp connPool.Get p (λ r p',
    ∃ m', pool_ok p' m'
      ∧ match r with
        | (cn, _, None) => cn ∈ m' ∧ cn ∉ s_cns (freeConns p')
        | (cn, _, Some _) => cn = nil_conn
        end).
Proof.
  intros Hok. unfold connPool.Get, connPool.closed.
  apply wp_bind, wp_gets. cbn beta.
  destruct (bool_decide (_closed p = 1)).
  { apply wp_ret. by exists m. }
  apply wp_bind. unfold connPool.add_Requests. apply wp_modify. cbn beta.
  match goal with |- wp _ ?q _ => set (p0 := q) end.
  assert (pool_ok p0 m) as Hok0 by (by eapply stats_frame_ok).
  apply wp_bind. eapply wp_mono; [by apply (First_ok p0 m)|].
  intros cn p1 (Hcfg1 & Hc1 & _ & _ & m1 & Hok1 & Hcn).
  destruct (decide (cn ≠ nil_conn)) as [Hnil|Hnil].
  { apply wp_bind. unfold connPool.add_Hits. apply wp_modify, wp_ret.
    rewrite decide_False in Hcn by done. destruct Hcn as (Hin & Hout & _).
    exists m1. split; [by eapply stats_frame_ok|done]. }
  apply wp_bind. unfold wp at 1. rewrite Reserve_cases. cbn zeta.
  pose proof (pool_ok_bounds p1 m1 Hok1) as [Hb1 _].
  pose proof (ok_max32 p1 m1 Hok1) as Hmax1.
  rewrite AddInt32_small by lia.
  case_bool_decide as Hres.
  - apply wp_bind. unfold wp at 1. rewrite new_cases. sim.
    destruct (rl_Limit _ _).
    + apply wp_bind. unfold wp at 1. rewrite Remove_nil. sim.
      rewrite AddInt32_small by lia. apply wp_ret.
      exists m1. split; [|done]. destruct Hok1 as [? ? ? ? ? ? ? Hsub1 ? Hfresh1 Hinj1 ?].
      split; cbn; try done; try lia.
    + destruct (dialer _ _) as [newcn [e|]] eqn:Hdial.
      * apply wp_bind. unfold wp at 1. rewrite Remove_nil. sim.
        rewrite AddInt32_small by lia. apply wp_ret.
        exists m1. split; [|done]. destruct Hok1 as [? ? ? ? ? ? ? Hsub1 ? Hfresh1 Hinj1 ?].
        split; cbn; try done; try lia.
        -- intros c (k & Hk & Hd). apply Hfresh1. exists k.
           split; [cbn in Hk; lia|done].
        -- intros k k' c Hk Hk'. apply Hinj1; cbn in *; lia.
      * destruct (pool_ok_dialed p1 m1 newcn Hok1 Hdial) as (Hn0 & Hnm & Hnf).
        apply wp_bind. unfold wp at 1. unfold connList.Add, connList.set_cns.
        sim. rewrite (ok_cns p1 m1 Hok1). sim. apply wp_ret.
        exists ({[newcn]} ∪ m1). destruct Hok1 as [? ? ? ? ? ? ? Hsub1 ? Hfresh1 Hinj1 ?]. split.
        -- split; cbn; try done; try lia.
           ++ rewrite size_union by set_solver. rewrite size_singleton. lia.
           ++ set_solver.
           ++ intros c Hc. specialize (Hsub1 c Hc). set_solver.
           ++ intros c Hfu.
              assert (future p1 c) as Hfp
                by (eapply future_mono; [..|exact Hfu]; cbn; (done || lia)).
              destruct (Hfresh1 c Hfp). split; [done|].
              assert (c ≠ newcn) by (intros ->; by eapply Hnf; [| |exact Hfu]).
              set_solver.
           ++ intros k k' c Hk Hk'. apply Hinj1; cbn in *; lia.
        -- cbn. split; [set_solver|]. intros Hin. apply Hnm. by apply Hsub1.
  - rewrite AddInt32_small by lia.
    replace (l_size (conns p1) + 1 + -1) with (l_size (conns p1)) by lia.
    apply wp_bind. unfold connPool.add_Waits. apply wp_modify. cbn beta.
    match goal with |- wp _ ?q _ => set (p2 := q) end.
    assert (pool_ok p2 m1) as Hok2.
    { destruct Hok1 as [? ? ? ? ? ? ? Hsub1 ? Hfresh1 Hinj1 ?]. split; cbn; done. }
    apply wp_bind. unfold wp at 1. rewrite wait_First.
    eapply wp_mono; [by apply (First_ok p2 m1)|].
    intros cn' p3 (Hcfg3 & Hc3 & _ & _ & m3 & Hok3 & Hcn').
    destruct (decide (cn' ≠ nil_conn)) as [Hnil'|Hnil'].
    + apply wp_ret. rewrite decide_False in Hcn' by done.
      destruct Hcn' as (Hin & Hout & _). by exists m3.
    + apply wp_bind. unfold connPool.add_Timeouts. apply wp_modify, wp_ret.
      exists m3. split; [by eapply stats_frame_ok|done].
Qed.

(** X14.  In a pool that satisfies its invariant, [Get] hands out a
    connection to one caller only: when [Get] returns no error, the
    connection returned is not nil, is registered and is not in the free
    list, and it is none of the connections that callers held before the
    call, all of which are still held after it.  When [Get] returns an
    error, the connection returned is nil and the connections held by
    callers are still held. *)
Theorem Get_exclusive (p : connPool) (m : gset conn) :
  pool_ok p m →
  ∃ cn isNew err p',
    connPool.Get p = Ret (cn, isNew, err) p'
    ∧ (∀ c, checked_out p c → checked_out p' c ∧ c ≠ cn)
    ∧ match err with
      | None => cn ≠ nil_conn ∧ checked_out p' cn
      | Some _ => cn = nil_conn
      end.
Proof.
  intros Hok.
  pose proof (Get_returns_held p m Hok) as Hwp.
  apply wp_Ret in Hwp as ([[cn isNew] err] & p' & HGet & m' & Hok' & Hr).
  pose proof (Get_track p) as Htr.
  eapply wlp_Ret in Htr; [|exact HGet].
  cbn in Htr. destruct Htr as (Hsub & Hreg & Horigin).
  exists cn, isNew, err, p'. split_and!; [done| |].
  - intros c Hco. destruct (checked_out_ok p m c Hok Hco) as [Hin Hout].
    destruct Hco as [Hc _]. split.
    + split; [by apply Hreg|]. intros Hc'. apply Hout. by apply Hsub.
    + intros ->. destruct Horigin as [->|[Hfree|Hfu]].
      * by apply (ok_nil p m Hok).
      * done.
      * by destruct (ok_fresh p m Hok cn Hfu).
  - destruct err; [done|]. destruct Hr as [Hin Hout]. split.
    + intros ->. by apply (ok_nil p' m' Hok').
    + split; [|done]. exists m'. split; [by destruct Hok'|done].
Qed.

(** A caller holds the connection 1; a second [Get] dials the connection 2
    and leaves 1 with its caller. *)
Lemma Get_exclusive_witness :
  let p0 := newConnPool env_up (opt_size 2) in
  let p1 := after connPool.Get p0 in
  let p2 := after connPool.Get p1 in
  connPool.Get p1 = Ret (2%N, true, None) p2
  ∧ checked_out p2 1%N ∧ checked_out p2 2%N.
Proof.
  intros p0 p1 p2.
  assert (pool_ok p0 ∅) as Hok0 by (apply pool_ok_new; [done|done|lia]).
  assert (pool_step p0 p1) as Hstep
    by (by apply (step_Get p0 (1%N, true, None)); vm_compute).
  destruct (pool_step_ok p0 p1 ∅ Hok0 Hstep) as (_ & m1 & Hok1).
  destruct (Get_exclusive p1 m1 Hok1)
    as (cn & isNew & err & p' & HGet & Hheld & Hr).
  assert (connPool.Get p1 = Ret (2%N, true, None) p2) as HG
    by (by vm_compute).
  rewrite HG in HGet. injection HGet as <- <- <- <-.
  split; [done|]. destruct Hr as [_ Hco2]. split; [|done].
  apply Hheld. split.
  - exists {[1%N]}. split; [by vm_compute|set_solver].
  - assert (s_cns (freeConns p1) = []) as -> by (by vm_compute). set_solver.
Defined.

(** ** [Stats] *)

(** X15.  [Stats] changes nothing in the pool.  The snapshot carries the
    counters [Requests], [Hits], [Waits] and [Timeouts] as they are, and in
    a pool that satisfies its invariant [TotalConns] is the number of
    registered connections and [FreeConns] the number of connections in the
    free list, so that [FreeConns <= TotalConns <= max]. *)
Theorem Stats_snapshot (p : connPool) (m : gset conn) :
  pool_ok p m →
  ∃ st, connPool.Stats p = Ret st p
    ∧ Requests st = Requests (stats p) ∧ Hits st = Hits (stats p)
    ∧ Waits st = Waits (stats p) ∧ Timeouts st = Timeouts (stats p)
    ∧ TotalConns st = Z.of_nat (size m)
    ∧ FreeConns st = Z.of_nat (length (s_cns (freeConns p)))
    ∧ 0 ≤ FreeConns st ≤ TotalConns st
    ∧ TotalConns st ≤ l_max (conns p).
Proof.
  intros Hok.
  pose proof (pool_ok_bounds p m Hok) as [Hb Hf].
  pose proof (ok_max32 p m Hok) as Hmax.
  pose proof (ok_size p m Hok) as Hsz.
  pose proof (ok_free p m Hok) as Hfree.
  unfold connPool.Stats, connPool.Len, connPool.FreeLen, connList.Len,
    connStack.Len.
  sim. eexists. split; [done|]. cbn. unfold uint32.
  rewrite !Z.mod_small by lia. rewrite <- Hfree, <- Hsz.
  split_and!; (done || lia).
Qed.

Lemma Stats_snapshot_witness :
  let p0 := newConnPool env_up (opt_size 2) in
  let p1 := after connPool.Get p0 in
  let p2 := after connPool.Get p1 in
  let p := after (connPool.Put 1%N) p2 in
  ∃ st, connPool.Stats p = Ret st p
    ∧ Requests st = 2 ∧ Hits st = 0
    ∧ TotalConns st = 2 ∧ FreeConns st = 1.
Proof.
  intros p0 p1 p2 p.
  assert (∃ m, pool_ok p m) as [m Hok].
  { assert (pool_ok p0 ∅) as Hok0 by (apply pool_ok_new; [done|done|lia]).
    apply (pool_steps_ok p0 p) in Hok0 as [_ ?]; [done|].
    apply (rtc_l _ p0 p1);
      [by apply (step_Get p0 (1%N, true, None)); vm_compute|].
    apply (rtc_l _ p1 p2);
      [by apply (step_Get p1 (2%N, true, None)); vm_compute|].
    apply rtc_once. apply (step_Put p2 1%N None); [|by vm_compute].
    split; [exists {[1%N; 2%N]}; split; [by vm_compute|set_solver]|].
    assert (s_cns (freeConns p2) = []) as -> by (by vm_compute).
    set_solver. }
  destruct (Stats_snapshot p m Hok)
    as (st & HS & Hreq & Hhit & _ & _ & Htot & Hfr & _).
  exists st. split; [done|].
  assert (connPool.Stats p = Ret
            {| Requests := 2; Hits := 0; Waits := 0; Timeouts := 0;
               TotalConns := 2; FreeConns := 1 |} p) as HS'
    by (by vm_compute).
  rewrite HS' in HS. by injection HS as <-.
Defined.

(** ** [Close] of a pool without idle timeout *)

Lemma Close_drain_no_idle l : ∀ fuel i q,
  getIdleTimeout (opt q) ≤ 0 →
  s_cns (freeConns q) = l → s_free (freeConns q) = length l →
  (length l < fuel)%nat → nil_conn ∉ l →
  i + Z.of_nat (length l) ≤ l_size (conns q) →
  connPool.Close_drain fuel i q = Ret tt (with_free [] 0 q).
Proof.
  induction l as [|x l IH] using rev_ind;
    intros fuel i q Hidle Hl Hn Hfuel Hnil Hi;
    (destruct fuel as [|fuel]; [cbn in Hfuel; lia|]);
    rewrite Close_drain_S; unfold connPool.Len, connList.Len; sim.
  - assert (with_free [] 0 q = q) as ->.
    { unfold with_free, set_freeConns. cbn in Hn. rewrite <- Hl, <- Hn.
      by destruct q as [? ? ? [] ? ? ? ? ? ? ?]. }
    destruct (decide (i < l_size (conns q))); [|done].
    rewrite wait_First, First_empty by done. sim. done.
  - rewrite length_app in *. cbn in *.
    rewrite decide_True by lia.
    assert (x ≠ nil_conn) as Hx by (intros ->; apply Hnil; set_solver).
    rewrite wait_First, (First_top q l x (length l)); [|done|lia|done|].
    + cbn. rewrite decide_False by done.
      rewrite IH; [done|done|done|done|lia|set_solver|cbn; lia].
    + unfold idle. lia.
Qed.

(** X16.  [Close] of an open pool that satisfies its invariant and has no
    idle timeout makes no dial and closes exactly the connections that were
    registered at the call, each once, those that callers still hold
    included: it sets the closed flag, empties the free list, visits the
    registry in the order of the range, returns the last close error, and
    leaves the registry closed with size 0. *)
Theorem Close_closes_registered (p : connPool) (m : gset conn) :
  pool_ok p m → _closed p = 0 → getIdleTimeout (opt p) ≤ 0 →
  let order := range_cns (env p) m in
  order ≡ₚ elements m
  ∧ connPool.Close p
    = Ret (last (close_errors (env p) order))
          (registry_closed order (with_free [] 0 (set_closed 1 p))).
Proof.
  intros Hok Hc Hidle order. split; [apply (ok_range p m Hok)|].
  pose proof (ok_free p m Hok) as Hfree.
  pose proof (free_le_size p m Hok) as Hle.
  pose proof (ok_size p m Hok) as Hsz.
  assert (nil_conn ∉ s_cns (freeConns p)) as Hnil.
  { intros Hin. apply (ok_nil p m Hok). by apply (ok_sub p m Hok). }
  unfold connPool.Close. unfold mbind at 1, M_bind at 1, gets at 1.
  rewrite decide_True by done.
  unfold mbind at 1, M_bind at 1, modify at 1.
  unfold mbind at 1, M_bind at 1.
  rewrite (Close_drain_no_idle (s_cns (freeConns p)));
    [|done|done|done|cbn; lia|done|cbn; lia].
  rewrite (connList_Close_spec _ m);
    [done|apply (ok_cns p m Hok)|apply (ok_nil p m Hok)
    |apply (ok_range p m Hok)].
Qed.

Lemma pool_ok_registry p m m' :
  pool_ok p m → l_cns (conns p) = Some m' → pool_ok p m'.
Proof.
  intros Hok Hm. rewrite (ok_cns p m Hok) in Hm. by injection Hm as <-.
Qed.

(** Two connections dialed and held by callers. *)
Lemma pool_ok_two_held :
  let p0 := newConnPool env_up (opt_size 2) in
  let p2 := after connPool.Get (after connPool.Get p0) in
  pool_ok p2 {[1%N; 2%N]}.
Proof.
  intros p0 p2.
  assert (pool_ok p0 ∅) as Hok0 by (apply pool_ok_new; [done|done|lia]).
  apply (pool_steps_ok p0 p2) in Hok0 as [_ [m Hok]].
  - apply (pool_ok_registry p2 m); [done|by vm_compute].
  - apply (rtc_l _ p0 (after connPool.Get p0));
      [by apply (step_Get p0 (1%N, true, None)); vm_compute|].
    apply rtc_once.
    by apply (step_Get (after connPool.Get p0) (2%N, true, None)); vm_compute.
Qed.

Lemma Close_closes_registered_witness :
  let p2 := after connPool.Get (after connPool.Get
              (newConnPool env_up (opt_size 2))) in
  ∃ p', connPool.Close p2 = Ret None p'
    ∧ closedConns p' ≡ₚ elements ({[1%N; 2%N]} : gset conn)
    ∧ dials p' = dials p2 ∧ s_cns (freeConns p') = []
    ∧ l_cns (conns p') = None.
Proof.
  intros p2.
  destruct (Close_closes_registered p2 {[1%N; 2%N]}) as [Hperm HC];
    [apply pool_ok_two_held | done | done |].
  eexists. split; [rewrite HC; f_equal; by vm_compute|].
  split_and!; [|done..]. by rewrite <- Hperm.
Defined.

(** ** Idle connections while the server is down *)

(** When every call of the dialer fails, a dial fails, whatever the rate
    limiter says. *)
Lemma new_err_down p :
  (∀ k, (dialer (env p) k).2 ≠ None) → ∃ err, new_err p = Some err.
Proof.
  intros Hdown. unfold new_err. rewrite new_cases.
  destruct (rl_Limit _ _); [by eexists|].
  specialize (Hdown (dials p)).
  destruct (dialer _ _) as [c [e|]]; [by eexists|done].
Qed.

Lemma First_loop_down l : ∀ fuel p m,
  pool_ok p m → s_cns (freeConns p) = l → (length l < fuel)%nat →
  (∀ cn, cn ∈ l → idle p cn) →
  (∀ k, (dialer (env p) k).2 ≠ None) →
  ∃ p' errs,
    connPool.First_loop fuel p = Ret nil_conn p'
    ∧ pool_ok p' (m ∖ list_to_set l)
    ∧ s_cns (freeConns p') = []
    ∧ l_size (conns p') = l_size (conns p) - Z.of_nat (length l)
    ∧ closedConns p' = closedConns p ++ reverse l
    ∧ length errs = length l
    ∧ Logger p'
      = Logger p ++ ((λ e, "pool.replace failed: " +:+ e) <$> errs)
    ∧ env p' = env p ∧ opt p' = opt p ∧ stats p' = stats p
    ∧ _closed p' = _closed p.
Proof.
  induction l as [|x l IH] using rev_ind;
    intros fuel p m Hok Hl Hfuel Hidle Hdown;
    (destruct fuel as [|fuel]; [cbn in Hfuel; lia|]).
  - pose proof (ok_free p m Hok) as Hfree. rewrite Hl in Hfree.
    exists p, []. rewrite First_loop_S. unfold mbind, M_bind.
    rewrite Pop_empty by done. rewrite decide_True by done. cbn.
    split_and!; try done.
    + by rewrite difference_empty_L.
    + lia.
    + by rewrite app_nil_r.
    + by rewrite app_nil_r.
  - pose proof (ok_free p m Hok) as Hfree. rewrite Hl, length_app in Hfree.
    cbn in Hfree.
    destruct (pool_ok_popped p m l x Hok Hl) as (Hok1 & Hin & Hout & Hnil).
    assert (connStack.Pop p = Ret x (with_free l (length l) p)) as HPop
      by (apply Pop_top; [done|lia]).
    set (p1 := with_free l (length l) p) in *.
    assert (idle p1 x) as Hidle1 by (apply Hidle; set_solver).
    destruct (new_err_down p1 Hdown) as [err Herr].
    destruct (replace_fails p1 x err m (ok_cns p1 m Hok1) Hin Hnil Herr)
      as (p2 & Hrep & Hco2 & Hf2 & Hs2 & Hc2 & Ho2 & He2 & Hlg2 & Hcc2 & _).
    pose proof (replace_ok p1 m x Hok1 Hin) as Hwp.
    apply wp_Ret in Hwp as (r & p2' & Hrep' & _ & _ & _ & _ & m2 & Hok2 & Hr);
      [|by subst p1].
    rewrite Hrep in Hrep'. injection Hrep' as <- <-.
    assert (pool_ok p2 (m ∖ {[x]})) as Hok2'.
    { apply (pool_ok_registry p2 m2 _ Hok2). by rewrite Hco2. }
    set (p3 := set_Logger (Logger p2 ++ ["pool.replace failed: " +:+ err]) p2).
    assert (pool_ok p3 (m ∖ {[x]})) as Hok3
      by (by eapply stats_frame_ok).
    destruct (IH fuel p3 (m ∖ {[x]}) Hok3)
      as (p' & errs & HF & Hok' & Hfl' & Hsz' & Hcc' & Hlen & Hlg' & He'
          & Ho' & Hs' & Hc').
    { subst p3. cbn. by rewrite Hf2. }
    { rewrite length_app in Hfuel. cbn in Hfuel. lia. }
    { intros cn Hcn. assert (idle p cn) as Hi by (apply Hidle; set_solver).
      unfold idle in *. subst p3. cbn. by rewrite Ho2, He2. }
    { intros k. subst p3. cbn. rewrite He2. apply Hdown. }
    exists p', (err :: errs). rewrite First_loop_S. unfold mbind, M_bind.
    rewrite HPop. rewrite decide_False by done.
    rewrite isIdle_idle by done. rewrite bool_decide_eq_true_2 by done.
    rewrite Hrep. unfold Logger_Print, modify. fold p3. rewrite HF.
    split_and!; try done.
    + replace (m ∖ list_to_set (l ++ [x])) with (m ∖ {[x]} ∖ list_to_set l)
        by set_solver. done.
    + rewrite Hsz'. subst p3. cbn. rewrite Hr. subst p1. cbn.
      rewrite length_app. cbn. lia.
    + rewrite Hcc'. subst p3. cbn. rewrite Hcc2. subst p1. cbn.
      rewrite reverse_app. cbn. by rewrite <- app_assoc.
    + rewrite length_app. cbn. lia.
    + rewrite Hlg'. subst p3. cbn. rewrite Hlg2. subst p1. cbn.
      by rewrite <- app_assoc.
    + rewrite He'. subst p3. cbn. by rewrite He2.
    + rewrite Ho'. subst p3. cbn. by rewrite Ho2.
    + rewrite Hs'. subst p3. cbn. by rewrite Hs2.
    + rewrite Hc'. subst p3. cbn. by rewrite Hc2.
Qed.

(** X17.  In a pool that satisfies its invariant, when every connection in
    the free list is idle and every dial fails, [First] evicts them all: it
    pops the connections from the top down, closes each and deletes it from
    the registry, logs one "pool.replace failed" line for each, and returns
    nil with the free list empty; a tick of the reaper on an open pool does
    the same and goes on. *)
Theorem First_evicts_idle_when_down (p : connPool) (m : gset conn) :
  pool_ok p m →
  (∀ cn, cn ∈ s_cns (freeConns p) → idle p cn) →
  (∀ k, (dialer (env p) k).2 ≠ None) →
  let l := s_cns (freeConns p) in
  ∃ p' errs,
    connPool.First p = Ret nil_conn p'
    ∧ (_closed p ≠ 1 → connPool.reaper_tick p = Ret true p')
    ∧ s_cns (freeConns p') = []
    ∧ l_cns (conns p') = Some (m ∖ list_to_set l)
    ∧ l_size (conns p') = l_size (conns p) - Z.of_nat (length l)
    ∧ closedConns p' = closedConns p ++ reverse l
    ∧ length errs = length l
    ∧ Logger p'
      = Logger p ++ ((λ e, "pool.replace failed: " +:+ e) <$> errs)
    ∧ pool_ok p' (m ∖ list_to_set l).
Proof.
  intros Hok Hidle Hdown l.
  pose proof (ok_free p m Hok) as Hfree.
  destruct (First_loop_down l (S (s_free (freeConns p))) p m)
    as (p' & errs & HF & Hok' & Hfl & Hsz & Hcc & Hlen & Hlg & _);
    [done|done|subst l; lia|done|done|].
  exists p', errs. split_and!; try done.
  - intros Hc. unfold connPool.reaper_tick, connPool.closed.
    unfold mbind at 1, M_bind at 1, gets at 1.
    rewrite bool_decide_eq_false_2 by done.
    unfold mbind at 1, M_bind at 1. unfold connPool.First. rewrite HF.
    by rewrite decide_False by (by intros []).
  - apply (ok_cns p' _ Hok').
Qed.

(** A pool just made satisfies the invariant, whatever its timeouts. *)
Lemma pool_ok_made (e : Env) (o : Options) :
  (∀ k, dialer e k = (N.of_nat (S k), None)) →
  (∀ m, range_cns e m = elements m) →
  0 ≤ getPoolSize o < 2 ^ 31 - 1 →
  pool_ok (newConnPool e o) ∅.
Proof.
  intros Hd Hr Hn. split; cbn; try done.
  - rewrite int32_small; lia.
  - rewrite int32_small; lia.
  - apply NoDup_nil_2.
  - intros cn Hcn. by apply elem_of_nil in Hcn.
  - rewrite int32_small; lia.
  - intros cn (k & _ & Hk). cbn in Hk. rewrite Hd in Hk.
    injection Hk as <-. split; [|set_solver]. unfold nil_conn. lia.
  - intros k k' cn _ _. rewrite !Hd. intros [= <-] [= Heq]. lia.
  - intros m. by rewrite Hr.
Qed.

(** The invariant does not ask anything of a dialer that always fails. *)
Lemma pool_ok_down p m e :
  pool_ok p m →
  (∀ k, (dialer e k).2 ≠ None) →
  (∀ m, range_cns e m = range_cns (env p) m) →
  pool_ok (set_env e p) m.
Proof.
  intros [] Hdown Hr. split; cbn; try done.
  - intros cn (k & _ & Hk). cbn in Hk. specialize (Hdown k).
    by rewrite Hk in Hdown.
  - intros k k' cn _ _ Hk. cbn in Hk. specialize (Hdown k).
    by rewrite Hk in Hdown.
  - intros m'. by rewrite Hr.
Qed.

(** Two connections are dialed, used and put back at time 0; at time 100
    both have been idle for longer than the timeout of 10, and the server
    is down. *)
Lemma First_evicts_idle_when_down_witness :
  let p0 := newConnPool env_up (opt_idle 2 10) in
  let p2 := after connPool.Get (after connPool.Get p0) in
  let p4 := after (connPool.Put 2%N) (after (connPool.Put 1%N) p2) in
  let p := set_env env_later_down p4 in
  s_cns (freeConns p) = [1%N; 2%N]
  ∧ ∃ p', connPool.First p = Ret nil_conn p'
      ∧ s_cns (freeConns p') = []
      ∧ l_cns (conns p') = Some ({[1%N; 2%N]} ∖ list_to_set [1%N; 2%N])
      ∧ l_size (conns p') = 0
      ∧ closedConns p' = [2%N; 1%N]
      ∧ length (Logger p') = 2%nat.
Proof.
  intros p0 p2 p4 p. split; [by vm_compute|].
  assert (pool_ok p {[1%N; 2%N]}) as Hok.
  { apply pool_ok_down; [|by intros k|done].
    assert (pool_ok p0 ∅) as Hok0 by (apply pool_ok_made; [done|done|cbn; lia]).
    apply (pool_steps_ok p0 p4) in Hok0 as [_ [m Hok]].
    { apply (pool_ok_registry p4 m); [done|by vm_compute]. }
    apply (rtc_l _ p0 (after connPool.Get p0));
      [by apply (step_Get p0 (1%N, true, None)); vm_compute|].
    apply (rtc_l _ _ p2);
      [by apply (step_Get _ (2%N, true, None)); vm_compute|].
    apply (rtc_l _ p2 (after (connPool.Put 1%N) p2)).
    { apply (step_Put p2 1%N None); [|by vm_compute].
      split; [exists {[1%N; 2%N]}; split; [by vm_compute|set_solver]|].
      assert (s_cns (freeConns p2) = []) as -> by (by vm_compute).
      set_solver. }
    apply rtc_once.
    apply (step_Put (after (connPool.Put 1%N) p2) 2%N None); [|by vm_compute].
    split; [exists {[1%N; 2%N]}; split; [by vm_compute|set_solver]|].
    assert (s_cns (freeConns (after (connPool.Put 1%N) p2)) = [1%N]) as ->
      by (by vm_compute).
    set_solver. }
  destruct (First_evicts_idle_when_down p {[1%N; 2%N]} Hok)
    as (p' & errs & HF & _ & Hfl & Hm & Hsz & Hcc & Hlen & Hlg & _).
  { intros cn _. split; by vm_compute. }
  { by intros k. }
  exists p'. split_and!; [done|done|..].
  - rewrite Hm. do 2 f_equal.
  - rewrite Hsz. by vm_compute.
  - rewrite Hcc. by vm_compute.
  - rewrite Hlg, length_app, length_fmap, Hlen. by vm_compute.
Defined.
